(** * SimpleVector and ArrayPtr: a shallow embedding and its properties

    The development follows [simple-vector/array_ptr.h] and
    [simple-vector/simple_vector.h].  The C++ heap is modelled explicitly:
    an array allocated by [new Type[n]{}] is a block of the heap, a raw
    pointer is a block together with an offset, and every method is a
    function that threads the heap (and the object it works on) and may
    fail with an exception, an assertion failure or undefined behaviour. *)

From stdpp Require Import base numbers option list relations.

Local Open Scope Z_scope.

(** ** Machine integers *)

(** [size_t] is an unsigned 64-bit integer; [size_t z] is the value stored
    when the mathematical result of an operation is [z]. *)
Definition size_t (z : Z) : Z := z mod 2 ^ 64.

(** No array object has more than [PTRDIFF_MAX] elements: [new Type[n]]
    throws for a larger [n] whatever the element type. *)
Definition max_array_len : Z := 2 ^ 63 - 1.

(** ** Outcomes of a call *)

Inductive error : Type :=
  | out_of_range          (* std::out_of_range thrown by At *)
  | bad_alloc             (* std::bad_alloc thrown by operator new[] *)
  | assertion_failed      (* assert(...) does not hold *)
  | undefined_behavior.   (* invalid pointer use, double delete, ... *)

Inductive result (A : Type) : Type :=
  | Ok (a : A)
  | Err (e : error).
Arguments Ok {A} a.
Arguments Err {A} e.

Definition bind {A B : Type} (m : result A) (k : A -> result B) : result B :=
  match m with
  | Ok a => k a
  | Err e => Err e
  end.

Notation "'let!' x := m 'in' k" := (bind m (fun x => k))
  (at level 10, x pattern, m at level 100, k at level 200).

Definition assert (b : bool) : result unit :=
  if b then Ok tt else Err assertion_failed.

(** ** Raw pointers *)

(** A pointer is null-based ([blk = None]) or points into block [b] of the
    heap, at element offset [off].  [nullptr] is the null-based pointer of
    offset 0.  Pointer arithmetic only moves the offset; whether the result
    may be dereferenced is decided at the access. *)
Record ptr : Type := Ptr { blk : option nat; off : Z }.

Definition nullptr : ptr := Ptr None 0.

Global Instance ptr_eq_dec : EqDecision ptr.
Proof. solve_decision. Defined.

Definition ptr_add (p : ptr) (n : Z) : ptr := Ptr (blk p) (off p + n).

(** [p - q], defined for two pointers into the same array only. *)
Definition ptr_diff (p q : ptr) : result Z :=
  if decide (blk p = blk q) then Ok (off p - off q)
  else Err undefined_behavior.

(** [p <= q] and [p < q], meaningful for two pointers into the same array
    only; the result is unspecified otherwise and the callers below rely on
    it, so that case is reported as undefined behaviour. *)
Definition ptr_le (p q : ptr) : result bool :=
  if decide (blk p = blk q) then Ok (off p <=? off q)
  else Err undefined_behavior.

Definition ptr_lt (p q : ptr) : result bool :=
  if decide (blk p = blk q) then Ok (off p <? off q)
  else Err undefined_behavior.

(** ** References to sub-objects

    Two references passed to one call may denote the same object
    ([a.swap(a)], [a = std::move(a)]).  A reference is therefore a pair of
    a reader and a writer into an enclosing state [S], and the operations
    that take two references are written once, for any pair of them. *)
Record Ref (S A : Type) : Type := MkRef { rd : S -> A; wr : A -> S -> S }.
Arguments MkRef {S A} rd wr.
Arguments rd {S A} r s.
Arguments wr {S A} r a s.

(** [std::swap(a, b)]: [tmp = a; a = b; b = tmp]. *)
Definition std_swap {S A : Type} (a b : Ref S A) (s : S) : S :=
  let tmp := rd a s in
  let s1 := wr a (rd b s) s in
  wr b tmp s1.

(** [std::exchange(obj, new_value)]: returns the old value of [obj]. *)
Definition std_exchange {S A : Type} (obj : Ref S A) (new_value : A) (s : S)
  : A * S :=
  let old_value := rd obj s in
  (old_value, wr obj new_value s).

(** The [i]-th cell of a list of objects, as a reference. *)
Definition cell {A : Type} (d : A) (i : nat) : Ref (list A) A :=
  MkRef (fun s => default d (s !! i)) (fun a s => <[i:=a]> s).

Definition fst_ref {A B : Type} : Ref (A * B) A :=
  MkRef fst (fun a s => (a, snd s)).

Definition snd_ref {A B : Type} : Ref (A * B) B :=
  MkRef snd (fun b s => (fst s, b)).

(** A reference to a field [g] of the object [r] refers to. *)
Definition field {S A B : Type} (r : Ref S A) (g : A -> B) (u : B -> A -> A)
  : Ref S B :=
  MkRef (fun s => g (rd r s)) (fun b s => wr r (u b (rd r s)) s).

(** The part [inner] of the object [outer] refers to. *)
Definition sub {S A B : Type} (outer : Ref S A) (inner : Ref A B) : Ref S B :=
  field outer (rd inner) (wr inner).

(** ** The heap *)

Section Heap.
Context {T : Type}.
(** [Type{}], the value-initialised element. *)
Variable dflt : T.

(** Block [b] of the heap is [Some l] while the array is allocated, [l]
    being its elements, and [None] once it has been deleted. *)
Local Abbreviation heap := (list (option (list T))).

(** Reading the element [p] points to. *)
Definition load (p : ptr) (h : heap) : result T :=
  match blk p with
  | Some b =>
      match h !! b with
      | Some (Some l) =>
          if 0 <=? off p then
            match l !! Z.to_nat (off p) with
            | Some x => Ok x
            | None => Err undefined_behavior
            end
          else Err undefined_behavior
      | _ => Err undefined_behavior
      end
  | None => Err undefined_behavior
  end.

(** Assigning [x] to the element [p] points to. *)
Definition store (p : ptr) (x : T) (h : heap) : result heap :=
  match blk p with
  | Some b =>
      match h !! b with
      | Some (Some l) =>
          if (0 <=? off p) && (off p <? Z.of_nat (length l)) then
            Ok (<[b := Some (<[Z.to_nat (off p) := x]> l)]> h)
          else Err undefined_behavior
      | _ => Err undefined_behavior
      end
  | None => Err undefined_behavior
  end.

(** [new Type[n]{}] for [n > 0]: a fresh block of [n] value-initialised
    elements. *)
Definition new_array (n : Z) (h : heap) : result (ptr * heap) :=
  if n <=? max_array_len then
    Ok (Ptr (Some (length h)) 0, h ++ [Some (replicate (Z.to_nat n) dflt)])
  else Err bad_alloc.

(** [delete[] p]: nothing for a null pointer; [p] must otherwise be the
    address of a live array. *)
Definition delete_array (p : ptr) (h : heap) : result heap :=
  if decide (p = nullptr) then Ok h
  else
    match blk p with
    | Some b =>
        match h !! b with
        | Some (Some _) =>
            if off p =? 0 then Ok (<[b := None]> h)
            else Err undefined_behavior
        | _ => Err undefined_behavior
        end
    | None => Err undefined_behavior
    end.
End Heap.

(** ** ArrayPtr (array_ptr.h) *)

Module ArrayPtr.

Record t : Type := Make { raw_ptr_ : ptr }.

(** The member [raw_ptr_] of the object a reference denotes. *)
Definition raw_ptr_ref {S : Type} (r : Ref S t) : Ref S ptr :=
  field r raw_ptr_ (fun p _ => Make p).

Section Methods.
Context {T : Type}.
Variable dflt : T.
Local Abbreviation heap := (list (option (list T))).

(** [ArrayPtr() = default]. *)
Definition default : t := Make nullptr.

(** [explicit ArrayPtr(size_t size)]. *)
Definition sized (size : Z) (h : heap) : result (t * heap) :=
  let tmp := 0 in
  if size >? tmp then
    let! (tmp_ptr, h1) := new_array dflt size h in
    let s := std_swap (raw_ptr_ref fst_ref) snd_ref (default, tmp_ptr) in
    Ok (fst s, h1)
  else Ok (default, h).

(** [explicit ArrayPtr(Type* raw_ptr)]. *)
Definition from_raw (raw_ptr : ptr) : t := Make raw_ptr.

(** [ArrayPtr(ArrayPtr&& other)]; the object under construction is new, so
    it cannot be [other]. *)
Definition move_construct {S : Type} (other : Ref S t) (s : S) : t * S :=
  let (old, s1) := std_exchange (raw_ptr_ref other) nullptr s in
  (Make old, s1).

(** [ArrayPtr& operator=(ArrayPtr&& other)]. *)
Definition move_assign {S : Type} (this other : Ref S t) (s : S) (h : heap)
  : result (S * heap) :=
  let! h1 :=
    (if decide (raw_ptr_ (rd this s) = nullptr) then Ok h
     else delete_array (raw_ptr_ (rd this s)) h) in
  let (old, s1) := std_exchange (raw_ptr_ref other) nullptr s in
  Ok (wr (raw_ptr_ref this) old s1, h1).

(** [~ArrayPtr()]. *)
Definition destroy (this : t) (h : heap) : result heap :=
  delete_array (raw_ptr_ this) h.

(** [Release()]: the raw address, and the object afterwards. *)
Definition Release (this : t) : ptr * t :=
  let tmp := raw_ptr_ this in
  (tmp, Make nullptr).

(** [operator[](size_t index)]: the element at [raw_ptr_ + index], as the
    address it is referred to by. *)
Definition index (this : t) (i : Z) : ptr := ptr_add (raw_ptr_ this) i.

(** [explicit operator bool()]. *)
Definition to_bool (this : t) : bool :=
  negb (bool_decide (raw_ptr_ this = nullptr)).

(** [Get()]. *)
Definition Get (this : t) : ptr := raw_ptr_ this.

(** [swap(ArrayPtr& other)]. *)
Definition swap {S : Type} (this other : Ref S t) (s : S) : S :=
  std_swap (raw_ptr_ref this) (raw_ptr_ref other) s.

End Methods.
End ArrayPtr.

(** ** ReserveProxyObj and SimpleVector (simple_vector.h)

    A method of one vector is a function of the vector and the heap.  An
    argument of type [const Type&] or [Type&&] is taken by its value: it is
    bound to an object outside the buffer of the vector.  An iterator is a
    raw pointer. *)

Module ReserveProxyObj.
Record t : Type := Make { capacity_to_reserve_ : Z }.
Definition default : t := Make 0.
Definition GetCapacity (this : t) : Z := capacity_to_reserve_ this.
End ReserveProxyObj.

Module SimpleVector.

Record t : Type := Make { items_ : ArrayPtr.t; size_ : Z; capacity_ : Z }.

Definition set_items (a : ArrayPtr.t) (v : t) : t :=
  Make a (size_ v) (capacity_ v).
Definition set_size (n : Z) (v : t) : t := Make (items_ v) n (capacity_ v).
Definition set_capacity (n : Z) (v : t) : t := Make (items_ v) (size_ v) n.

Definition items_ref {S : Type} (r : Ref S t) : Ref S ArrayPtr.t :=
  field r items_ set_items.
Definition size_ref {S : Type} (r : Ref S t) : Ref S Z :=
  field r size_ set_size.
Definition capacity_ref {S : Type} (r : Ref S t) : Ref S Z :=
  field r capacity_ set_capacity.

Section Methods.
Context {T : Type}.
(** [Type{}]. *)
Variable dflt : T.
(** The state a move leaves its source in: the identity for scalars, the
    empty value for the standard owning types. *)
Variable moved_from : T -> T.
Local Abbreviation heap := (list (option (list T))).

(** *** Queries and iterators *)

Definition GetSize (v : t) : Z := size_ v.
Definition GetCapacity (v : t) : Z := capacity_ v.
Definition IsEmpty (v : t) : bool := size_ v =? 0.

Definition begin (v : t) : ptr := ArrayPtr.Get (items_ v).
Definition end_ (v : t) : ptr := ptr_add (ArrayPtr.Get (items_ v)) (size_ v).
Definition cbegin (v : t) : ptr := ArrayPtr.Get (items_ v).
Definition cend (v : t) : ptr := ptr_add (ArrayPtr.Get (items_ v)) (size_ v).

(** *** The algorithms of the standard library the methods call *)

(** [std::fill(first, last, value)], [n] being [last - first]. *)
Fixpoint fill_loop (n : nat) (first : ptr) (value : T) (h : heap)
  : result heap :=
  match n with
  | O => Ok h
  | S n' =>
      let! h1 := store first value h in
      fill_loop n' (ptr_add first 1) value h1
  end.

Definition std_fill (first last : ptr) (value : T) (h : heap) : result heap :=
  let! n := ptr_diff last first in
  if n <? 0 then Err undefined_behavior
  else fill_loop (Z.to_nat n) first value h.

(** [std::copy(first, last, d_first)] from an array of the heap. *)
Fixpoint copy_loop (n : nat) (first d_first : ptr) (h : heap)
  : result (ptr * heap) :=
  match n with
  | O => Ok (d_first, h)
  | S n' =>
      let! x := load first h in
      let! h1 := store d_first x h in
      copy_loop n' (ptr_add first 1) (ptr_add d_first 1) h1
  end.

Definition std_copy (first last d_first : ptr) (h : heap)
  : result (ptr * heap) :=
  let! n := ptr_diff last first in
  if n <? 0 then Err undefined_behavior
  else copy_loop (Z.to_nat n) first d_first h.

(** [std::copy(init.begin(), init.end(), d_first)]: the source is the array
    behind a [std::initializer_list], which is not an array of the heap. *)
Fixpoint copy_init (init : list T) (d_first : ptr) (h : heap)
  : result (ptr * heap) :=
  match init with
  | [] => Ok (d_first, h)
  | x :: init' =>
      let! h1 := store d_first x h in
      copy_init init' (ptr_add d_first 1) h1
  end.

(** [std::move(first, last, d_first)]: each element of the source is
    move-assigned to its destination, lowest address first. *)
Fixpoint move_loop (n : nat) (first d_first : ptr) (h : heap)
  : result (ptr * heap) :=
  match n with
  | O => Ok (d_first, h)
  | S n' =>
      let! x := load first h in
      let! h1 := store d_first x h in
      let! h2 := store first (moved_from x) h1 in
      move_loop n' (ptr_add first 1) (ptr_add d_first 1) h2
  end.

Definition std_move (first last d_first : ptr) (h : heap)
  : result (ptr * heap) :=
  let! n := ptr_diff last first in
  if n <? 0 then Err undefined_behavior
  else move_loop (Z.to_nat n) first d_first h.

(** [std::copy_backward(first, last, d_last)]: both cursors are decremented,
    then the element is copy-assigned; highest address first. *)
Fixpoint copy_backward_loop (n : nat) (last d_last : ptr) (h : heap)
  : result (ptr * heap) :=
  match n with
  | O => Ok (d_last, h)
  | S n' =>
      let last1 := ptr_add last (-1) in
      let d_last1 := ptr_add d_last (-1) in
      let! x := load last1 h in
      let! h1 := store d_last1 x h in
      copy_backward_loop n' last1 d_last1 h1
  end.

Definition std_copy_backward (first last d_last : ptr) (h : heap)
  : result (ptr * heap) :=
  let! n := ptr_diff last first in
  if n <? 0 then Err undefined_behavior
  else copy_backward_loop (Z.to_nat n) last d_last h.

(** [std::move_backward(first, last, d_last)]: as [std::copy_backward],
    with a move assignment. *)
Fixpoint move_backward_loop (n : nat) (last d_last : ptr) (h : heap)
  : result (ptr * heap) :=
  match n with
  | O => Ok (d_last, h)
  | S n' =>
      let last1 := ptr_add last (-1) in
      let d_last1 := ptr_add d_last (-1) in
      let! x := load last1 h in
      let! h1 := store d_last1 x h in
      let! h2 := store last1 (moved_from x) h1 in
      move_backward_loop n' last1 d_last1 h2
  end.

Definition std_move_backward (first last d_last : ptr) (h : heap)
  : result (ptr * heap) :=
  let! n := ptr_diff last first in
  if n <? 0 then Err undefined_behavior
  else move_backward_loop (Z.to_nat n) last d_last h.

(** *** Constructors *)

(** [SimpleVector() noexcept = default]. *)
Definition default : t := Make ArrayPtr.default 0 0.

(** [explicit SimpleVector(size_t size)]. *)
Definition sized (size : Z) (h : heap) : result (t * heap) :=
  let! (items, h1) := ArrayPtr.sized dflt size h in
  Ok (Make items size size, h1).

(** [SimpleVector(size_t size, const Type& value)]. *)
Definition filled (size : Z) (value : T) (h : heap) : result (t * heap) :=
  let! (items, h1) := ArrayPtr.sized dflt size h in
  let v := Make items size size in
  if size =? 0 then Ok (v, h1)
  else
    let! h2 := std_fill (begin v) (end_ v) value h1 in
    Ok (v, h2).

(** [SimpleVector(std::initializer_list<Type> init)]. *)
Definition from_list (init : list T) (h : heap) : result (t * heap) :=
  let n := Z.of_nat (length init) in
  let! (items, h1) := ArrayPtr.sized dflt n h in
  let! (_, h2) := copy_init init (ArrayPtr.Get items) h1 in
  Ok (Make items n n, h2).

(** [SimpleVector(const SimpleVector& other)]. *)
Definition copy_construct (other : t) (h : heap) : result (t * heap) :=
  let! (items, h1) := ArrayPtr.sized dflt (GetCapacity other) h in
  let! (_, h2) := std_copy (begin other) (end_ other) (ArrayPtr.Get items) h1 in
  Ok (Make items (GetSize other) (GetCapacity other), h2).

(** *** Resize, Reserve, Clear *)

(** The loop of the second branch of [Resize]: [n] elements from [it] on
    are assigned [Type{}]. *)
Fixpoint reset_loop (n : nat) (it : ptr) (h : heap) : result heap :=
  match n with
  | O => Ok h
  | S n' =>
      let! h1 := store it dflt h in
      reset_loop n' (ptr_add it 1) h1
  end.

(** [void Resize(size_t new_size)]. *)
Definition Resize (new_size : Z) (v : t) (h : heap) : result (t * heap) :=
  if new_size >? capacity_ v then
    let new_capacity :=
      Z.max new_size
        (if capacity_ v =? 0 then 1 else size_t (capacity_ v * 2)) in
    let! (arr_tmp, h1) := ArrayPtr.sized dflt new_capacity h in
    let! (_, h2) := std_move (begin v) (end_ v) (ArrayPtr.Get arr_tmp) h1 in
    let s := ArrayPtr.swap (items_ref fst_ref) snd_ref (v, arr_tmp) in
    let v1 := set_capacity new_capacity (set_size new_size (fst s)) in
    let! h3 := ArrayPtr.destroy (snd s) h2 in
    Ok (v1, h3)
  else if new_size >? size_ v then
    let first := ptr_add (ArrayPtr.Get (items_ v)) (size_ v) in
    let last := ptr_add (ArrayPtr.Get (items_ v)) new_size in
    let! n := ptr_diff last first in
    let! h1 := reset_loop (Z.to_nat n) first h in
    Ok (set_size new_size v, h1)
  else Ok (set_size new_size v, h).

(** [void Reserve(size_t new_capacity)]. *)
Definition Reserve (new_capacity : Z) (v : t) (h : heap) : result (t * heap) :=
  if capacity_ v <? new_capacity then
    let! (arr_tmp, h1) := ArrayPtr.sized dflt new_capacity h in
    let! (_, h2) := std_move (begin v) (end_ v) (ArrayPtr.Get arr_tmp) h1 in
    let s := ArrayPtr.swap (items_ref fst_ref) snd_ref (v, arr_tmp) in
    let v1 := set_capacity new_capacity (fst s) in
    let! h3 := ArrayPtr.destroy (snd s) h2 in
    Ok (v1, h3)
  else Ok (v, h).

(** [SimpleVector(ReserveProxyObj rhs)]. *)
Definition reserved (rhs : ReserveProxyObj.t) (h : heap) : result (t * heap) :=
  Reserve (ReserveProxyObj.GetCapacity rhs) default h.

(** [void Clear() noexcept]. *)
Definition Clear (v : t) : t := set_size 0 v.

(** *** PushBack, PopBack *)

(** [void CheckCapacityAndResize()]. *)
Definition CheckCapacityAndResize (v : t) (h : heap) : result (t * heap) :=
  if size_ v >=? capacity_ v then Resize (size_t (size_ v + 1)) v h
  else Ok (set_size (size_t (size_ v + 1)) v, h).

(** [void PushBack(const Type& item)]; [item] is an object outside the
    buffer of the vector. *)
Definition PushBack (item : T) (v : t) (h : heap) : result (t * heap) :=
  let! (v1, h1) := CheckCapacityAndResize v h in
  let! h2 := store (ArrayPtr.index (items_ v1) (size_t (size_ v1 - 1))) item h1 in
  Ok (v1, h2).

(** [void PushBack(Type&& item)]: the element receives the value of [item],
    and the caller's object is left moved-from. *)
Definition PushBack_rv (item : T) (v : t) (h : heap) : result (t * heap) :=
  let! (v1, h1) := CheckCapacityAndResize v h in
  let! h2 := store (ArrayPtr.index (items_ v1) (size_t (size_ v1 - 1))) item h1 in
  Ok (v1, h2).

(** [void PopBack() noexcept]. *)
Definition PopBack (v : t) : result t :=
  let! _ := assert (negb (IsEmpty v)) in
  Ok (set_size (size_t (size_ v - 1)) v).

(** *** Insert, Erase *)

(** [Iterator Insert(ConstIterator pos, const Type& value)]. *)
Definition Insert (pos : ptr) (value : T) (v : t) (h : heap)
  : result (ptr * t * heap) :=
  let! c1 := ptr_le (cbegin v) pos in
  let! c2 := (if c1 then ptr_le pos (cend v) else Ok false) in
  let! _ := assert c2 in
  if decide (pos = cend v) then
    let! (v1, h1) := PushBack value v h in
    Ok (ptr_add (end_ v1) (-1), v1, h1)
  else
    let! d := ptr_diff pos (ArrayPtr.Get (items_ v)) in
    let curr_index := size_t d in
    let! (v1, h1) := CheckCapacityAndResize v h in
    let! (it, h2) :=
      std_copy_backward (ArrayPtr.index (items_ v1) curr_index)
        (ptr_add (end_ v1) (-1)) (end_ v1) h1 in
    let it := ptr_add it (-1) in
    let! h3 := store it value h2 in
    Ok (it, v1, h3).

(** [Iterator Insert(ConstIterator pos, Type&& value)]. *)
Definition Insert_rv (pos : ptr) (value : T) (v : t) (h : heap)
  : result (ptr * t * heap) :=
  if decide (pos = cend v) then
    let! (v1, h1) := PushBack_rv value v h in
    Ok (ptr_add (end_ v1) (-1), v1, h1)
  else
    let! d := ptr_diff pos (ArrayPtr.Get (items_ v)) in
    let curr_index := size_t d in
    let! (v1, h1) := CheckCapacityAndResize v h in
    let! (it, h2) :=
      std_move_backward (ArrayPtr.index (items_ v1) curr_index)
        (ptr_add (end_ v1) (-1)) (end_ v1) h1 in
    let it := ptr_add it (-1) in
    let! h3 := store it value h2 in
    Ok (it, v1, h3).

(** [Iterator Erase(ConstIterator pos)]. *)
Definition Erase (pos : ptr) (v : t) (h : heap) : result (ptr * t * heap) :=
  let! c1 := ptr_le (begin v) pos in
  let! c2 := (if c1 then ptr_lt pos (end_ v) else Ok false) in
  let! _ := assert c2 in
  let! d := ptr_diff pos (begin v) in
  let curr_index := size_t d in
  let! c := ptr_lt pos (ptr_add (end_ v) (-1)) in
  let! h1 :=
    (if c then
       let! (_, h1) :=
         std_move (ArrayPtr.index (items_ v) (size_t (curr_index + 1)))
           (end_ v) (ArrayPtr.index (items_ v) curr_index) h in
       Ok h1
     else Ok h) in
  let v1 := set_size (size_t (size_ v - 1)) v in
  Ok (ArrayPtr.index (items_ v1) curr_index, v1, h1).

(** *** Element access *)

(** [Type& operator[](size_t index) noexcept]: the address of the element. *)
Definition subscript (index : Z) (v : t) : result ptr :=
  let! _ := assert (index <? size_ v) in
  Ok (ArrayPtr.index (items_ v) index).

(** [Type& At(size_t index)]: the address of the element or the exception,
    together with the vector and the heap the call leaves, which are what a
    caller that catches the exception goes on with. *)
Definition At (index : Z) (v : t) (h : heap) : result ptr * (t * heap) :=
  if index >=? size_ v then (Err out_of_range, (v, h))
  else (Ok (ArrayPtr.index (items_ v) index), (v, h)).

(** *** Methods that take another vector *)

(** [~SimpleVector()]: destroys the member [items_]. *)
Definition destroy (v : t) (h : heap) : result heap :=
  ArrayPtr.destroy (items_ v) h.

(** [void swap(SimpleVector& other) noexcept]. *)
Definition swap {S : Type} (this other : Ref S t) (s : S) : S :=
  let s1 := ArrayPtr.swap (items_ref this) (items_ref other) s in
  let s2 := std_swap (size_ref this) (size_ref other) s1 in
  std_swap (capacity_ref this) (capacity_ref other) s2.

(** [SimpleVector(SimpleVector&& other)]: the members start from their
    default initialisers; the object under construction is new, so it cannot
    be [other]. *)
Definition move_construct {S : Type} (other : Ref S t) (s : S) (h : heap)
  : result (t * S * heap) :=
  let this : Ref (t * S) t := fst_ref in
  let other : Ref (t * S) t := sub snd_ref other in
  let! (s1, h1) :=
    ArrayPtr.move_assign (items_ref this) (items_ref other) (default, s) h in
  let (old_size, s2) := std_exchange (size_ref other) 0 s1 in
  let s3 := wr (size_ref this) old_size s2 in
  let (old_capacity, s4) := std_exchange (capacity_ref other) 0 s3 in
  let s5 := wr (capacity_ref this) old_capacity s4 in
  Ok (fst s5, snd s5, h1).

(** The vectors of a program are the cells of a list; the address of a
    vector is its position in the list. *)
Definition obj (i : nat) : Ref (list t) t := cell default i.

(** [SimpleVector& operator=(const SimpleVector& rhs)]; [tmp] is destroyed
    when the call returns. *)
Definition copy_assign (this rhs : nat) (s : list t) (h : heap)
  : result (list t * heap) :=
  let rhs_prt := rhs in
  if decide (this = rhs_prt) then Ok (s, h)
  else
    let! (tmp, h1) := copy_construct (rd (obj rhs) s) h in
    let s1 := swap (sub fst_ref (obj this)) snd_ref (s, tmp) in
    let! h2 := destroy (snd s1) h1 in
    Ok (fst s1, h2).

(** [SimpleVector& operator=(SimpleVector&& rhs)]. *)
Definition move_assign (this rhs : nat) (s : list t) (h : heap)
  : result (list t * heap) :=
  let rhs_prt := rhs in
  if decide (this = rhs_prt) then Ok (s, h)
  else
    let! (s1, h1) :=
      ArrayPtr.move_assign (items_ref (obj this)) (items_ref (obj rhs)) s h in
    let (old_size, s2) := std_exchange (size_ref (obj rhs)) 0 s1 in
    let s3 := wr (size_ref (obj this)) old_size s2 in
    let (old_capacity, s4) := std_exchange (capacity_ref (obj rhs)) 0 s3 in
    let s5 := wr (capacity_ref (obj this)) old_capacity s4 in
    Ok (s5, h1).

(** *** Programs

    A program state is the list of the vectors constructed so far and the
    heap; a step is one call of the public interface.  Arguments of type
    [size_t] are converted at the call. *)
Inductive call : Type :=
  | new_default
  | new_sized (size : Z)
  | new_filled (size : Z) (value : T)
  | new_from_list (init : list T)
  | new_copy (other : nat)
  | new_move (other : nat)
  | new_reserved (capacity_to_reserve : Z)
  | call_PushBack (this : nat) (item : T)
  | call_PushBack_rv (this : nat) (item : T)
  | call_PopBack (this : nat)
  | call_Insert (this : nat) (pos : ptr) (value : T)
  | call_Insert_rv (this : nat) (pos : ptr) (value : T)
  | call_Erase (this : nat) (pos : ptr)
  | call_Resize (this : nat) (new_size : Z)
  | call_Reserve (this : nat) (new_capacity : Z)
  | call_Clear (this : nat)
  | call_swap (this other : nat)
  | call_copy_assign (this rhs : nat)
  | call_move_assign (this rhs : nat).

(** A constructor call adds the new vector to the list. *)
Definition construct (m : heap -> result (t * heap)) (s : list t) (h : heap)
  : result (list t * heap) :=
  let! (v, h1) := m h in
  Ok (s ++ [v], h1).

(** A method call on the vector at address [this]. *)
Definition method (this : nat) (m : t -> heap -> result (t * heap))
    (s : list t) (h : heap) : result (list t * heap) :=
  match s !! this with
  | Some v =>
      let! (v1, h1) := m v h in
      Ok (<[this := v1]> s, h1)
  | None => Err undefined_behavior
  end.

Definition drop_iterator (m : t -> heap -> result (ptr * t * heap))
    (v : t) (h : heap) : result (t * heap) :=
  let! (r, h1) := m v h in
  Ok (snd r, h1).

Definition exec (c : call) (s : list t) (h : heap) : result (list t * heap) :=
  match c with
  | new_default => construct (fun h => Ok (default, h)) s h
  | new_sized n => construct (sized (size_t n)) s h
  | new_filled n x => construct (filled (size_t n) x) s h
  | new_from_list l => construct (from_list l) s h
  | new_copy other =>
      match s !! other with
      | Some v => construct (copy_construct v) s h
      | None => Err undefined_behavior
      end
  | new_move other =>
      match s !! other with
      | Some _ =>
          let! (r, h1) := move_construct (obj other) s h in
          Ok (snd r ++ [fst r], h1)
      | None => Err undefined_behavior
      end
  | new_reserved n =>
      construct (reserved (ReserveProxyObj.Make (size_t n))) s h
  | call_PushBack this x => method this (PushBack x) s h
  | call_PushBack_rv this x => method this (PushBack_rv x) s h
  | call_PopBack this =>
      method this (fun v h => let! v1 := PopBack v in Ok (v1, h)) s h
  | call_Insert this pos x => method this (drop_iterator (Insert pos x)) s h
  | call_Insert_rv this pos x =>
      method this (drop_iterator (Insert_rv pos x)) s h
  | call_Erase this pos => method this (drop_iterator (Erase pos)) s h
  | call_Resize this n => method this (Resize (size_t n)) s h
  | call_Reserve this n => method this (Reserve (size_t n)) s h
  | call_Clear this => method this (fun v h => Ok (Clear v, h)) s h
  | call_swap this other =>
      match s !! this, s !! other with
      | Some _, Some _ => Ok (swap (obj this) (obj other) s, h)
      | _, _ => Err undefined_behavior
      end
  | call_copy_assign this rhs =>
      match s !! this, s !! rhs with
      | Some _, Some _ => copy_assign this rhs s h
      | _, _ => Err undefined_behavior
      end
  | call_move_assign this rhs =>
      match s !! this, s !! rhs with
      | Some _, Some _ => move_assign this rhs s h
      | _, _ => Err undefined_behavior
      end
  end.

End Methods.
End SimpleVector.

(** ** What the properties are stated with *)

Section Specification.
Context {T : Type}.
Variable dflt : T.
Variable moved_from : T -> T.
Local Abbreviation heap := (list (option (list T))).

(** The array the vector owns: its allocated slots, live or not. *)
Definition buffer (h : heap) (v : SimpleVector.t) : list T :=
  match blk (ArrayPtr.raw_ptr_ (SimpleVector.items_ v)) with
  | Some b =>
      match h !! b with
      | Some (Some l) => l
      | _ => []
      end
  | None => []
  end.

(** The element sequence of the vector: the slots of index below [size_]. *)
Definition elems (h : heap) (v : SimpleVector.t) : list T :=
  take (Z.to_nat (SimpleVector.size_ v)) (buffer h v).

(** The representation invariant of one vector in a heap: [items_] is null
    and the capacity is 0, or [items_] is the address of a live array of
    [capacity_] elements; and [size_] does not exceed [capacity_]. *)
Definition vec_ok (h : heap) (v : SimpleVector.t) : Prop :=
  0 <= SimpleVector.size_ v <= SimpleVector.capacity_ v /\
  SimpleVector.capacity_ v <= max_array_len /\
  off (ArrayPtr.raw_ptr_ (SimpleVector.items_ v)) = 0 /\
  match blk (ArrayPtr.raw_ptr_ (SimpleVector.items_ v)) with
  | Some b =>
      0 < SimpleVector.capacity_ v /\
      exists l, h !! b = Some (Some l) /\
                Z.of_nat (length l) = SimpleVector.capacity_ v
  | None => SimpleVector.capacity_ v = 0
  end.

(** The two shapes of a vector that satisfies its invariant. *)
Inductive shape (h : heap) : SimpleVector.t -> Prop :=
  | shape_null :
      shape h (SimpleVector.Make (ArrayPtr.Make nullptr) 0 0)
  | shape_block (b : nat) (l : list T) (size : nat) :
      h !! b = Some (Some l) ->
      (size <= length l)%nat -> (0 < length l)%nat ->
      Z.of_nat (length l) <= max_array_len ->
      shape h (SimpleVector.Make (ArrayPtr.Make (Ptr (Some b) 0))
                 (Z.of_nat size) (Z.of_nat (length l))).

(** The growth policy in the words of the specification: the capacity a
    full vector of this size and capacity gets for one more element. *)
Definition grown (size capacity : Z) : Z :=
  Z.max (size + 1) (if capacity =? 0 then 1 else capacity * 2).

(** The capacity after [CheckCapacityAndResize]. *)
Definition next_capacity (v : SimpleVector.t) : Z :=
  if SimpleVector.size_ v <? SimpleVector.capacity_ v
  then SimpleVector.capacity_ v
  else grown (SimpleVector.size_ v) (SimpleVector.capacity_ v).

(** The capacity after [n] consecutive [PushBack] calls on a vector that
    starts empty with capacity 0: the least power of two that is at least
    [n], that is 1, 2, 4, 4, 8, 8, 8, 8, 16, ... for [n] = 1, 2, 3, ... *)
Definition capacity_of_pushes (n : Z) : Z :=
  if n =? 0 then 0 else 2 ^ Z.log2_up n.

(** Consecutive [PushBack] calls, one for each element of [xs]. *)
Fixpoint push_all (xs : list T) (v : SimpleVector.t) (h : heap)
  : result (SimpleVector.t * heap) :=
  match xs with
  | [] => Ok (v, h)
  | x :: xs' =>
      let! (v1, h1) := SimpleVector.PushBack dflt moved_from x v h in
      push_all xs' v1 h1
  end.

(** One step of a program: a call of the public interface that returns. *)
Definition step (s s' : list SimpleVector.t * heap) : Prop :=
  exists c, SimpleVector.exec dflt moved_from c (fst s) (snd s) = Ok s'.

(** The states a program can reach from the state with no vector and an
    empty heap. *)
Definition reachable (s : list SimpleVector.t * heap) : Prop :=
  rtc step ([], []) s.

(** The invariant the specification names. *)
Definition size_le_capacity (v : SimpleVector.t) : Prop :=
  SimpleVector.size_ v <= SimpleVector.capacity_ v.

(** The members of a vector hold values of [size_t], [size_] at most
    [capacity_]. *)
Definition fields_ok (v : SimpleVector.t) : Prop :=
  0 <= SimpleVector.size_ v <= SimpleVector.capacity_ v /\
  SimpleVector.capacity_ v < 2 ^ 64.

(** The call does not end in [std::out_of_range]. *)
Definition no_out_of_range {A : Type} (r : result A) : Prop :=
  r <> Err out_of_range.

(** The errors a caller can catch are the exceptions. *)
Definition catchable (e : error) : bool :=
  match e with
  | out_of_range | bad_alloc => true
  | assertion_failed | undefined_behavior => false
  end.

(** The layout of a heap: for each block, whether its array is allocated,
    and with how many elements. *)
Definition layout (h : heap) : list (option nat) :=
  fmap (M:=list) (fmap (M:=option) (length (A:=T))) h.

(** The block a vector owns, if any. *)
Definition owned (v : SimpleVector.t) : option nat :=
  blk (ArrayPtr.raw_ptr_ (SimpleVector.items_ v)).

(** The representation invariant of a program state: every vector
    satisfies its invariant, and no two vectors own the same array. *)
Definition prog_ok (s : list SimpleVector.t * heap) : Prop :=
  Forall (vec_ok (snd s)) (fst s) /\
  forall (i j : nat) vi vj (b : nat),
    fst s !! i = Some vi -> fst s !! j = Some vj ->
    owned vi = Some b -> owned vj = Some b -> i = j.

(** What a method of one vector may do to the heap: it leaves the vector
    valid, and either keeps the layout and the buffer of the vector, or
    moves the vector to a new array and deletes its old one. *)
Definition effect (h : heap) (v : SimpleVector.t)
    (h' : heap) (v' : SimpleVector.t) : Prop :=
  vec_ok h' v' /\
  ((layout h' = layout h /\ SimpleVector.items_ v' = SimpleVector.items_ v) \/
   (exists n : nat,
      SimpleVector.items_ v' = ArrayPtr.Make (Ptr (Some (length h)) 0) /\
      layout h'
      = match owned v with
        | Some b => <[b := None]> (layout h ++ [Some n])
        | None => layout h ++ [Some n]
        end)).

(** The last sentence of the specification of [At], read literally: no
    call of the interface other than [At] ends in an error that can be
    caught. *)
Definition only_At_throws : Prop :=
  forall (c : SimpleVector.call) (s : list SimpleVector.t) (h : heap)
         (e : error),
    SimpleVector.exec dflt moved_from c s h = Err e -> catchable e = false.

End Specification.

(** An element type for the examples: [int], with a move that resets its
    source, as a stand-in for an owning type. *)
Definition int_default : Z := 0.
Definition int_moved_from (x : Z) : Z := 0.

(** A heap with one array of four [int], and two vectors that own it: one
    full, one with room for one more element. *)
Definition example_heap : list (option (list Z)) := [Some [10; 20; 30; 40]].
Definition example_full : SimpleVector.t :=
  SimpleVector.Make (ArrayPtr.Make (Ptr (Some 0%nat) 0)) 4 4.
Definition example_vector : SimpleVector.t :=
  SimpleVector.Make (ArrayPtr.Make (Ptr (Some 0%nat) 0)) 3 4.

(** The state of a program after [SimpleVector<int> v; v.PushBack(7);]. *)
Definition example_state : list SimpleVector.t * list (option (list Z)) :=
  ([SimpleVector.Make (ArrayPtr.Make (Ptr (Some 0%nat) 0)) 1 1], [Some [7]]).

(** An owner of an array of three [int], alone in its program. *)
Definition example_owner : list ArrayPtr.t :=
  [ArrayPtr.Make (Ptr (Some 0%nat) 0)].
Definition example_owned : list (option (list Z)) := [Some [1; 2; 3]].

(** ** The free functions of simple_vector.h *)

(** [ReserveProxyObj Reserve(size_t capacity_to_reserve)]. *)
Definition Reserve (capacity_to_reserve : Z) : ReserveProxyObj.t :=
  ReserveProxyObj.Make capacity_to_reserve.

Section Comparison.
Context {T : Type}.
(** [operator==] and [operator<] of the element type. *)
Variable eqb : T -> T -> bool.
Variable ltb : T -> T -> bool.
Local Abbreviation heap := (list (option (list T))).

(** [std::equal(first1, last1, first2)], [n] being [last1 - first1]. *)
Fixpoint equal_loop (n : nat) (first1 first2 : ptr) (h : heap)
  : result bool :=
  match n with
  | O => Ok true
  | S n' =>
      let! x := load first1 h in
      let! y := load first2 h in
      if eqb x y then equal_loop n' (ptr_add first1 1) (ptr_add first2 1) h
      else Ok false
  end.

(** [std::equal(first1, last1, first2, last2)] on random-access iterators:
    two ranges of different lengths are unequal, and no element is compared
    then. *)
Definition std_equal (first1 last1 first2 last2 : ptr) (h : heap)
  : result bool :=
  let! d1 := ptr_diff last1 first1 in
  let! d2 := ptr_diff last2 first2 in
  if (d1 <? 0) || (d2 <? 0) then Err undefined_behavior
  else if d1 =? d2 then equal_loop (Z.to_nat d1) first1 first2 h
  else Ok false.

(** [std::lexicographical_compare(first1, last1, first2, last2)], [n1] and
    [n2] being the lengths of what is left of the two ranges: the loop runs
    while neither range is exhausted, and the result after it is
    [first1 == last1 && first2 != last2]. *)
Fixpoint lexicographical_compare_loop (n1 n2 : nat) (first1 first2 : ptr)
    (h : heap) : result bool :=
  match n1, n2 with
  | O, O => Ok false
  | O, S _ => Ok true
  | S _, O => Ok false
  | S n1', S n2' =>
      let! x := load first1 h in
      let! y := load first2 h in
      if ltb x y then Ok true
      else if ltb y x then Ok false
      else
        lexicographical_compare_loop n1' n2'
          (ptr_add first1 1) (ptr_add first2 1) h
  end.

Definition std_lexicographical_compare (first1 last1 first2 last2 : ptr)
    (h : heap) : result bool :=
  let! d1 := ptr_diff last1 first1 in
  let! d2 := ptr_diff last2 first2 in
  if (d1 <? 0) || (d2 <? 0) then Err undefined_behavior
  else
    lexicographical_compare_loop (Z.to_nat d1) (Z.to_nat d2) first1 first2 h.

(** [bool operator==(const SimpleVector&, const SimpleVector&)]. *)
Definition operator_eq (lhs rhs : SimpleVector.t) (h : heap) : result bool :=
  std_equal (SimpleVector.begin lhs) (SimpleVector.end_ lhs)
    (SimpleVector.begin rhs) (SimpleVector.end_ rhs) h.

(** [bool operator!=(const SimpleVector&, const SimpleVector&)]. *)
Definition operator_ne (lhs rhs : SimpleVector.t) (h : heap) : result bool :=
  let! r := operator_eq lhs rhs h in
  Ok (negb r).

(** [bool operator<(const SimpleVector&, const SimpleVector&)]. *)
Definition operator_lt (lhs rhs : SimpleVector.t) (h : heap) : result bool :=
  std_lexicographical_compare (SimpleVector.begin lhs) (SimpleVector.end_ lhs)
    (SimpleVector.begin rhs) (SimpleVector.end_ rhs) h.

(** [bool operator>(const SimpleVector&, const SimpleVector&)]. *)
Definition operator_gt (lhs rhs : SimpleVector.t) (h : heap) : result bool :=
  operator_lt rhs lhs h.

(** [bool operator<=(const SimpleVector&, const SimpleVector&)]. *)
Definition operator_le (lhs rhs : SimpleVector.t) (h : heap) : result bool :=
  let! r := operator_lt rhs lhs h in
  Ok (negb r).

(** [bool operator>=(const SimpleVector&, const SimpleVector&)]. *)
Definition operator_ge (lhs rhs : SimpleVector.t) (h : heap) : result bool :=
  let! r := operator_lt lhs rhs h in
  Ok (negb r).

(** The lexicographic order of two element sequences: the first position at
    which one element is less than the other decides, and a proper prefix
    is less than the whole. *)
Fixpoint lex (l1 l2 : list T) : bool :=
  match l1, l2 with
  | [], [] => false
  | [], _ :: _ => true
  | _ :: _, [] => false
  | x :: l1', y :: l2' =>
      if ltb x y then true
      else if ltb y x then false
      else lex l1' l2'
  end.

End Comparison.

(** ** What the properties of a whole program are stated with *)

Section Programs.
Context {T : Type}.
Local Abbreviation heap := (list (option (list T))).

(** The vectors of a program a call may modify: the object of a method
    call, both vectors of a swap, the source of a move. *)
Definition modifies (c : SimpleVector.call (T:=T)) : list nat :=
  match c with
  | SimpleVector.new_default | SimpleVector.new_sized _
  | SimpleVector.new_filled _ _ | SimpleVector.new_from_list _
  | SimpleVector.new_copy _ | SimpleVector.new_reserved _ => []
  | SimpleVector.new_move other => [other]
  | SimpleVector.call_PushBack this _ | SimpleVector.call_PushBack_rv this _
  | SimpleVector.call_PopBack this | SimpleVector.call_Insert this _ _
  | SimpleVector.call_Insert_rv this _ _ | SimpleVector.call_Erase this _
  | SimpleVector.call_Resize this _ | SimpleVector.call_Reserve this _
  | SimpleVector.call_Clear this | SimpleVector.call_copy_assign this _ =>
      [this]
  | SimpleVector.call_swap this other => [this; other]
  | SimpleVector.call_move_assign this rhs => [this; rhs]
  end.

(** What a method of the vector [v] leaves alone when it takes the heap [h]
    to [h']: every array that exists in [h] and is not the array of [v]. *)
Definition others_kept (h : heap) (v : SimpleVector.t) (h' : heap) : Prop :=
  forall blk : nat,
    (blk < length h)%nat -> owned v <> Some blk -> h' !! blk = h !! blk.

(** No array is leaked: every array of the heap that has not been deleted
    is owned by a vector of the program. *)
Definition no_leak (s : list SimpleVector.t * heap) : Prop :=
  forall (b n : nat),
    layout (snd s) !! b = Some (Some n) ->
    exists (i : nat) v, fst s !! i = Some v /\ owned v = Some b.

End Programs.

(** Two vectors of [int] in one program: [{1, 2}] with capacity 2 and [{7}]
    with capacity 3. *)
Definition example_pair : list SimpleVector.t * list (option (list Z)) :=
  ([SimpleVector.Make (ArrayPtr.Make (Ptr (Some 0%nat) 0)) 2 2;
    SimpleVector.Make (ArrayPtr.Make (Ptr (Some 1%nat) 0)) 1 3],
   [Some [1; 2]; Some [7; 8; 9]]).

(** Two owners of arrays of [int] in one program. *)
Definition example_owners : list ArrayPtr.t :=
  [ArrayPtr.Make (Ptr (Some 0%nat) 0); ArrayPtr.Make (Ptr (Some 1%nat) 0)].

(** * Properties *)

(** ** The heap and the loops *)

Section HeapFacts.
Context {T : Type}.
Variable dflt : T.
Variable moved_from : T -> T.
Local Abbreviation heap := (list (option (list T))).
Implicit Types (h : heap) (l : list T) (b k n : nat) (x : T).

Lemma ptr_add_next b k :
  ptr_add (Ptr (Some b) (Z.of_nat k)) 1 = Ptr (Some b) (Z.of_nat (S k)).
Proof. unfold ptr_add; simpl. f_equal. lia. Qed.

Lemma ptr_add_prev b k :
  ptr_add (Ptr (Some b) (Z.of_nat (S k))) (-1) = Ptr (Some b) (Z.of_nat k).
Proof. unfold ptr_add; simpl. f_equal. lia. Qed.

Lemma load_at h b l k x :
  h !! b = Some (Some l) -> l !! k = Some x ->
  load (Ptr (Some b) (Z.of_nat k)) h = Ok x.
Proof.
  intros Hb Hk. unfold load; simpl. rewrite Hb.
  destruct (Z.leb_spec 0 (Z.of_nat k)); [|lia].
  by rewrite Nat2Z.id, Hk.
Qed.

Lemma store_at h b l k x :
  h !! b = Some (Some l) -> (k < length l)%nat ->
  store (Ptr (Some b) (Z.of_nat k)) x h = Ok (<[b := Some (<[k := x]> l)]> h).
Proof.
  intros Hb Hk. unfold store; simpl. rewrite Hb.
  destruct (Z.leb_spec 0 (Z.of_nat k)); [|lia].
  destruct (Z.ltb_spec (Z.of_nat k) (Z.of_nat (length l))); [|lia].
  simpl. by rewrite Nat2Z.id.
Qed.

Lemma heap_lookup_insert h b (o o' : option (list T)) :
  h !! b = Some o -> <[b := o']> h !! b = Some o'.
Proof. intros Hb. apply list_lookup_insert_eq. by eapply lookup_lt_Some. Qed.

Lemma heap_insert_id h b (o : option (list T)) :
  h !! b = Some o -> <[b := o]> h = h.
Proof. apply list_insert_id. Qed.

(** [std::move] to the slot just below, inside one array: the [n] elements
    from slot [k + 1] on end up from slot [k] on. *)
Lemma move_loop_left b n : forall k l h,
  h !! b = Some (Some l) -> (S k + n <= length l)%nat ->
  exists l',
    SimpleVector.move_loop moved_from n
      (Ptr (Some b) (Z.of_nat (S k))) (Ptr (Some b) (Z.of_nat k)) h
    = Ok (Ptr (Some b) (Z.of_nat (k + n)), <[b := Some l']> h) /\
    length l' = length l /\
    take (k + n) l' = take k l ++ take n (drop (S k) l).
Proof.
  induction n as [|n IH]; intros k l h Hb Hlen.
  - exists l. simpl. rewrite Nat.add_0_r, app_nil_r.
    by rewrite (heap_insert_id _ _ _ Hb).
  - destruct (lookup_lt_is_Some_2 l (S k)) as [x Hx]; [lia|].
    simpl. rewrite (load_at _ _ _ _ _ Hb Hx). simpl.
    rewrite (store_at _ _ l) by (done || lia). simpl.
    set (l1 := <[k := x]> l).
    rewrite (store_at _ _ l1)
      by (by eapply heap_lookup_insert || (subst l1; rewrite length_insert; lia)).
    simpl. rewrite list_insert_insert_eq, !ptr_add_next.
    set (l2 := <[S k := moved_from x]> l1).
    destruct (IH (S k) l2 (<[b := Some l2]> h)) as (l' & Hrun & Hl' & Htake).
    { by eapply heap_lookup_insert. }
    { subst l2 l1. rewrite !length_insert. lia. }
    exists l'. rewrite Hrun, list_insert_insert_eq.
    replace (S k + n)%nat with (k + S n)%nat in * by lia.
    split; [done|]. split.
    { rewrite Hl'. subst l2 l1. by rewrite !length_insert. }
    rewrite Htake. subst l2 l1.
    rewrite take_insert_ge by lia.
    rewrite (take_S_r _ _ x) by (apply list_lookup_insert_eq; lia).
    rewrite take_insert_ge by lia.
    rewrite drop_insert_lt, drop_insert_lt by lia.
    rewrite (drop_S l x (S k)) by done.
    by rewrite <- app_assoc.
Qed.

(** [std::move] from one array to another, both from slot [k] on. *)
Lemma move_loop_across bs bd n : forall k ls ld h,
  bs <> bd ->
  h !! bs = Some (Some ls) -> h !! bd = Some (Some ld) ->
  (k + n <= length ls)%nat -> (k + n <= length ld)%nat ->
  exists ls' ld',
    SimpleVector.move_loop moved_from n
      (Ptr (Some bs) (Z.of_nat k)) (Ptr (Some bd) (Z.of_nat k)) h
    = Ok (Ptr (Some bd) (Z.of_nat (k + n)),
          <[bs := Some ls']> (<[bd := Some ld']> h)) /\
    length ls' = length ls /\ length ld' = length ld /\
    take (k + n) ld' = take k ld ++ take n (drop k ls) /\
    drop (k + n) ld' = drop (k + n) ld.
Proof.
  induction n as [|n IH]; intros k ls ld h Hne Hs Hd Hls Hld.
  - exists ls, ld. simpl. rewrite Nat.add_0_r, app_nil_r.
    rewrite (heap_insert_id _ _ _ Hd), (heap_insert_id _ _ _ Hs). done.
  - destruct (lookup_lt_is_Some_2 ls k) as [x Hx]; [lia|].
    simpl. rewrite (load_at _ _ _ _ _ Hs Hx). simpl.
    rewrite (store_at _ _ ld) by (done || lia). simpl.
    set (ld1 := <[k := x]> ld).
    rewrite (store_at _ _ ls)
      by (by rewrite ?list_lookup_insert_ne || lia).
    simpl. rewrite !ptr_add_next.
    set (ls1 := <[k := moved_from x]> ls).
    destruct (IH (S k) ls1 ld1 (<[bs := Some ls1]> (<[bd := Some ld1]> h)))
      as (ls' & ld' & Hrun & Hls' & Hld' & Htake & Hdrop); [done|..].
    { eapply heap_lookup_insert. by rewrite list_lookup_insert_ne. }
    { rewrite list_lookup_insert_ne by done. by eapply heap_lookup_insert. }
    { subst ls1. rewrite length_insert. lia. }
    { subst ld1. rewrite length_insert. lia. }
    exists ls', ld'. rewrite Hrun.
    replace (S k + n)%nat with (k + S n)%nat in * by lia.
    split.
    { do 2 f_equal.
      rewrite (list_insert_insert_ne _ bs bd) by done.
      rewrite list_insert_insert_eq.
      rewrite (list_insert_insert_ne _ bd bs) by done.
      by rewrite list_insert_insert_eq. }
    split; [by rewrite Hls'; subst ls1; rewrite length_insert|].
    split; [by rewrite Hld'; subst ld1; rewrite length_insert|].
    split.
    + rewrite Htake. subst ls1 ld1.
      rewrite (take_S_r _ _ x) by (apply list_lookup_insert_eq; lia).
      rewrite take_insert_ge by lia.
      rewrite drop_insert_lt by lia.
      rewrite (drop_S ls x k) by done.
      by rewrite <- app_assoc.
    + rewrite Hdrop. subst ld1. by rewrite drop_insert_lt by lia.
Qed.


(** [std::copy_backward] to the slot just above, inside one array: the [n]
    elements from slot [k] on end up from slot [k + 1] on, and the cursor
    returned is the address of slot [k + 1]. *)
Lemma copy_backward_loop_right b k n : forall l h,
  h !! b = Some (Some l) -> (S (k + n) < S (length l))%nat ->
  exists l',
    SimpleVector.copy_backward_loop n
      (Ptr (Some b) (Z.of_nat (k + n))) (Ptr (Some b) (Z.of_nat (S (k + n)))) h
    = Ok (Ptr (Some b) (Z.of_nat (S k)), <[b := Some l']> h) /\
    length l' = length l /\
    take k l' = take k l /\
    drop (S k) l' = take n (drop k l) ++ drop (S (k + n)) l.
Proof.
  induction n as [|n IH]; intros l h Hb Hlen.
  - exists l. simpl. rewrite Nat.add_0_r.
    by rewrite (heap_insert_id _ _ _ Hb).
  - replace (k + S n)%nat with (S (k + n)) in * by lia.
    destruct (lookup_lt_is_Some_2 l (k + n)) as [x Hx]; [lia|].
    simpl. rewrite !ptr_add_prev.
    rewrite (load_at _ _ _ _ _ Hb Hx). simpl.
    rewrite (store_at _ _ l) by (done || lia). simpl.
    set (l1 := <[S (k + n) := x]> l).
    destruct (IH l1 (<[b := Some l1]> h)) as (l' & Hrun & Hl' & Htake & Hdrop).
    { by eapply heap_lookup_insert. }
    { subst l1. rewrite length_insert. lia. }
    exists l'. rewrite Hrun, list_insert_insert_eq.
    split; [done|]. split.
    { rewrite Hl'. subst l1. by rewrite length_insert. }
    split.
    { rewrite Htake. subst l1. by rewrite take_insert_ge by lia. }
    rewrite Hdrop. subst l1.
    rewrite drop_insert_ge by lia. rewrite take_insert_ge by lia.
    rewrite (drop_S _ x (S (k + n))) by (apply list_lookup_insert_eq; lia).
    rewrite drop_insert_lt by lia.
    rewrite (take_S_r _ _ x) by (by rewrite lookup_drop).
    by rewrite <- app_assoc.
Qed.

(** [std::move_backward] to the slot just above, inside one array. *)
Lemma move_backward_loop_right b k n : forall l h,
  h !! b = Some (Some l) -> (S (k + n) < S (length l))%nat ->
  exists l',
    SimpleVector.move_backward_loop moved_from n
      (Ptr (Some b) (Z.of_nat (k + n))) (Ptr (Some b) (Z.of_nat (S (k + n)))) h
    = Ok (Ptr (Some b) (Z.of_nat (S k)), <[b := Some l']> h) /\
    length l' = length l /\
    take k l' = take k l /\
    drop (S k) l' = take n (drop k l) ++ drop (S (k + n)) l.
Proof.
  induction n as [|n IH]; intros l h Hb Hlen.
  - exists l. simpl. rewrite Nat.add_0_r.
    by rewrite (heap_insert_id _ _ _ Hb).
  - replace (k + S n)%nat with (S (k + n)) in * by lia.
    destruct (lookup_lt_is_Some_2 l (k + n)) as [x Hx]; [lia|].
    simpl. rewrite !ptr_add_prev.
    rewrite (load_at _ _ _ _ _ Hb Hx). simpl.
    rewrite (store_at _ _ l) by (done || lia). simpl.
    set (l1 := <[S (k + n) := x]> l).
    rewrite (store_at _ _ l1)
      by (by eapply heap_lookup_insert || (subst l1; rewrite length_insert; lia)).
    simpl. rewrite list_insert_insert_eq.
    set (l2 := <[(k + n)%nat := moved_from x]> l1).
    destruct (IH l2 (<[b := Some l2]> h)) as (l' & Hrun & Hl' & Htake & Hdrop).
    { by eapply heap_lookup_insert. }
    { subst l2 l1. rewrite !length_insert. lia. }
    exists l'. rewrite Hrun, list_insert_insert_eq.
    split; [done|]. split.
    { rewrite Hl'. subst l2 l1. by rewrite !length_insert. }
    split.
    { rewrite Htake. subst l2 l1. by rewrite !take_insert_ge by lia. }
    rewrite Hdrop. subst l2 l1.
    rewrite !drop_insert_ge by lia. rewrite !take_insert_ge by lia.
    rewrite (drop_S _ x (S (k + n))).
    2:{ rewrite list_lookup_insert_ne by lia.
        apply list_lookup_insert_eq; lia. }
    rewrite !drop_insert_lt by lia.
    rewrite (take_S_r _ _ x) by (by rewrite lookup_drop).
    by rewrite <- app_assoc.
Qed.

(** The loop of [Resize] that resets the [n] slots from slot [k] on. *)
Lemma reset_loop_spec b n : forall k l h,
  h !! b = Some (Some l) -> (k + n <= length l)%nat ->
  exists l',
    SimpleVector.reset_loop dflt n (Ptr (Some b) (Z.of_nat k)) h
    = Ok (<[b := Some l']> h) /\
    length l' = length l /\
    take (k + n) l' = take k l ++ replicate n dflt.
Proof.
  induction n as [|n IH]; intros k l h Hb Hlen.
  - exists l. simpl. rewrite Nat.add_0_r, app_nil_r.
    by rewrite (heap_insert_id _ _ _ Hb).
  - simpl. rewrite (store_at _ _ l) by (done || lia). simpl.
    rewrite ptr_add_next.
    set (l1 := <[k := dflt]> l).
    destruct (IH (S k) l1 (<[b := Some l1]> h)) as (l' & Hrun & Hl' & Htake).
    { by eapply heap_lookup_insert. }
    { subst l1. rewrite length_insert. lia. }
    exists l'. rewrite Hrun, list_insert_insert_eq.
    replace (S k + n)%nat with (k + S n)%nat in * by lia.
    split; [done|]. split.
    { rewrite Hl'. subst l1. by rewrite length_insert. }
    rewrite Htake. subst l1.
    rewrite (take_S_r _ _ dflt) by (apply list_lookup_insert_eq; lia).
    rewrite take_insert_ge by lia.
    by rewrite <- app_assoc.
Qed.


Lemma ptr_diff_same (bk : option nat) o1 o2 :
  ptr_diff (Ptr bk o1) (Ptr bk o2) = Ok (o1 - o2).
Proof. unfold ptr_diff; simpl. by rewrite decide_True. Qed.

Lemma ptr_le_same (bk : option nat) o1 o2 :
  ptr_le (Ptr bk o1) (Ptr bk o2) = Ok (o1 <=? o2).
Proof. unfold ptr_le; simpl. by rewrite decide_True. Qed.

Lemma ptr_lt_same (bk : option nat) o1 o2 :
  ptr_lt (Ptr bk o1) (Ptr bk o2) = Ok (o1 <? o2).
Proof. unfold ptr_lt; simpl. by rewrite decide_True. Qed.

(** [std::move] of an empty range. *)
Lemma std_move_empty (p d : ptr) h :
  SimpleVector.std_move moved_from p (ptr_add p 0) d h = Ok (d, h).
Proof.
  destruct p as [bk o]. unfold SimpleVector.std_move, ptr_add; simpl.
  rewrite ptr_diff_same; simpl.
  replace (o + 0 - o) with 0 by lia. done.
Qed.

(** [std::move] of the first [n] elements of an array to the start of
    another. *)
Lemma std_move_across bs bd n ls ld h :
  bs <> bd ->
  h !! bs = Some (Some ls) -> h !! bd = Some (Some ld) ->
  (n <= length ls)%nat -> (n <= length ld)%nat ->
  exists ls' ld',
    SimpleVector.std_move moved_from
      (Ptr (Some bs) 0) (ptr_add (Ptr (Some bs) 0) (Z.of_nat n))
      (Ptr (Some bd) 0) h
    = Ok (Ptr (Some bd) (Z.of_nat n),
          <[bs := Some ls']> (<[bd := Some ld']> h)) /\
    length ls' = length ls /\ length ld' = length ld /\
    take n ld' = take n ls /\
    drop n ld' = drop n ld.
Proof.
  intros Hne Hs Hd Hls Hld.
  destruct (move_loop_across bs bd n 0 ls ld h)
    as (ls' & ld' & Hrun & ? & ? & Htake & Hdrop); [done..|].
  exists ls', ld'. split; [|by rewrite ?take_0, ?drop_0 in *].
  unfold SimpleVector.std_move, ptr_add; simpl.
  rewrite ptr_diff_same; simpl.
  destruct (Z.ltb_spec (0 + Z.of_nat n - 0) 0); [lia|].
  replace (Z.to_nat (0 + Z.of_nat n - 0)) with n by lia.
  exact Hrun.
Qed.

(** [std::move] of the [n] elements from slot [k + 1] on to slot [k] on. *)
Lemma std_move_left b k n l h :
  h !! b = Some (Some l) -> (S k + n <= length l)%nat ->
  exists l',
    SimpleVector.std_move moved_from
      (Ptr (Some b) (Z.of_nat (S k))) (Ptr (Some b) (Z.of_nat (S k + n)))
      (Ptr (Some b) (Z.of_nat k)) h
    = Ok (Ptr (Some b) (Z.of_nat (k + n)), <[b := Some l']> h) /\
    length l' = length l /\
    take (k + n) l' = take k l ++ take n (drop (S k) l).
Proof.
  intros Hb Hlen.
  destruct (move_loop_left b n k l h) as (l' & Hrun & ? & ?); [done..|].
  exists l'. split; [|done].
  unfold SimpleVector.std_move. rewrite ptr_diff_same; simpl.
  destruct (Z.ltb_spec (Z.of_nat (S (k + n)) - Z.of_nat (S k)) 0); [lia|].
  replace (Z.to_nat (Z.of_nat (S (k + n)) - Z.of_nat (S k))) with n by lia.
  exact Hrun.
Qed.

(** [std::copy_backward] and [std::move_backward] of the [n] elements from
    slot [k] on to the slots up to slot [k + n]. *)
Lemma std_copy_backward_right b k n l h :
  h !! b = Some (Some l) -> (S (k + n) < S (length l))%nat ->
  exists l',
    SimpleVector.std_copy_backward
      (Ptr (Some b) (Z.of_nat k)) (Ptr (Some b) (Z.of_nat (k + n)))
      (Ptr (Some b) (Z.of_nat (S (k + n)))) h
    = Ok (Ptr (Some b) (Z.of_nat (S k)), <[b := Some l']> h) /\
    length l' = length l /\
    take k l' = take k l /\
    drop (S k) l' = take n (drop k l) ++ drop (S (k + n)) l.
Proof.
  intros Hb Hlen.
  destruct (copy_backward_loop_right b k n l h) as (l' & Hrun & ?); [done..|].
  exists l'. split; [|done].
  unfold SimpleVector.std_copy_backward. rewrite ptr_diff_same; simpl.
  destruct (Z.ltb_spec (Z.of_nat (k + n) - Z.of_nat k) 0); [lia|].
  replace (Z.to_nat (Z.of_nat (k + n) - Z.of_nat k)) with n by lia.
  exact Hrun.
Qed.

Lemma std_move_backward_right b k n l h :
  h !! b = Some (Some l) -> (S (k + n) < S (length l))%nat ->
  exists l',
    SimpleVector.std_move_backward moved_from
      (Ptr (Some b) (Z.of_nat k)) (Ptr (Some b) (Z.of_nat (k + n)))
      (Ptr (Some b) (Z.of_nat (S (k + n)))) h
    = Ok (Ptr (Some b) (Z.of_nat (S k)), <[b := Some l']> h) /\
    length l' = length l /\
    take k l' = take k l /\
    drop (S k) l' = take n (drop k l) ++ drop (S (k + n)) l.
Proof.
  intros Hb Hlen.
  destruct (move_backward_loop_right b k n l h) as (l' & Hrun & ?); [done..|].
  exists l'. split; [|done].
  unfold SimpleVector.std_move_backward. rewrite ptr_diff_same; simpl.
  destruct (Z.ltb_spec (Z.of_nat (k + n) - Z.of_nat k) 0); [lia|].
  replace (Z.to_nat (Z.of_nat (k + n) - Z.of_nat k)) with n by lia.
  exact Hrun.
Qed.

(** [delete[]] of a live array. *)
Lemma delete_array_live b l h :
  h !! b = Some (Some l) ->
  delete_array (Ptr (Some b) 0) h = Ok (<[b := None]> h).
Proof.
  intros Hb. unfold delete_array.
  rewrite decide_False by done. simpl. by rewrite Hb.
Qed.

End HeapFacts.

(** ** The methods of SimpleVector, one vector at a time *)

Section VectorFacts.
Context {T : Type}.
Variable dflt : T.
Variable moved_from : T -> T.
Local Abbreviation heap := (list (option (list T))).
Implicit Types (h : heap) (l : list T) (v : SimpleVector.t) (b : nat) (x : T).

Local Arguments size_t : simpl never.
Local Arguments SimpleVector.std_move : simpl never.
Local Arguments SimpleVector.std_copy_backward : simpl never.
Local Arguments SimpleVector.std_move_backward : simpl never.
Local Arguments delete_array : simpl never.
Local Arguments ptr_diff : simpl never.
Local Arguments ptr_le : simpl never.
Local Arguments ptr_lt : simpl never.

Lemma size_t_small z : 0 <= z < 2 ^ 64 -> size_t z = z.
Proof. intros. unfold size_t. by apply Z.mod_small. Qed.

Lemma max_array_len_val : max_array_len = 9223372036854775807.
Proof. reflexivity. Qed.

Lemma vec_ok_shape h v : vec_ok h v <-> shape h v.
Proof.
  split.
  - destruct v as [[[[b|] o]] size cap]; unfold vec_ok; simpl.
    + intros (Hs & Hc & -> & Hpos & l & Hb & Hl). subst cap.
      rewrite <- (Z2Nat.id size) by lia.
      apply shape_block; (done || lia).
    + intros (Hs & Hc & -> & ->). assert (size = 0) as -> by lia.
      apply shape_null.
  - intros [|b l size Hb Hs Hpos Hmax]; unfold vec_ok; simpl.
    + rewrite max_array_len_val. lia.
    + repeat split; try lia. by exists l.
Qed.

Lemma vec_ok_block h b l size cap :
  h !! b = Some (Some l) -> Z.of_nat (length l) = cap ->
  0 <= size <= cap -> 0 < cap <= max_array_len ->
  vec_ok h (SimpleVector.Make (ArrayPtr.Make (Ptr (Some b) 0)) size cap).
Proof.
  intros Hb Hl Hs Hc. unfold vec_ok; simpl.
  repeat split; try lia. by exists l.
Qed.

Lemma buffer_block h b l size cap :
  h !! b = Some (Some l) ->
  buffer h (SimpleVector.Make (ArrayPtr.Make (Ptr (Some b) 0)) size cap) = l.
Proof. intros Hb. unfold buffer; simpl. by rewrite Hb. Qed.

Lemma new_block_lookup h (o : option (list T)) : (h ++ [o]) !! length h = Some o.
Proof. by rewrite lookup_app_r, Nat.sub_diag by lia. Qed.

Lemma length_elems h v :
  vec_ok h v -> length (elems h v) = Z.to_nat (SimpleVector.size_ v).
Proof.
  intros Hok. apply vec_ok_shape in Hok.
  destruct Hok as [|b l size Hb Hs Hpos Hmax]; [done|].
  unfold elems, buffer; simpl. rewrite Hb, length_take. lia.
Qed.

(** The reallocation [Resize] and [Reserve] share: a new array of [nc]
    elements, the live elements moved to it, the old array deleted. *)
Lemma reallocate h v nc :
  vec_ok h v -> SimpleVector.size_ v <= nc -> 0 < nc <= max_array_len ->
  exists it h2 h' ld,
    ArrayPtr.sized dflt nc h
      = Ok (ArrayPtr.Make (Ptr (Some (length h)) 0),
            h ++ [Some (replicate (Z.to_nat nc) dflt)]) /\
    SimpleVector.std_move moved_from (SimpleVector.begin v)
      (SimpleVector.end_ v) (Ptr (Some (length h)) 0)
      (h ++ [Some (replicate (Z.to_nat nc) dflt)]) = Ok (it, h2) /\
    ArrayPtr.destroy (SimpleVector.items_ v) h2 = Ok h' /\
    h' !! length h = Some (Some ld) /\
    Z.of_nat (length ld) = nc /\
    ld = elems h v ++ replicate (Z.to_nat (nc - SimpleVector.size_ v)) dflt.
Proof.
  intros Hok Hn Hnc. apply vec_ok_shape in Hok.
  set (l0 := replicate (Z.to_nat nc) dflt).
  assert (Hnew : ArrayPtr.sized dflt nc h
            = Ok (ArrayPtr.Make (Ptr (Some (length h)) 0), h ++ [Some l0])).
  { unfold ArrayPtr.sized, new_array.
    destruct (Z.gtb_spec nc 0); [|lia].
    by destruct (Z.leb_spec nc max_array_len); [|lia]. }
  destruct Hok as [|b l size Hb Hs Hpos Hmax]; simpl in *.
  - unfold SimpleVector.begin, SimpleVector.end_; simpl.
    rewrite std_move_empty.
    eexists _, _, _, _. split; [exact Hnew|]. split; [reflexivity|].
    split; [reflexivity|]. split; [apply new_block_lookup|].
    subst l0. rewrite length_replicate. split; [lia|].
    unfold elems, buffer; simpl. by rewrite Z.sub_0_r.
  - assert (b < length h)%nat by (by eapply lookup_lt_Some).
    destruct (std_move_across moved_from b (length h) size l l0 (h ++ [Some l0]))
      as (ls' & ld' & Hrun & Hls' & Hld' & Htake & Hdrop).
    { lia. }
    { by rewrite lookup_app_l by done. }
    { apply new_block_lookup. }
    { lia. }
    { subst l0. rewrite length_replicate. lia. }
    unfold SimpleVector.begin, SimpleVector.end_; simpl.
    rewrite Hrun.
    eexists _, _, _, ld'. split; [exact Hnew|]. split; [reflexivity|].
    split.
    { unfold ArrayPtr.destroy; simpl. apply (delete_array_live _ ls').
      eapply heap_lookup_insert.
      rewrite list_lookup_insert_ne by lia.
      by rewrite lookup_app_l by done. }
    rewrite list_insert_insert_eq.
    split.
    { rewrite list_lookup_insert_ne by lia.
      eapply heap_lookup_insert, new_block_lookup. }
    split.
    { rewrite Hld'. subst l0. rewrite length_replicate. lia. }
    unfold elems, buffer; simpl. rewrite Hb.
    rewrite <- (take_drop size ld').
    rewrite Htake, Hdrop, Nat2Z.id. f_equal.
    subst l0. rewrite drop_replicate. f_equal. lia.
Qed.

(** [Resize] to more than the capacity. *)
Lemma Resize_grow h v n :
  vec_ok h v -> SimpleVector.capacity_ v < n ->
  let nc := Z.max n (if SimpleVector.capacity_ v =? 0 then 1
                     else SimpleVector.capacity_ v * 2) in
  nc <= max_array_len ->
  exists v' h',
    SimpleVector.Resize dflt moved_from n v h = Ok (v', h') /\
    vec_ok h' v' /\
    SimpleVector.size_ v' = n /\
    SimpleVector.capacity_ v' = nc /\
    buffer h' v' =
      elems h v ++ replicate (Z.to_nat (nc - SimpleVector.size_ v)) dflt.
Proof.
  intros Hok Hn nc Hnc.
  assert (Hge : n <= nc) by apply Z.le_max_l.
  destruct v as [[p] size cap]; simpl in *.
  assert (Hf : 0 <= size <= cap /\ cap <= max_array_len)
    by (destruct Hok as (? & ? & _); done).
  destruct (reallocate h _ nc Hok)
    as (it & h2 & h' & ld & Hnew & Hmove & Hdel & Hl & Hlen & Hld);
    [simpl; lia..|].
  unfold SimpleVector.Resize; simpl in *.
  destruct (Z.gtb_spec n cap); [|lia].
  rewrite size_t_small by (rewrite max_array_len_val in *; lia).
  fold nc. rewrite Hnew. simpl. rewrite Hmove. simpl. rewrite Hdel. simpl.
  eexists _, _. split; [reflexivity|].
  split; [|split; [done|split; [done|]]].
  - eapply vec_ok_block; [exact Hl|..]; simpl; lia.
  - unfold buffer; simpl. by rewrite Hl.
Qed.

(** [Resize] to more than the size, within the capacity. *)
Lemma Resize_expose h v n :
  vec_ok h v -> SimpleVector.size_ v < n <= SimpleVector.capacity_ v ->
  exists h',
    SimpleVector.Resize dflt moved_from n v h
      = Ok (SimpleVector.set_size n v, h') /\
    vec_ok h' (SimpleVector.set_size n v) /\
    elems h' (SimpleVector.set_size n v) =
      elems h v ++ replicate (Z.to_nat (n - SimpleVector.size_ v)) dflt.
Proof.
  intros Hok Hn. apply vec_ok_shape in Hok.
  destruct Hok as [|b l size Hb Hs Hpos Hmax]; simpl in *; [lia|].
  unfold SimpleVector.Resize; simpl.
  destruct (Z.gtb_spec n (Z.of_nat (length l))); [lia|].
  destruct (Z.gtb_spec n (Z.of_nat size)); [|lia].
  unfold ptr_add; simpl. rewrite ptr_diff_same, !Z.add_0_l. simpl.
  destruct (reset_loop_spec dflt b (Z.to_nat (n - Z.of_nat size)) size l h)
    as (l' & Hrun & Hl' & Htake); [done|lia|].
  rewrite Hrun. simpl.
  exists (<[b := Some l']> h). split; [done|].
  assert (Hl : <[b := Some l']> h !! b = Some (Some l'))
    by (by eapply heap_lookup_insert).
  split.
  - eapply vec_ok_block; [exact Hl|..]; simpl; lia.
  - unfold elems, buffer; simpl. rewrite Hl, Hb, Nat2Z.id.
    replace (Z.to_nat n) with (size + Z.to_nat (n - Z.of_nat size))%nat by lia.
    done.
Qed.

(** [Resize] to at most the size. *)
Lemma Resize_shrink h v n :
  vec_ok h v -> 0 <= n <= SimpleVector.size_ v ->
  SimpleVector.Resize dflt moved_from n v h
    = Ok (SimpleVector.set_size n v, h) /\
  vec_ok h (SimpleVector.set_size n v) /\
  elems h (SimpleVector.set_size n v) = take (Z.to_nat n) (elems h v).
Proof.
  intros Hok Hn.
  assert (Hf : 0 <= SimpleVector.size_ v <= SimpleVector.capacity_ v)
    by (by destruct Hok as (? & _)).
  split; [|split].
  - unfold SimpleVector.Resize.
    destruct (Z.gtb_spec n (SimpleVector.capacity_ v)); [lia|].
    by destruct (Z.gtb_spec n (SimpleVector.size_ v)); [lia|].
  - destruct Hok as (? & ? & ? & ?). unfold vec_ok; simpl.
    repeat split; (done || lia).
  - unfold elems; simpl. rewrite take_take. f_equal. lia.
Qed.

(** [Reserve] of more than the capacity. *)
Lemma Reserve_grow h v k :
  vec_ok h v -> SimpleVector.capacity_ v < k <= max_array_len ->
  exists v' h',
    SimpleVector.Reserve dflt moved_from k v h = Ok (v', h') /\
    vec_ok h' v' /\
    SimpleVector.size_ v' = SimpleVector.size_ v /\
    SimpleVector.capacity_ v' = k /\
    elems h' v' = elems h v.
Proof.
  intros Hok Hk.
  destruct v as [[p] size cap]; simpl in *.
  assert (Hf : 0 <= size <= cap) by (by destruct Hok as (? & _)).
  destruct (reallocate h _ k Hok) as (it & h2 & h' & ld & Hnew & Hmove & Hdel & Hl & Hlen & Hld);
    [simpl; lia..|].
  unfold SimpleVector.Reserve; simpl in *.
  destruct (Z.ltb_spec cap k); [|lia].
  rewrite Hnew. simpl. rewrite Hmove. simpl. rewrite Hdel. simpl.
  eexists _, _. split; [reflexivity|].
  split; [|split; [done|split; [done|]]].
  - eapply vec_ok_block; [exact Hl|..]; simpl; lia.
  - unfold elems at 1. unfold buffer; simpl. rewrite Hl, Hld.
    rewrite take_app_length'; [done|].
    by rewrite (length_elems _ _ Hok).
Qed.

(** [Reserve] of at most the capacity. *)
Lemma Reserve_noop h v k :
  k <= SimpleVector.capacity_ v ->
  SimpleVector.Reserve dflt moved_from k v h = Ok (v, h).
Proof.
  intros Hk. unfold SimpleVector.Reserve.
  by destruct (Z.ltb_spec (SimpleVector.capacity_ v) k); [lia|].
Qed.


Lemma vec_ok_fields h v :
  vec_ok h v ->
  0 <= SimpleVector.size_ v <= SimpleVector.capacity_ v /\
  SimpleVector.capacity_ v <= 9223372036854775807.
Proof. intros (? & ? & _). by rewrite <- max_array_len_val. Qed.

(** [CheckCapacityAndResize]: one more element, the live elements kept. *)
Lemma CheckCapacityAndResize_spec h v :
  vec_ok h v -> next_capacity v <= max_array_len ->
  exists v' h',
    SimpleVector.CheckCapacityAndResize dflt moved_from v h = Ok (v', h') /\
    vec_ok h' v' /\
    SimpleVector.size_ v' = SimpleVector.size_ v + 1 /\
    SimpleVector.capacity_ v' = next_capacity v /\
    take (Z.to_nat (SimpleVector.size_ v)) (buffer h' v') = elems h v /\
    (SimpleVector.size_ v < SimpleVector.capacity_ v ->
     v' = SimpleVector.set_size (SimpleVector.size_ v + 1) v /\ h' = h).
Proof.
  intros Hok Hcap. pose proof (vec_ok_fields _ _ Hok) as Hf.
  unfold SimpleVector.CheckCapacityAndResize, next_capacity in *.
  rewrite size_t_small by lia.
  destruct (Z.ltb_spec (SimpleVector.size_ v) (SimpleVector.capacity_ v)).
  - destruct (Z.geb_spec (SimpleVector.size_ v) (SimpleVector.capacity_ v));
      [lia|].
    eexists _, _. split; [reflexivity|].
    split; [|split; [done|split; [done|split; [done|done]]]].
    destruct Hok as (? & ? & ? & Hb). unfold vec_ok; simpl.
    repeat split; (done || lia).
  - destruct (Z.geb_spec (SimpleVector.size_ v) (SimpleVector.capacity_ v));
      [|lia].
    destruct (Resize_grow h v (SimpleVector.size_ v + 1) Hok)
      as (v' & h' & Hrun & Hok' & Hs' & Hc' & Hbuf); [lia|..].
    { exact Hcap. }
    exists v', h'. split; [done|]. split; [done|]. split; [done|].
    split; [|split; [|lia]].
    + by rewrite Hc'.
    + rewrite Hbuf. apply take_app_length'. by rewrite length_elems.
Qed.

(** The address of slot [i] of the vector. *)
Lemma index_block b (i : Z) :
  ArrayPtr.index (ArrayPtr.Make (Ptr (Some b) 0)) i = Ptr (Some b) i.
Proof. unfold ArrayPtr.index, ptr_add; simpl. by rewrite Z.add_0_l. Qed.

(** [PushBack]: the element sequence gets [x] at its end. *)
Lemma PushBack_spec h v x :
  vec_ok h v -> next_capacity v <= max_array_len ->
  exists v' h',
    SimpleVector.PushBack dflt moved_from x v h = Ok (v', h') /\
    vec_ok h' v' /\
    SimpleVector.size_ v' = SimpleVector.size_ v + 1 /\
    SimpleVector.capacity_ v' = next_capacity v /\
    elems h' v' = elems h v ++ [x] /\
    (SimpleVector.size_ v < SimpleVector.capacity_ v ->
     SimpleVector.items_ v' = SimpleVector.items_ v).
Proof.
  intros Hok Hcap. pose proof (vec_ok_fields _ _ Hok) as Hf.
  destruct (CheckCapacityAndResize_spec h v Hok Hcap)
    as (v1 & h1 & Hrun & Hok1 & Hs1 & Hc1 & Hbuf & Hsame).
  unfold SimpleVector.PushBack. rewrite Hrun. simpl.
  rewrite Hs1, size_t_small by lia.
  replace (SimpleVector.size_ v + 1 - 1) with (SimpleVector.size_ v) by lia.
  apply vec_ok_shape in Hok1.
  destruct Hok1 as [|b l size Hb Hs Hpos Hmax]; simpl in *; [lia|].
  assert (Hk : exists k : nat, SimpleVector.size_ v = Z.of_nat k)
    by (exists (Z.to_nat (SimpleVector.size_ v)); lia).
  destruct Hk as [k Hk]. rewrite Hk in *. rewrite Nat2Z.id in Hbuf.
  rewrite index_block, (store_at _ _ l) by (done || lia). simpl.
  eexists _, _. split; [reflexivity|].
  assert (Hl : <[b := Some (<[k := x]> l)]> h1 !! b = Some (Some (<[k := x]> l)))
    by (by eapply heap_lookup_insert).
  split; [|split; [simpl; lia|split; [done|split]]].
  - eapply vec_ok_block; [exact Hl|..]; rewrite ?length_insert; simpl; lia.
  - unfold elems at 1, buffer; simpl. rewrite Hl.
    replace (Z.to_nat (Z.of_nat size)) with (S k) by lia.
    rewrite (take_S_r _ _ x) by (apply list_lookup_insert_eq; lia).
    rewrite take_insert_ge by lia.
    f_equal. rewrite <- Hbuf. unfold buffer; simpl. by rewrite Hb.
  - intros Hlt. by destruct (Hsame Hlt) as [-> _].
Qed.


(** The array after the tail was shifted up by one slot and slot [i] was
    assigned: the live elements with [x] inserted at position [i]. *)
Lemma shifted_up_insert l1 l2 x (i n : nat) :
  (S (i + n) <= length l1)%nat ->
  length l2 = length l1 ->
  take i l2 = take i l1 ->
  drop (S i) l2 = take n (drop i l1) ++ drop (S (i + n)) l1 ->
  take (S (i + n)) (<[i := x]> l2)
  = take i (take (i + n) l1) ++ x :: drop i (take (i + n) l1).
Proof.
  intros Hlen Hl2 Htake Hdrop.
  rewrite <- (take_drop i (<[i := x]> l2)).
  rewrite (drop_S _ x i) by (apply list_lookup_insert_eq; lia).
  rewrite take_insert_ge, drop_insert_lt, Htake, Hdrop by lia.
  rewrite take_take, Nat.min_l by lia.
  rewrite <- take_drop_commute.
  replace (S (i + n)) with (i + S n)%nat by lia.
  rewrite take_app_add' by (rewrite length_take; lia).
  simpl. rewrite take_app_length'; [done|].
  rewrite length_take, length_drop. lia.
Qed.

(** The array after the tail was shifted down by one slot: the live
    elements without the one at position [i]. *)
Lemma shifted_down_erase l (i n : nat) :
  take i l ++ take n (drop (S i) l)
  = take i (take (S (i + n)) l) ++ drop (S i) (take (S (i + n)) l).
Proof.
  rewrite take_take, Nat.min_l by lia.
  by rewrite (take_drop_commute l n (S i)).
Qed.

Lemma Insert_middle h v x (i : nat) :
  vec_ok h v -> Z.of_nat i < SimpleVector.size_ v ->
  next_capacity v <= max_array_len ->
  exists v' h',
    SimpleVector.Insert dflt moved_from
      (ptr_add (SimpleVector.begin v) (Z.of_nat i)) x v h
      = Ok (ptr_add (SimpleVector.begin v') (Z.of_nat i), v', h') /\
    vec_ok h' v' /\
    SimpleVector.size_ v' = SimpleVector.size_ v + 1 /\
    SimpleVector.capacity_ v' = next_capacity v /\
    elems h' v' = take i (elems h v) ++ x :: drop i (elems h v) /\
    (SimpleVector.size_ v < SimpleVector.capacity_ v ->
     SimpleVector.items_ v' = SimpleVector.items_ v).
Proof.
  intros Hok Hi Hcap. pose proof (vec_ok_fields _ _ Hok) as Hf.
  destruct (CheckCapacityAndResize_spec h v Hok Hcap)
    as (v1 & h1 & Hrun & Hok1 & Hs1 & Hc1 & Hbuf & Hsame).
  apply vec_ok_shape in Hok.
  destruct Hok as [|b l size Hb Hs Hpos Hmax]; simpl in *; [lia|].
  apply vec_ok_shape in Hok1.
  destruct Hok1 as [|b1 l1 size1 Hb1 Hsz1 Hpos1 Hmax1]; simpl in *; [lia|].
  assert (size1 = S size) as -> by lia.
  unfold SimpleVector.Insert, SimpleVector.cbegin, SimpleVector.cend,
    SimpleVector.begin, SimpleVector.end_, ptr_add; simpl.
  rewrite !Z.add_0_l, !ptr_le_same. simpl.
  destruct (Z.leb_spec 0 (Z.of_nat i)); [|lia]. simpl.
  destruct (Z.leb_spec (Z.of_nat i) (Z.of_nat size)); [|lia]. simpl.
  rewrite decide_False by (intros [=]; lia).
  rewrite ptr_diff_same; simpl. rewrite Hrun; simpl.
  rewrite size_t_small by lia.
  rewrite index_block, Z.add_0_l, Z.sub_0_r.
  replace (Z.of_nat (S size) + -1) with (Z.of_nat (i + (size - i))) by lia.
  replace (Z.of_nat (S size)) with (Z.of_nat (S (i + (size - i)))) by lia.
  destruct (std_copy_backward_right b1 i (size - i) l1 h1)
    as (l2 & Hshift & Hl2 & Htake & Hdrop); [done|lia|].
  rewrite Hshift; simpl.
  replace (Z.of_nat (S i) + -1) with (Z.of_nat i) by lia.
  rewrite (store_at _ _ l2) by (by eapply heap_lookup_insert || lia).
  simpl. rewrite list_insert_insert_eq.
  exists (SimpleVector.Make (ArrayPtr.Make (Ptr (Some b1) 0))
            (Z.of_nat (S (i + (size - i)))) (Z.of_nat (length l1))),
    (<[b1 := Some (<[i := x]> l2)]> h1).
  split; [by rewrite Z.add_0_l|].
  assert (Hl : <[b1 := Some (<[i := x]> l2)]> h1 !! b1
               = Some (Some (<[i := x]> l2)))
    by (by eapply heap_lookup_insert).
  split; [|split; [simpl; lia|split; [done|split]]].
  - eapply vec_ok_block; [exact Hl|..]; rewrite ?length_insert; simpl; lia.
  - unfold elems at 1, buffer; simpl. rewrite Hl.
    replace (Z.to_nat (Z.of_nat (S (i + (size - i)))))
      with (S (i + (size - i))) by lia.
    rewrite (shifted_up_insert l1) by (done || lia).
    rewrite <- Hbuf. unfold buffer; simpl. rewrite Hb1, Nat2Z.id.
    by replace (i + (size - i))%nat with size by lia.
  - intros Hlt. destruct (Hsame Hlt) as [Heq _].
    unfold SimpleVector.set_size in Heq; simpl in *. congruence.
Qed.


Lemma Insert_rv_middle h v x (i : nat) :
  vec_ok h v -> Z.of_nat i < SimpleVector.size_ v ->
  next_capacity v <= max_array_len ->
  exists v' h',
    SimpleVector.Insert_rv dflt moved_from
      (ptr_add (SimpleVector.begin v) (Z.of_nat i)) x v h
      = Ok (ptr_add (SimpleVector.begin v') (Z.of_nat i), v', h') /\
    vec_ok h' v' /\
    SimpleVector.size_ v' = SimpleVector.size_ v + 1 /\
    SimpleVector.capacity_ v' = next_capacity v /\
    elems h' v' = take i (elems h v) ++ x :: drop i (elems h v) /\
    (SimpleVector.size_ v < SimpleVector.capacity_ v ->
     SimpleVector.items_ v' = SimpleVector.items_ v).
Proof.
  intros Hok Hi Hcap. pose proof (vec_ok_fields _ _ Hok) as Hf.
  destruct (CheckCapacityAndResize_spec h v Hok Hcap)
    as (v1 & h1 & Hrun & Hok1 & Hs1 & Hc1 & Hbuf & Hsame).
  apply vec_ok_shape in Hok.
  destruct Hok as [|b l size Hb Hs Hpos Hmax]; simpl in *; [lia|].
  apply vec_ok_shape in Hok1.
  destruct Hok1 as [|b1 l1 size1 Hb1 Hsz1 Hpos1 Hmax1]; simpl in *; [lia|].
  assert (size1 = S size) as -> by lia.
  unfold SimpleVector.Insert_rv, SimpleVector.cend,
    SimpleVector.begin, SimpleVector.end_, ptr_add; simpl.
  rewrite !Z.add_0_l.
  rewrite decide_False by (intros [=]; lia).
  rewrite ptr_diff_same; simpl. rewrite Hrun; simpl.
  rewrite size_t_small by lia.
  rewrite index_block, Z.add_0_l, Z.sub_0_r.
  replace (Z.of_nat (S size) + -1) with (Z.of_nat (i + (size - i))) by lia.
  replace (Z.of_nat (S size)) with (Z.of_nat (S (i + (size - i)))) by lia.
  destruct (std_move_backward_right moved_from b1 i (size - i) l1 h1)
    as (l2 & Hshift & Hl2 & Htake & Hdrop); [done|lia|].
  rewrite Hshift; simpl.
  replace (Z.of_nat (S i) + -1) with (Z.of_nat i) by lia.
  rewrite (store_at _ _ l2) by (by eapply heap_lookup_insert || lia).
  simpl. rewrite list_insert_insert_eq.
  exists (SimpleVector.Make (ArrayPtr.Make (Ptr (Some b1) 0))
            (Z.of_nat (S (i + (size - i)))) (Z.of_nat (length l1))),
    (<[b1 := Some (<[i := x]> l2)]> h1).
  split; [by rewrite Z.add_0_l|].
  assert (Hl : <[b1 := Some (<[i := x]> l2)]> h1 !! b1
               = Some (Some (<[i := x]> l2)))
    by (by eapply heap_lookup_insert).
  split; [|split; [simpl; lia|split; [done|split]]].
  - eapply vec_ok_block; [exact Hl|..]; rewrite ?length_insert; simpl; lia.
  - unfold elems at 1, buffer; simpl. rewrite Hl.
    replace (Z.to_nat (Z.of_nat (S (i + (size - i)))))
      with (S (i + (size - i))) by lia.
    rewrite (shifted_up_insert l1) by (done || lia).
    rewrite <- Hbuf. unfold buffer; simpl. rewrite Hb1, Nat2Z.id.
    by replace (i + (size - i))%nat with size by lia.
  - intros Hlt. destruct (Hsame Hlt) as [Heq _].
    unfold SimpleVector.set_size in Heq; simpl in *. congruence.
Qed.

(** [Insert] at [end()] is the [PushBack] of the same overload, followed by
    [end() - 1]. *)
Lemma Insert_end h v x :
  0 <= SimpleVector.size_ v ->
  SimpleVector.Insert dflt moved_from (SimpleVector.end_ v) x v h
  = let! (v1, h1) := SimpleVector.PushBack dflt moved_from x v h in
    Ok (ptr_add (SimpleVector.end_ v1) (-1), v1, h1).
Proof.
  intros Hs. destruct v as [[[bk o]] size cap]; simpl in *.
  unfold SimpleVector.Insert, SimpleVector.cbegin, SimpleVector.cend,
    SimpleVector.end_, ptr_add; simpl.
  rewrite !ptr_le_same; simpl.
  destruct (Z.leb_spec o (o + size)); [|lia]. simpl.
  rewrite Z.leb_refl; simpl.
  by rewrite decide_True.
Qed.

Lemma Insert_rv_end h v x :
  SimpleVector.Insert_rv dflt moved_from (SimpleVector.end_ v) x v h
  = let! (v1, h1) := SimpleVector.PushBack_rv dflt moved_from x v h in
    Ok (ptr_add (SimpleVector.end_ v1) (-1), v1, h1).
Proof.
  unfold SimpleVector.Insert_rv, SimpleVector.cend, SimpleVector.end_.
  by rewrite decide_True.
Qed.

(** Reading an element of the sequence through its address. *)
Lemma load_elem h v (j : nat) y :
  vec_ok h v -> elems h v !! j = Some y ->
  load (ptr_add (SimpleVector.begin v) (Z.of_nat j)) h = Ok y.
Proof.
  intros Hok. apply vec_ok_shape in Hok.
  destruct Hok as [|b l size Hb Hs Hpos Hmax].
  - unfold elems, buffer; simpl. by rewrite ?take_nil, ?lookup_nil.
  - unfold elems, buffer, SimpleVector.begin, ptr_add; simpl.
    rewrite Hb, Z.add_0_l. intros Hj.
    apply lookup_take_Some in Hj as [Hj _]. by eapply load_at.
Qed.

(** [Erase] of the element at position [i]. *)
Lemma Erase_spec h v (i : nat) :
  vec_ok h v -> Z.of_nat i < SimpleVector.size_ v ->
  exists h',
    SimpleVector.Erase moved_from
      (ptr_add (SimpleVector.begin v) (Z.of_nat i)) v h
      = Ok (ptr_add (SimpleVector.begin v) (Z.of_nat i),
            SimpleVector.set_size (SimpleVector.size_ v - 1) v, h') /\
    vec_ok h' (SimpleVector.set_size (SimpleVector.size_ v - 1) v) /\
    elems h' (SimpleVector.set_size (SimpleVector.size_ v - 1) v)
      = take i (elems h v) ++ drop (S i) (elems h v).
Proof.
  intros Hok Hi. apply vec_ok_shape in Hok.
  destruct Hok as [|b l size Hb Hs Hpos Hmax]; simpl in *; [lia|].
  rewrite max_array_len_val in Hmax.
  unfold SimpleVector.Erase, SimpleVector.begin, SimpleVector.end_, ptr_add;
    simpl.
  rewrite !Z.add_0_l, ptr_le_same; simpl.
  destruct (Z.leb_spec 0 (Z.of_nat i)); [|lia]. simpl.
  rewrite ptr_lt_same; simpl.
  destruct (Z.ltb_spec (Z.of_nat i) (Z.of_nat size)); [|lia]. simpl.
  rewrite ptr_diff_same, ptr_lt_same; simpl.
  rewrite Z.sub_0_r, (size_t_small (Z.of_nat i)) by lia.
  rewrite !size_t_small by lia.
  rewrite !index_block.
  destruct (Z.ltb_spec (Z.of_nat i) (Z.of_nat size + -1)).
  - destruct (std_move_left moved_from b i (size - S i) l h)
      as (l' & Hrun & Hl' & Htake); [done|lia|].
    replace (Z.of_nat (S i + (size - S i))) with (Z.of_nat size) in Hrun
      by lia.
    replace (Z.of_nat (S i)) with (Z.of_nat i + 1) in Hrun by lia.
    rewrite Hrun; simpl.
    exists (<[b := Some l']> h). split; [done|].
    assert (Hl : <[b := Some l']> h !! b = Some (Some l'))
      by (by eapply heap_lookup_insert).
    split.
    + eapply vec_ok_block; [exact Hl|..];
        simpl; rewrite ?max_array_len_val; lia.
    + unfold elems, buffer; simpl. rewrite Hl, Hb, Nat2Z.id.
      replace (Z.to_nat (Z.of_nat size - 1)) with (i + (size - S i))%nat
        by lia.
      rewrite Htake, shifted_down_erase.
      by replace (S (i + (size - S i))) with size by lia.
  - simpl. exists h. split; [done|]. split.
    + eapply vec_ok_block; [exact Hb|..];
        simpl; rewrite ?max_array_len_val; lia.
    + unfold elems, buffer; simpl. rewrite Hb, Nat2Z.id.
      assert (size = S i) as -> by lia.
      replace (Z.to_nat (Z.of_nat (S i) - 1)) with i by lia.
      rewrite take_take, Nat.min_l by lia.
      rewrite drop_ge by (rewrite length_take; lia).
      by rewrite app_nil_r.
Qed.


(** [Insert] at any position of the vector, [end()] included. *)
Lemma Insert_spec h v x (i : nat) :
  vec_ok h v -> Z.of_nat i <= SimpleVector.size_ v ->
  next_capacity v <= max_array_len ->
  exists v' h',
    SimpleVector.Insert dflt moved_from
      (ptr_add (SimpleVector.begin v) (Z.of_nat i)) x v h
      = Ok (ptr_add (SimpleVector.begin v') (Z.of_nat i), v', h') /\
    vec_ok h' v' /\
    SimpleVector.size_ v' = SimpleVector.size_ v + 1 /\
    SimpleVector.capacity_ v' = next_capacity v /\
    elems h' v' = take i (elems h v) ++ x :: drop i (elems h v) /\
    (SimpleVector.size_ v < SimpleVector.capacity_ v ->
     SimpleVector.items_ v' = SimpleVector.items_ v).
Proof.
  intros Hok Hi Hcap. pose proof (vec_ok_fields _ _ Hok) as Hf.
  destruct (decide (Z.of_nat i = SimpleVector.size_ v)) as [Heq|Hne].
  - destruct (PushBack_spec h v x Hok Hcap)
      as (v' & h' & Hrun & Hok' & Hs' & Hc' & He' & Hsame).
    assert (Hpos : ptr_add (SimpleVector.begin v) (Z.of_nat i)
                   = SimpleVector.end_ v) by (by rewrite Heq).
    assert (Hit : ptr_add (SimpleVector.end_ v') (-1)
                  = ptr_add (SimpleVector.begin v') (Z.of_nat i)).
    { unfold SimpleVector.end_, SimpleVector.begin, ptr_add; simpl.
      f_equal. lia. }
    exists v', h'. rewrite Hpos, Insert_end by lia.
    rewrite Hrun; simpl. rewrite Hit.
    split; [done|]. split; [done|]. split; [done|]. split; [done|].
    split; [|done].
    rewrite He'.
    assert (Hlen : length (elems h v) = i)
      by (rewrite length_elems by done; lia).
    by rewrite take_ge, drop_ge by lia.
  - apply Insert_middle; (done || lia).
Qed.

Lemma Insert_rv_spec h v x (i : nat) :
  vec_ok h v -> Z.of_nat i <= SimpleVector.size_ v ->
  next_capacity v <= max_array_len ->
  exists v' h',
    SimpleVector.Insert_rv dflt moved_from
      (ptr_add (SimpleVector.begin v) (Z.of_nat i)) x v h
      = Ok (ptr_add (SimpleVector.begin v') (Z.of_nat i), v', h') /\
    vec_ok h' v' /\
    SimpleVector.size_ v' = SimpleVector.size_ v + 1 /\
    SimpleVector.capacity_ v' = next_capacity v /\
    elems h' v' = take i (elems h v) ++ x :: drop i (elems h v) /\
    (SimpleVector.size_ v < SimpleVector.capacity_ v ->
     SimpleVector.items_ v' = SimpleVector.items_ v).
Proof.
  intros Hok Hi Hcap. pose proof (vec_ok_fields _ _ Hok) as Hf.
  destruct (decide (Z.of_nat i = SimpleVector.size_ v)) as [Heq|Hne].
  - destruct (PushBack_spec h v x Hok Hcap)
      as (v' & h' & Hrun & Hok' & Hs' & Hc' & He' & Hsame).
    assert (Hpos : ptr_add (SimpleVector.begin v) (Z.of_nat i)
                   = SimpleVector.end_ v) by (by rewrite Heq).
    assert (Hit : ptr_add (SimpleVector.end_ v') (-1)
                  = ptr_add (SimpleVector.begin v') (Z.of_nat i)).
    { unfold SimpleVector.end_, SimpleVector.begin, ptr_add; simpl.
      f_equal. lia. }
    exists v', h'. rewrite Hpos, Insert_rv_end by lia.
    change (SimpleVector.PushBack_rv dflt moved_from x v h)
      with (SimpleVector.PushBack dflt moved_from x v h).
    rewrite Hrun; simpl. rewrite Hit.
    split; [done|]. split; [done|]. split; [done|]. split; [done|].
    split; [|done].
    rewrite He'.
    assert (Hlen : length (elems h v) = i)
      by (rewrite length_elems by done; lia).
    by rewrite take_ge, drop_ge by lia.
  - apply Insert_rv_middle; (done || lia).
Qed.

(** Erasing what was just inserted gives back the sequence. *)
Lemma erase_inserted (e : list T) x (i : nat) :
  (i <= length e)%nat ->
  take i (take i e ++ x :: drop i e) ++ drop (S i) (take i e ++ x :: drop i e)
  = e.
Proof.
  intros Hi.
  rewrite take_app_length' by (rewrite length_take; lia).
  replace (S i) with (length (take i e) + 1)%nat by (rewrite length_take; lia).
  rewrite drop_app_add'; [|done]. simpl. rewrite drop_0.
  apply take_drop.
Qed.


(** *** The growth sequence *)

Lemma capacity_of_pushes_mono (a c : Z) :
  0 <= a <= c -> capacity_of_pushes a <= capacity_of_pushes c.
Proof.
  intros Hab. unfold capacity_of_pushes.
  destruct (Z.eqb_spec a 0), (Z.eqb_spec c 0);
    try lia; try (apply Z.pow_nonneg; lia).
  apply Z.pow_le_mono_r; [lia|]. apply Z.log2_up_le_mono. lia.
Qed.

Lemma next_capacity_of_pushes v :
  0 <= SimpleVector.size_ v ->
  SimpleVector.capacity_ v = capacity_of_pushes (SimpleVector.size_ v) ->
  next_capacity v = capacity_of_pushes (SimpleVector.size_ v + 1).
Proof.
  destruct v as [items size cap]; simpl. intros Hs ->.
  unfold next_capacity, grown, capacity_of_pushes; simpl.
  destruct (Z.eqb_spec (size + 1) 0); [lia|].
  destruct (Z.eqb_spec size 0) as [->|Hne]; [done|].
  pose proof (Z.log2_up_nonneg size) as Hk.
  set (k := Z.log2_up size) in *.
  assert (Hup : size <= 2 ^ k).
  { destruct (decide (size = 1)) as [->|]; [done|].
    apply Z.log2_up_spec. lia. }
  destruct (Z.ltb_spec size (2 ^ k)) as [Hlt|Hge].
  - f_equal. symmetry. apply Z.log2_up_unique.
    + destruct (decide (k = 0)) as [Hk0|]; [|lia].
      rewrite Hk0 in Hlt. simpl in Hlt. lia.
    + assert (1 < size) as H1.
      { destruct (decide (size = 1)) as [->|]; [|lia].
        subst k. vm_compute in Hlt. done. }
      pose proof (Z.log2_up_spec size H1) as [Hlo _]. fold k in Hlo. lia.
  - assert (size = 2 ^ k) as Hsz by lia.
    destruct (Z.eqb_spec (2 ^ k) 0); [lia|].
    rewrite Z.max_r by lia.
    replace (Z.log2_up (size + 1)) with (Z.succ k);
      [rewrite Z.pow_succ_r by done; lia|].
    symmetry. apply Z.log2_up_unique; [lia|].
    rewrite Z.pred_succ, Z.pow_succ_r by done. lia.
Qed.

Lemma push_all_spec xs : forall v h,
  vec_ok h v ->
  SimpleVector.capacity_ v = capacity_of_pushes (SimpleVector.size_ v) ->
  capacity_of_pushes (SimpleVector.size_ v + Z.of_nat (length xs))
    <= max_array_len ->
  exists v' h',
    push_all dflt moved_from xs v h = Ok (v', h') /\
    vec_ok h' v' /\
    SimpleVector.size_ v' = SimpleVector.size_ v + Z.of_nat (length xs) /\
    SimpleVector.capacity_ v'
      = capacity_of_pushes (SimpleVector.size_ v + Z.of_nat (length xs)) /\
    elems h' v' = elems h v ++ xs.
Proof.
  induction xs as [|x xs IH]; intros v h Hok Hcap Hmax.
  - exists v, h. simpl. rewrite Z.add_0_r, app_nil_r. done.
  - pose proof (vec_ok_fields _ _ Hok) as Hf.
    assert (Hnext : next_capacity v
                    = capacity_of_pushes (SimpleVector.size_ v + 1))
      by (apply next_capacity_of_pushes; (done || lia)).
    destruct (PushBack_spec h v x Hok)
      as (v1 & h1 & Hrun & Hok1 & Hs1 & Hc1 & He1 & _).
    { rewrite Hnext. etrans; [|exact Hmax].
      apply capacity_of_pushes_mono. simpl length. lia. }
    simpl length in *.
    destruct (IH v1 h1 Hok1) as (v' & h' & Hrun' & Hok' & Hs' & Hc' & He').
    { by rewrite Hc1, Hs1. }
    { rewrite Hs1.
      by replace (SimpleVector.size_ v + 1 + Z.of_nat (length xs))
        with (SimpleVector.size_ v + Z.of_nat (S (length xs))) by lia. }
    exists v', h'. simpl. rewrite Hrun; simpl.
    split; [done|]. split; [done|].
    rewrite Hs1 in *.
    replace (SimpleVector.size_ v + 1 + Z.of_nat (length xs))
      with (SimpleVector.size_ v + Z.of_nat (S (length xs))) in * by lia.
    split; [done|]. split; [done|].
    by rewrite He', He1, <- app_assoc.
Qed.

End VectorFacts.

(** ** Programs: several vectors *)

Lemma bind_Ok {A B : Type} (m : result A) (k : A -> result B) r :
  bind m k = Ok r -> exists a, m = Ok a /\ k a = Ok r.
Proof. destruct m as [a|e]; simpl; [by exists a|done]. Qed.

(** Inversion of a call that returned. *)
Ltac inv_ok :=
  repeat match goal with
    | H : bind _ _ = Ok _ |- _ =>
        let a := fresh "a" in
        let Ha := fresh "Hcall" in
        apply bind_Ok in H as (a & Ha & H); cbv beta in H
    | H : (let (_, _) := ?p in _) = Ok _ |- _ => destruct p
    | H : (if ?c then _ else _) = Ok _ |- _ =>
        let E := fresh "Hc" in destruct c eqn:E
    | H : Ok _ = Ok _ |- _ => injection H as H
    | H : Err _ = Ok _ |- _ => discriminate H
    | H : assert ?c = Ok _ |- _ =>
        let E := fresh "Hc" in
        destruct c eqn:E; [clear H|discriminate H]
    | H : (_, _) = (_, _) |- _ => injection H as H
    end.

(** Two lists of updates of the same list agree when they agree cell by
    cell. *)
Ltac by_cells i j :=
  apply list_eq; intros cell_index;
  destruct (decide (cell_index = i)), (decide (cell_index = j));
  simplify_eq;
  repeat first
    [ rewrite list_lookup_insert_eq by (rewrite ?length_insert; lia)
    | rewrite list_lookup_insert_ne by done ];
  try done.

Section ProgramFacts.
Context {T : Type}.
Variable dflt : T.
Variable moved_from : T -> T.
Local Abbreviation heap := (list (option (list T))).
Implicit Types (h : heap) (s : list SimpleVector.t) (v : SimpleVector.t).

Local Arguments size_t : simpl never.

(** Reading and writing the members of the vector at address [i]. *)
Lemma rd_obj s i v : s !! i = Some v -> rd (SimpleVector.obj i) s = v.
Proof. intros Hi. unfold SimpleVector.obj, cell; simpl. by rewrite Hi. Qed.

Lemma swap_objs s this other a b :
  s !! this = Some a -> s !! other = Some b ->
  SimpleVector.swap (SimpleVector.obj this) (SimpleVector.obj other) s
  = <[other := a]> (<[this := b]> s).
Proof.
  intros Ha Hb.
  pose proof (lookup_lt_Some _ _ _ Ha) as Hla.
  pose proof (lookup_lt_Some _ _ _ Hb) as Hlb.
  unfold SimpleVector.swap, ArrayPtr.swap, std_swap, SimpleVector.items_ref,
    SimpleVector.size_ref, SimpleVector.capacity_ref, ArrayPtr.raw_ptr_ref,
    field, SimpleVector.obj, cell; simpl.
  destruct a as [[pa] sa ca], b as [[pb] sb cb].
  destruct (decide (this = other)) as [->|Hne].
  - assert (Hab : Some (SimpleVector.Make (ArrayPtr.Make pa) sa ca)
                  = Some (SimpleVector.Make (ArrayPtr.Make pb) sb cb))
      by congruence.
    injection Hab as -> -> ->.
    repeat (rewrite ?Ha, ?list_insert_insert_eq, ?list_lookup_insert_eq
              by (rewrite ?length_insert; lia); simpl).
    done.
  - repeat (rewrite ?Ha, ?Hb, ?list_insert_insert_eq, ?list_lookup_insert_eq,
              ?list_lookup_insert_ne
              by (rewrite ?length_insert; (lia || done)); simpl).
    by_cells this other.
Qed.


Lemma move_assign_objs s h this rhs a b :
  this <> rhs -> s !! this = Some a -> s !! rhs = Some b ->
  SimpleVector.move_assign this rhs s h
  = let! h1 := ArrayPtr.destroy (SimpleVector.items_ a) h in
    Ok (<[rhs := SimpleVector.default]> (<[this := b]> s), h1).
Proof.
  intros Hne Ha Hb.
  pose proof (lookup_lt_Some _ _ _ Ha) as Hla.
  pose proof (lookup_lt_Some _ _ _ Hb) as Hlb.
  unfold SimpleVector.move_assign. rewrite decide_False by done.
  unfold ArrayPtr.move_assign, ArrayPtr.destroy, std_exchange,
    SimpleVector.items_ref, SimpleVector.size_ref, SimpleVector.capacity_ref,
    ArrayPtr.raw_ptr_ref, field, SimpleVector.obj, cell; simpl.
  rewrite Ha; simpl.
  destruct a as [[pa] sa ca], b as [[pb] sb cb]; simpl.
  assert (Hdel : (if decide (pa = nullptr) then Ok h else delete_array pa h)
                 = delete_array pa h).
  { unfold delete_array. by destruct (decide (pa = nullptr)). }
  rewrite Hdel. destruct (delete_array pa h) as [h1|e]; simpl; [|done].
  repeat (rewrite ?Ha, ?Hb, ?list_insert_insert_eq, ?list_lookup_insert_eq,
            ?list_lookup_insert_ne
            by (rewrite ?length_insert; (lia || done)); simpl).
  f_equal. f_equal. by_cells this rhs.
Qed.

Lemma move_construct_obj s h other b :
  s !! other = Some b ->
  SimpleVector.move_construct (SimpleVector.obj other) s h
  = Ok (b, <[other := SimpleVector.default]> s, h).
Proof.
  intros Hb. pose proof (lookup_lt_Some _ _ _ Hb) as Hlb.
  unfold SimpleVector.move_construct, ArrayPtr.move_assign, std_exchange, sub,
    SimpleVector.items_ref, SimpleVector.size_ref, SimpleVector.capacity_ref,
    ArrayPtr.raw_ptr_ref, field, SimpleVector.obj, cell, fst_ref, snd_ref;
    simpl.
  rewrite Hb; simpl. destruct b as [[pb] sb cb]; simpl.
  repeat (rewrite ?Hb, ?list_insert_insert_eq, ?list_lookup_insert_eq
            by (rewrite ?length_insert; lia); simpl).
  done.
Qed.

Lemma copy_assign_objs s h this rhs a b :
  this <> rhs -> s !! this = Some a -> s !! rhs = Some b ->
  SimpleVector.copy_assign dflt this rhs s h
  = let! (tmp, h1) := SimpleVector.copy_construct dflt b h in
    let! h2 := SimpleVector.destroy a h1 in
    Ok (<[this := tmp]> s, h2).
Proof.
  intros Hne Ha Hb.
  pose proof (lookup_lt_Some _ _ _ Ha) as Hla.
  unfold SimpleVector.copy_assign. rewrite decide_False by done.
  rewrite (rd_obj _ _ _ Hb).
  destruct (SimpleVector.copy_construct dflt b h) as [[tmp h1]|e]; simpl;
    [|done].
  unfold SimpleVector.swap, ArrayPtr.swap, std_swap, sub,
    SimpleVector.items_ref, SimpleVector.size_ref, SimpleVector.capacity_ref,
    ArrayPtr.raw_ptr_ref, field, SimpleVector.obj, cell, fst_ref, snd_ref,
    SimpleVector.destroy; simpl.
  destruct a as [[pa] sa ca], tmp as [[pt] st ct]; simpl.
  repeat (rewrite ?Ha, ?list_insert_insert_eq, ?list_lookup_insert_eq
            by (rewrite ?length_insert; lia); simpl).
  done.
Qed.


(** *** The members keep [size_ <= capacity_] *)

Lemma size_t_range z : 0 <= size_t z < 2 ^ 64.
Proof. unfold size_t. by apply Z.mod_pos_bound. Qed.

Lemma size_t_id z : 0 <= z < 2 ^ 64 -> size_t z = z.
Proof. intros. unfold size_t. by apply Z.mod_small. Qed.

Lemma fields_ok_default : fields_ok SimpleVector.default.
Proof. unfold fields_ok; simpl. lia. Qed.

Lemma Resize_fields n v h v' h' :
  0 <= n < 2 ^ 64 -> fields_ok v ->
  SimpleVector.Resize dflt moved_from n v h = Ok (v', h') -> fields_ok v'.
Proof.
  intros Hn (Hs & Hc) Hrun. unfold SimpleVector.Resize in Hrun.
  pose proof (size_t_range (SimpleVector.capacity_ v * 2)).
  inv_ok; subst; unfold fields_ok; simpl; repeat case_match; lia.
Qed.

Lemma Reserve_fields n v h v' h' :
  0 <= n < 2 ^ 64 -> fields_ok v ->
  SimpleVector.Reserve dflt moved_from n v h = Ok (v', h') -> fields_ok v'.
Proof.
  intros Hn (Hs & Hc) Hrun. unfold SimpleVector.Reserve in Hrun.
  inv_ok; subst; unfold fields_ok; simpl; lia.
Qed.

Lemma CheckCapacityAndResize_fields v h v' h' :
  fields_ok v ->
  SimpleVector.CheckCapacityAndResize dflt moved_from v h = Ok (v', h') ->
  fields_ok v'.
Proof.
  intros Hf Hrun. unfold SimpleVector.CheckCapacityAndResize in Hrun.
  destruct (SimpleVector.size_ v >=? SimpleVector.capacity_ v) eqn:Hc.
  - eapply Resize_fields; [apply size_t_range|done..].
  - inv_ok. subst. destruct Hf as (Hs & Hcap).
    unfold fields_ok; simpl. rewrite size_t_id; lia.
Qed.

Lemma PushBack_fields x v h v' h' :
  fields_ok v ->
  SimpleVector.PushBack dflt moved_from x v h = Ok (v', h') -> fields_ok v'.
Proof.
  intros Hf Hrun. unfold SimpleVector.PushBack in Hrun. inv_ok. subst.
  by eapply CheckCapacityAndResize_fields.
Qed.

Lemma PopBack_fields v v' :
  fields_ok v -> SimpleVector.PopBack v = Ok v' -> fields_ok v'.
Proof.
  intros (Hs & Hc) Hrun. unfold SimpleVector.PopBack, SimpleVector.IsEmpty in Hrun.
  inv_ok. subst. unfold fields_ok; simpl. rewrite size_t_id; lia.
Qed.

Lemma Insert_fields pos x v h it v' h' :
  fields_ok v ->
  SimpleVector.Insert dflt moved_from pos x v h = Ok (it, v', h') ->
  fields_ok v'.
Proof.
  intros Hf Hrun. unfold SimpleVector.Insert in Hrun.
  inv_ok; subst;
    match goal with
    | H : SimpleVector.PushBack _ _ _ _ _ = Ok _ |- _ =>
        exact (PushBack_fields _ _ _ _ _ Hf H)
    | H : SimpleVector.PushBack_rv _ _ _ _ _ = Ok _ |- _ =>
        exact (PushBack_fields _ _ _ _ _ Hf H)
    | H : SimpleVector.CheckCapacityAndResize _ _ _ _ = Ok _ |- _ =>
        exact (CheckCapacityAndResize_fields _ _ _ _ Hf H)
    end.
Qed.

Lemma Insert_rv_fields pos x v h it v' h' :
  fields_ok v ->
  SimpleVector.Insert_rv dflt moved_from pos x v h = Ok (it, v', h') ->
  fields_ok v'.
Proof.
  intros Hf Hrun. unfold SimpleVector.Insert_rv in Hrun.
  inv_ok; subst;
    match goal with
    | H : SimpleVector.PushBack _ _ _ _ _ = Ok _ |- _ =>
        exact (PushBack_fields _ _ _ _ _ Hf H)
    | H : SimpleVector.PushBack_rv _ _ _ _ _ = Ok _ |- _ =>
        exact (PushBack_fields _ _ _ _ _ Hf H)
    | H : SimpleVector.CheckCapacityAndResize _ _ _ _ = Ok _ |- _ =>
        exact (CheckCapacityAndResize_fields _ _ _ _ Hf H)
    end.
Qed.

Lemma Erase_fields pos v h it v' h' :
  fields_ok v ->
  SimpleVector.Erase moved_from pos v h = Ok (it, v', h') -> fields_ok v'.
Proof.
  intros (Hs & Hc) Hrun. unfold SimpleVector.Erase in Hrun.
  apply bind_Ok in Hrun as (c1 & Hc1 & Hrun).
  apply bind_Ok in Hrun as (c2 & Hc2 & Hrun).
  apply bind_Ok in Hrun as ([] & Hassert & Hrun).
  destruct c2; [|discriminate Hassert].
  destruct c1; [|discriminate Hc2].
  unfold ptr_le, ptr_lt, SimpleVector.begin, SimpleVector.end_, ptr_add
    in Hc1, Hc2; simpl in *.
  repeat case_decide; try discriminate.
  injection Hc1 as Hc1. injection Hc2 as Hc2.
  assert (0 < SimpleVector.size_ v) by lia.
  inv_ok; subst; unfold fields_ok; simpl; rewrite size_t_id; lia.
Qed.


Lemma fields_ok_same v w :
  SimpleVector.size_ v = SimpleVector.size_ w ->
  SimpleVector.capacity_ v = SimpleVector.capacity_ w ->
  fields_ok w -> fields_ok v.
Proof. unfold fields_ok. by intros -> ->. Qed.

Lemma sized_bound n h a h' :
  ArrayPtr.sized dflt n h = Ok (a, h') -> n <= max_array_len.
Proof.
  unfold ArrayPtr.sized, new_array. intros Hrun.
  destruct (Z.gtb_spec n 0); [|rewrite max_array_len_val; lia].
  destruct (Z.leb_spec n max_array_len); [done|discriminate].
Qed.

Lemma constructor_fields (c : SimpleVector.call) s h s' h' :
  match c with
  | SimpleVector.new_default | SimpleVector.new_sized _
  | SimpleVector.new_filled _ _ | SimpleVector.new_from_list _
  | SimpleVector.new_copy _ | SimpleVector.new_move _
  | SimpleVector.new_reserved _ => True
  | _ => False
  end ->
  Forall fields_ok s ->
  SimpleVector.exec dflt moved_from c s h = Ok (s', h') ->
  Forall fields_ok s'.
Proof.
  intros Hc Hs Hrun.
  destruct c; try done;
    unfold SimpleVector.exec, SimpleVector.construct in Hrun.
  - inv_ok. subst. apply Forall_app. split; [done|].
    apply Forall_singleton, fields_ok_default.
  - unfold SimpleVector.sized in Hrun. inv_ok. subst.
    apply Forall_app. split; [done|]. apply Forall_singleton.
    pose proof (size_t_range size). unfold fields_ok; simpl. lia.
  - unfold SimpleVector.filled in Hrun.
    pose proof (size_t_range size).
    inv_ok; subst; (apply Forall_app; split; [done|]);
      apply Forall_singleton; unfold fields_ok; simpl; lia.
  - unfold SimpleVector.from_list in Hrun. inv_ok. subst.
    match goal with H : ArrayPtr.sized _ _ _ = Ok _ |- _ =>
      apply sized_bound in H; rewrite max_array_len_val in H end.
    apply Forall_app. split; [done|]. apply Forall_singleton.
    unfold fields_ok; simpl. lia.
  - destruct (s !! other) as [v|] eqn:Hv; [|done].
    unfold SimpleVector.copy_construct, SimpleVector.GetSize,
      SimpleVector.GetCapacity in Hrun.
    inv_ok. subst. apply Forall_app. split; [done|]. apply Forall_singleton.
    eapply (fields_ok_same _ v); [done..|]. by eapply (Forall_lookup_1 _ s).
  - destruct (s !! other) as [v|] eqn:Hv; [|done].
    rewrite (move_construct_obj _ _ _ _ Hv) in Hrun. simpl in Hrun.
    inv_ok. subst. apply Forall_app. split.
    + apply Forall_insert; [done|apply fields_ok_default].
    + apply Forall_singleton. by eapply (Forall_lookup_1 _ s).
  - unfold SimpleVector.reserved in Hrun. inv_ok. subst.
    apply Forall_app. split; [done|]. apply Forall_singleton.
    eapply Reserve_fields; [|apply fields_ok_default|done].
    apply size_t_range.
Qed.

Lemma method_fields this (m : SimpleVector.t -> heap -> result (SimpleVector.t * heap))
    s h s' h' :
  (forall v h0 v' h0', fields_ok v -> m v h0 = Ok (v', h0') -> fields_ok v') ->
  Forall fields_ok s ->
  SimpleVector.method this m s h = Ok (s', h') ->
  Forall fields_ok s'.
Proof.
  intros Hm Hs Hrun. unfold SimpleVector.method in Hrun.
  destruct (s !! this) as [v|] eqn:Hv; [|done].
  inv_ok. subst. apply Forall_insert; [done|].
  eapply Hm; [|done]. by eapply (Forall_lookup_1 _ s).
Qed.

(** Every call that returns keeps the members of every vector in range. *)
Lemma exec_fields (c : SimpleVector.call) s h s' h' :
  Forall fields_ok s ->
  SimpleVector.exec dflt moved_from c s h = Ok (s', h') ->
  Forall fields_ok s'.
Proof.
  intros Hs Hrun.
  destruct c;
    try (by eapply constructor_fields; [|done|exact Hrun]);
    unfold SimpleVector.exec in Hrun.
  - eapply method_fields; [|done..]. intros ????. apply PushBack_fields.
  - eapply method_fields; [|done..]. intros ????. apply PushBack_fields.
  - eapply method_fields; [|done..]. intros v h0 v' h0' Hf Hm.
    cbv beta in Hm. inv_ok. subst.
    match goal with H : SimpleVector.PopBack _ = Ok _ |- _ =>
      exact (PopBack_fields _ _ Hf H) end.
  - eapply method_fields; [|done..]. intros v h0 v' h0' Hf Hm.
    unfold SimpleVector.drop_iterator in Hm. inv_ok.
    repeat match goal with p : (_ * _)%type |- _ => destruct p end.
    simpl in *. subst.
    match goal with H : SimpleVector.Insert _ _ _ _ _ _ = Ok _ |- _ =>
      exact (Insert_fields _ _ _ _ _ _ _ Hf H) end.
  - eapply method_fields; [|done..]. intros v h0 v' h0' Hf Hm.
    unfold SimpleVector.drop_iterator in Hm. inv_ok.
    repeat match goal with p : (_ * _)%type |- _ => destruct p end.
    simpl in *. subst.
    match goal with H : SimpleVector.Insert_rv _ _ _ _ _ _ = Ok _ |- _ =>
      exact (Insert_rv_fields _ _ _ _ _ _ _ Hf H) end.
  - eapply method_fields; [|done..]. intros v h0 v' h0' Hf Hm.
    unfold SimpleVector.drop_iterator in Hm. inv_ok.
    repeat match goal with p : (_ * _)%type |- _ => destruct p end.
    simpl in *. subst.
    match goal with H : SimpleVector.Erase _ _ _ _ = Ok _ |- _ =>
      exact (Erase_fields _ _ _ _ _ _ Hf H) end.
  - eapply method_fields; [|done..]. intros ????.
    apply Resize_fields, size_t_range.
  - eapply method_fields; [|done..]. intros ????.
    apply Reserve_fields, size_t_range.
  - eapply method_fields; [|done..]. intros v h0 v' h0' (Hsz & Hc) Hm.
    cbv beta in Hm. inv_ok. subst. unfold fields_ok; simpl. lia.
  - destruct (s !! this) as [a|] eqn:Ha; [|done].
    destruct (s !! other) as [b|] eqn:Hb; [|done].
    rewrite (swap_objs _ _ _ _ _ Ha Hb) in Hrun. inv_ok. subst.
    apply Forall_insert; [apply Forall_insert; [done|]|];
      by eapply (Forall_lookup_1 _ s).
  - destruct (s !! this) as [a|] eqn:Ha; [|done].
    destruct (s !! rhs) as [b|] eqn:Hb; [|done].
    destruct (decide (this = rhs)) as [->|Hne].
    + unfold SimpleVector.copy_assign in Hrun.
      rewrite decide_True in Hrun by done. by inv_ok; subst.
    + rewrite (copy_assign_objs _ _ _ _ _ _ Hne Ha Hb) in Hrun.
      unfold SimpleVector.copy_construct, SimpleVector.GetSize,
        SimpleVector.GetCapacity in Hrun.
      inv_ok. subst. apply Forall_insert; [done|].
      eapply (fields_ok_same _ b); [done..|]. by eapply (Forall_lookup_1 _ s).
  - destruct (s !! this) as [a|] eqn:Ha; [|done].
    destruct (s !! rhs) as [b|] eqn:Hb; [|done].
    destruct (decide (this = rhs)) as [->|Hne].
    + unfold SimpleVector.move_assign in Hrun.
      rewrite decide_True in Hrun by done. by inv_ok; subst.
    + rewrite (move_assign_objs _ _ _ _ _ _ Hne Ha Hb) in Hrun.
      inv_ok. subst.
      apply Forall_insert; [apply Forall_insert; [done|]|].
      * by eapply (Forall_lookup_1 _ s).
      * apply fields_ok_default.
Qed.

End ProgramFacts.

(** ** Which calls can throw [std::out_of_range] *)

Section Exceptions.
Context {T : Type}.
Variable dflt : T.
Variable moved_from : T -> T.
Local Abbreviation heap := (list (option (list T))).
Implicit Types (h : heap) (v : SimpleVector.t) (p q : ptr).

Lemma bind_noor {A B : Type} (m : result A) (k : A -> result B) :
  no_out_of_range m -> (forall a, no_out_of_range (k a)) ->
  no_out_of_range (bind m k).
Proof.
  destruct m as [a|e]; simpl; [intros _ Hk; apply Hk|].
  unfold no_out_of_range. intros Hm _ [= ->]. by apply Hm.
Qed.

Lemma Ok_noor {A : Type} (a : A) : no_out_of_range (Ok a).
Proof. done. Qed.

Ltac leaf := unfold no_out_of_range; repeat case_match; done.

Lemma load_noor p h : no_out_of_range (load p h).
Proof. unfold load. leaf. Qed.

Lemma store_noor p x h : no_out_of_range (store p x h).
Proof. unfold store. leaf. Qed.

Lemma new_array_noor n h : no_out_of_range (new_array dflt n h).
Proof. unfold new_array. leaf. Qed.

Lemma delete_array_noor p h : no_out_of_range (delete_array p h).
Proof. unfold delete_array. leaf. Qed.

Lemma ptr_diff_noor p q : no_out_of_range (ptr_diff p q).
Proof. unfold ptr_diff. leaf. Qed.

Lemma ptr_le_noor p q : no_out_of_range (ptr_le p q).
Proof. unfold ptr_le. leaf. Qed.

Lemma ptr_lt_noor p q : no_out_of_range (ptr_lt p q).
Proof. unfold ptr_lt. leaf. Qed.

Lemma assert_noor c : no_out_of_range (assert c).
Proof. unfold assert. leaf. Qed.

Create HintDb noor discriminated.
Local Hint Resolve Ok_noor load_noor store_noor new_array_noor
  delete_array_noor ptr_diff_noor ptr_le_noor ptr_lt_noor assert_noor : noor.

(** A call is followed through its sequence of sub-calls. *)
Ltac noor :=
  repeat first
    [ done
    | solve [eauto with noor]
    | apply bind_noor; [|intros]
    | match goal with
      | |- no_out_of_range (let (_, _) := ?p in _) => destruct p
      | |- no_out_of_range (if ?c then _ else _) => destruct c
      | |- no_out_of_range (match ?c with _ => _ end) => destruct c
      end ].

Lemma fill_loop_noor n : forall p x h,
  no_out_of_range (SimpleVector.fill_loop n p x h).
Proof. induction n; intros; simpl; noor. Qed.

Lemma copy_loop_noor n : forall p q h,
  no_out_of_range (SimpleVector.copy_loop n p q h).
Proof. induction n; intros; simpl; noor. Qed.

Lemma copy_init_noor init : forall p h,
  no_out_of_range (SimpleVector.copy_init init p h).
Proof. induction init; intros; simpl; noor. Qed.

Lemma move_loop_noor n : forall p q h,
  no_out_of_range (SimpleVector.move_loop moved_from n p q h).
Proof. induction n; intros; simpl; noor. Qed.

Lemma copy_backward_loop_noor n : forall p q h,
  no_out_of_range (SimpleVector.copy_backward_loop n p q h).
Proof. induction n; intros; simpl; noor. Qed.

Lemma move_backward_loop_noor n : forall p q h,
  no_out_of_range (SimpleVector.move_backward_loop moved_from n p q h).
Proof. induction n; intros; simpl; noor. Qed.

Lemma reset_loop_noor n : forall p h,
  no_out_of_range (SimpleVector.reset_loop dflt n p h).
Proof. induction n; intros; simpl; noor. Qed.

Local Hint Resolve fill_loop_noor copy_loop_noor copy_init_noor move_loop_noor
  copy_backward_loop_noor move_backward_loop_noor reset_loop_noor : noor.

Lemma sized_noor n h : no_out_of_range (ArrayPtr.sized dflt n h).
Proof. unfold ArrayPtr.sized. noor. Qed.

Lemma destroy_noor (a : ArrayPtr.t) h : no_out_of_range (ArrayPtr.destroy a h).
Proof. unfold ArrayPtr.destroy. noor. Qed.

Lemma ArrayPtr_move_assign_noor {S : Type} (this other : Ref S ArrayPtr.t)
    (s : S) h :
  no_out_of_range (ArrayPtr.move_assign this other s h).
Proof. unfold ArrayPtr.move_assign. simpl. noor. Qed.

Local Hint Resolve sized_noor destroy_noor ArrayPtr_move_assign_noor : noor.

Lemma std_move_noor p q d h :
  no_out_of_range (SimpleVector.std_move moved_from p q d h).
Proof. unfold SimpleVector.std_move. noor. Qed.

Lemma std_copy_noor p q d h : no_out_of_range (SimpleVector.std_copy p q d h).
Proof. unfold SimpleVector.std_copy. noor. Qed.

Lemma std_fill_noor p q x h : no_out_of_range (SimpleVector.std_fill p q x h).
Proof. unfold SimpleVector.std_fill. noor. Qed.

Lemma std_copy_backward_noor p q d h :
  no_out_of_range (SimpleVector.std_copy_backward p q d h).
Proof. unfold SimpleVector.std_copy_backward. noor. Qed.

Lemma std_move_backward_noor p q d h :
  no_out_of_range (SimpleVector.std_move_backward moved_from p q d h).
Proof. unfold SimpleVector.std_move_backward. noor. Qed.

Local Hint Resolve std_move_noor std_copy_noor std_fill_noor
  std_copy_backward_noor std_move_backward_noor : noor.

Lemma Resize_noor n v h :
  no_out_of_range (SimpleVector.Resize dflt moved_from n v h).
Proof. unfold SimpleVector.Resize. noor. Qed.

Lemma Reserve_noor n v h :
  no_out_of_range (SimpleVector.Reserve dflt moved_from n v h).
Proof. unfold SimpleVector.Reserve. noor. Qed.

Local Hint Resolve Resize_noor Reserve_noor : noor.

Lemma CheckCapacityAndResize_noor v h :
  no_out_of_range (SimpleVector.CheckCapacityAndResize dflt moved_from v h).
Proof. unfold SimpleVector.CheckCapacityAndResize. noor. Qed.

Local Hint Resolve CheckCapacityAndResize_noor : noor.

Lemma PushBack_noor x v h :
  no_out_of_range (SimpleVector.PushBack dflt moved_from x v h).
Proof. unfold SimpleVector.PushBack. noor. Qed.

Lemma PushBack_rv_noor x v h :
  no_out_of_range (SimpleVector.PushBack_rv dflt moved_from x v h).
Proof. unfold SimpleVector.PushBack_rv. noor. Qed.

Local Hint Resolve PushBack_noor PushBack_rv_noor : noor.

Lemma PopBack_noor v : no_out_of_range (SimpleVector.PopBack v).
Proof. unfold SimpleVector.PopBack. noor. Qed.

Lemma Insert_noor pos x v h :
  no_out_of_range (SimpleVector.Insert dflt moved_from pos x v h).
Proof. unfold SimpleVector.Insert. noor. Qed.

Lemma Insert_rv_noor pos x v h :
  no_out_of_range (SimpleVector.Insert_rv dflt moved_from pos x v h).
Proof. unfold SimpleVector.Insert_rv. noor. Qed.

Lemma Erase_noor pos v h :
  no_out_of_range (SimpleVector.Erase moved_from pos v h).
Proof. unfold SimpleVector.Erase. noor. Qed.

Lemma subscript_noor i v : no_out_of_range (SimpleVector.subscript i v).
Proof. unfold SimpleVector.subscript. noor. Qed.

Lemma sized_vector_noor n h : no_out_of_range (SimpleVector.sized dflt n h).
Proof. unfold SimpleVector.sized. noor. Qed.

Lemma filled_noor n x h : no_out_of_range (SimpleVector.filled dflt n x h).
Proof. unfold SimpleVector.filled. noor. Qed.

Lemma from_list_noor init h :
  no_out_of_range (SimpleVector.from_list dflt init h).
Proof. unfold SimpleVector.from_list. noor. Qed.

Lemma copy_construct_noor v h :
  no_out_of_range (SimpleVector.copy_construct dflt v h).
Proof. unfold SimpleVector.copy_construct. noor. Qed.

Lemma move_construct_noor {S : Type} (other : Ref S SimpleVector.t) (s : S) h :
  no_out_of_range (SimpleVector.move_construct other s h).
Proof. unfold SimpleVector.move_construct. noor. Qed.

Lemma reserved_noor r h : no_out_of_range (SimpleVector.reserved dflt moved_from r h).
Proof. unfold SimpleVector.reserved. noor. Qed.

Local Hint Resolve PopBack_noor Insert_noor Insert_rv_noor Erase_noor
  sized_vector_noor filled_noor from_list_noor copy_construct_noor
  move_construct_noor reserved_noor : noor.

Lemma copy_assign_noor this rhs s h :
  no_out_of_range (SimpleVector.copy_assign dflt this rhs s h).
Proof. unfold SimpleVector.copy_assign, SimpleVector.destroy. noor. Qed.

Lemma move_assign_noor this rhs s h :
  no_out_of_range (SimpleVector.move_assign (T:=T) this rhs s h).
Proof. unfold SimpleVector.move_assign. simpl. noor. Qed.

Local Hint Resolve copy_assign_noor move_assign_noor : noor.

(** No call of the interface other than [At] ends in [std::out_of_range]. *)
Lemma exec_noor (c : SimpleVector.call) s h :
  no_out_of_range (SimpleVector.exec dflt moved_from c s h).
Proof.
  destruct c; unfold SimpleVector.exec, SimpleVector.construct,
    SimpleVector.method, SimpleVector.drop_iterator; noor.
Qed.

End Exceptions.

(** ** The representation invariant of a program *)

Section Ownership.
Context {T : Type}.
Variable dflt : T.
Variable moved_from : T -> T.
Local Abbreviation heap := (list (option (list T))).
Implicit Types (h : heap) (s : list SimpleVector.t) (v w : SimpleVector.t)
  (p q : ptr).

Local Arguments size_t : simpl never.

Lemma layout_length h : length (layout h) = length h.
Proof. unfold layout. apply length_fmap. Qed.

Lemma layout_lookup h (b : nat) :
  layout h !! b = fmap (M:=option) (fmap (M:=option) (length (A:=T))) (h !! b).
Proof. unfold layout. apply list_lookup_fmap. Qed.

Lemma layout_live h (b n : nat) :
  layout h !! b = Some (Some n)
  <-> exists l, h !! b = Some (Some l) /\ length l = n.
Proof.
  rewrite layout_lookup. split.
  - destruct (h !! b) as [[l|]|]; simpl; intros [= <-]. by exists l.
  - intros (l & -> & <-). done.
Qed.

(** The invariant of a vector depends on the heap through the layout of
    the block the vector owns only. *)
Lemma vec_ok_frame h h' v :
  vec_ok h v ->
  (forall b : nat, owned v = Some b -> layout h' !! b = layout h !! b) ->
  vec_ok h' v.
Proof.
  unfold vec_ok, owned. destruct v as [[[[b|] o]] size cap]; simpl;
    intros (Hs & Hc & Ho & Hb) Hsame; [|done].
  destruct Hb as (Hpos & l & Hl & Hlen).
  split; [done|]. split; [done|]. split; [done|]. split; [done|].
  assert (Hlay : layout h !! b = Some (Some (length l)))
    by (apply layout_live; by exists l).
  rewrite <- (Hsame b eq_refl) in Hlay.
  apply layout_live in Hlay as (l' & Hl' & Hlen').
  exists l'. split; [done|]. lia.
Qed.

Lemma vec_ok_owned_live h v (b : nat) :
  vec_ok h v -> owned v = Some b -> (b < length h)%nat.
Proof.
  unfold vec_ok, owned. destruct v as [[[bk o]] size cap]; simpl.
  intros (_ & _ & _ & Hb) ->.
  destruct Hb as (_ & l & Hl & _). by eapply lookup_lt_Some.
Qed.

(** Assignments to elements keep the layout. *)
Lemma store_layout p x h h' : store p x h = Ok h' -> layout h' = layout h.
Proof.
  unfold store. intros Hrun.
  destruct (blk p) as [b|]; [|done].
  destruct (h !! b) as [[l|]|] eqn:Hb; try done.
  destruct (_ && _); [|done]. injection Hrun as <-.
  unfold layout. rewrite list_fmap_insert. simpl.
  apply list_insert_id. rewrite list_lookup_fmap, Hb. simpl.
  by rewrite length_insert.
Qed.

Lemma fill_loop_layout n : forall p x h h',
  SimpleVector.fill_loop n p x h = Ok h' -> layout h' = layout h.
Proof.
  induction n as [|n IH]; intros p x h h' Hrun; simpl in Hrun; inv_ok.
  - by subst.
  - erewrite IH by done. by eapply store_layout.
Qed.

Lemma reset_loop_layout n : forall p h h',
  SimpleVector.reset_loop dflt n p h = Ok h' -> layout h' = layout h.
Proof.
  induction n as [|n IH]; intros p h h' Hrun; simpl in Hrun; inv_ok.
  - by subst.
  - erewrite IH by done. by eapply store_layout.
Qed.

Lemma copy_init_layout init : forall p h q h',
  SimpleVector.copy_init init p h = Ok (q, h') -> layout h' = layout h.
Proof.
  induction init as [|x init IH]; intros p h q h' Hrun; simpl in Hrun; inv_ok.
  - by subst.
  - erewrite IH by done. by eapply store_layout.
Qed.

Lemma copy_loop_layout n : forall p d h q h',
  SimpleVector.copy_loop n p d h = Ok (q, h') -> layout h' = layout h.
Proof.
  induction n as [|n IH]; intros p d h q h' Hrun; simpl in Hrun; inv_ok.
  - by subst.
  - erewrite IH by done. by eapply store_layout.
Qed.

Lemma move_loop_layout n : forall p d h q h',
  SimpleVector.move_loop moved_from n p d h = Ok (q, h') ->
  layout h' = layout h.
Proof.
  induction n as [|n IH]; intros p d h q h' Hrun; simpl in Hrun; inv_ok.
  - by subst.
  - erewrite IH by done. erewrite store_layout by done. by eapply store_layout.
Qed.

Lemma copy_backward_loop_layout n : forall p d h q h',
  SimpleVector.copy_backward_loop n p d h = Ok (q, h') -> layout h' = layout h.
Proof.
  induction n as [|n IH]; intros p d h q h' Hrun; simpl in Hrun; inv_ok.
  - by subst.
  - erewrite IH by done. by eapply store_layout.
Qed.

Lemma move_backward_loop_layout n : forall p d h q h',
  SimpleVector.move_backward_loop moved_from n p d h = Ok (q, h') ->
  layout h' = layout h.
Proof.
  induction n as [|n IH]; intros p d h q h' Hrun; simpl in Hrun; inv_ok.
  - by subst.
  - erewrite IH by done. erewrite store_layout by done. by eapply store_layout.
Qed.

Lemma std_fill_layout p q x h h' :
  SimpleVector.std_fill p q x h = Ok h' -> layout h' = layout h.
Proof.
  unfold SimpleVector.std_fill. intros Hrun. inv_ok.
  by eapply fill_loop_layout.
Qed.

Lemma std_copy_layout p q d h r h' :
  SimpleVector.std_copy p q d h = Ok (r, h') -> layout h' = layout h.
Proof.
  unfold SimpleVector.std_copy. intros Hrun. inv_ok.
  by eapply copy_loop_layout.
Qed.

Lemma std_move_layout p q d h r h' :
  SimpleVector.std_move moved_from p q d h = Ok (r, h') ->
  layout h' = layout h.
Proof.
  unfold SimpleVector.std_move. intros Hrun. inv_ok.
  by eapply move_loop_layout.
Qed.

Lemma std_copy_backward_layout p q d h r h' :
  SimpleVector.std_copy_backward p q d h = Ok (r, h') -> layout h' = layout h.
Proof.
  unfold SimpleVector.std_copy_backward. intros Hrun. inv_ok.
  by eapply copy_backward_loop_layout.
Qed.

Lemma std_move_backward_layout p q d h r h' :
  SimpleVector.std_move_backward moved_from p q d h = Ok (r, h') ->
  layout h' = layout h.
Proof.
  unfold SimpleVector.std_move_backward. intros Hrun. inv_ok.
  by eapply move_backward_loop_layout.
Qed.


(** *** What each method does to the layout *)

Lemma sized_inv n h a h1 :
  ArrayPtr.sized dflt n h = Ok (a, h1) ->
  (n <= 0 /\ a = ArrayPtr.default /\ h1 = h) \/
  (0 < n <= max_array_len /\
   a = ArrayPtr.Make (Ptr (Some (length h)) 0) /\
   h1 = h ++ [Some (replicate (Z.to_nat n) dflt)]).
Proof.
  unfold ArrayPtr.sized, new_array. intros Hrun.
  destruct (Z.gtb_spec n 0).
  - destruct (Z.leb_spec n max_array_len); [|done].
    simpl in Hrun. injection Hrun as <- <-. right. by repeat split.
  - injection Hrun as <- <-. left. by repeat split.
Qed.

Lemma destroy_inv (a : ArrayPtr.t) h h' :
  ArrayPtr.destroy a h = Ok h' ->
  (ArrayPtr.raw_ptr_ a = nullptr /\ h' = h) \/
  (exists b : nat, blk (ArrayPtr.raw_ptr_ a) = Some b /\ h' = <[b := None]> h).
Proof.
  unfold ArrayPtr.destroy, delete_array. intros Hrun.
  destruct (decide (ArrayPtr.raw_ptr_ a = nullptr)) as [Hnull|_].
  - injection Hrun as <-. by left.
  - destruct (blk _) as [b|]; [|done].
    destruct (h !! b) as [[l|]|]; try done.
    destruct (_ =? _); [|done]. injection Hrun as <-. right. by exists b.
Qed.

Lemma vec_ok_set_size h v n :
  vec_ok h v -> 0 <= n <= SimpleVector.capacity_ v ->
  vec_ok h (SimpleVector.set_size n v).
Proof.
  unfold vec_ok. intros (Hs & Hc & Ho & Hb) Hn. simpl.
  split; [done|]. split; [done|]. split; done.
Qed.

Lemma effect_same h v h' v' :
  vec_ok h' v' -> layout h' = layout h ->
  SimpleVector.items_ v' = SimpleVector.items_ v -> effect h v h' v'.
Proof. intros. split; [done|]. by left. Qed.

Lemma effect_layout h v h1 v1 h2 :
  effect h v h1 v1 -> layout h2 = layout h1 -> effect h v h2 v1.
Proof.
  intros [Hok Hcases] Hlay. split.
  - eapply vec_ok_frame; [exact Hok|]. intros b _. by rewrite Hlay.
  - destruct Hcases as [[Hl Hi]|(n & Hi & Hl)]; [left|right].
    + split; [congruence|done].
    + exists n. split; [done|congruence].
Qed.

(** The reallocation [Resize] and [Reserve] share. *)
Lemma reallocate_effect h v nc size' (arr : ArrayPtr.t) h1 r h2 h3 :
  vec_ok h v -> 0 <= size' <= nc -> 0 < nc ->
  ArrayPtr.sized dflt nc h = Ok (arr, h1) ->
  SimpleVector.std_move moved_from (SimpleVector.begin v)
    (SimpleVector.end_ v) (ArrayPtr.Get arr) h1 = Ok (r, h2) ->
  ArrayPtr.destroy (SimpleVector.items_ v) h2 = Ok h3 ->
  effect h v h3 (SimpleVector.Make arr size' nc).
Proof.
  intros Hok Hs Hnc Hnew Hmove Hdel.
  apply sized_inv in Hnew as [(? & _)|(Hmax & -> & ->)]; [lia|].
  apply std_move_layout in Hmove.
  assert (Hlay1 : layout (h ++ [Some (replicate (Z.to_nat nc) dflt)])
                  = layout h ++ [Some (Z.to_nat nc)]).
  { unfold layout. rewrite fmap_app. simpl. by rewrite length_replicate. }
  rewrite Hlay1 in Hmove.
  assert (Hown : match owned v with
                 | Some b => (b < length h)%nat
                 | None => ArrayPtr.raw_ptr_ (SimpleVector.items_ v) = nullptr
                 end).
  { destruct (owned v) as [b|] eqn:Hb; [by eapply vec_ok_owned_live|].
    unfold owned in Hb. destruct Hok as (_ & _ & Ho & _).
    destruct (ArrayPtr.raw_ptr_ _) as [bk o]; simpl in *. by subst. }
  assert (Hlay3 : layout h3
                  = match owned v with
                    | Some b => <[b := None]> (layout h ++ [Some (Z.to_nat nc)])
                    | None => layout h ++ [Some (Z.to_nat nc)]
                    end).
  { apply destroy_inv in Hdel as [[Hnull ->]|(b & Hb & ->)].
    - unfold owned. by rewrite Hnull.
    - unfold owned. rewrite Hb. unfold layout at 1.
      rewrite list_fmap_insert. fold (layout h2). by rewrite Hmove. }
  split.
  - unfold vec_ok; simpl. split; [done|]. split; [lia|]. split; [done|].
    split; [done|].
    assert (Hlive : layout h3 !! length h = Some (Some (Z.to_nat nc))).
    { rewrite Hlay3. destruct (owned v) as [b|].
      - rewrite list_lookup_insert_ne by lia.
        by rewrite lookup_app_r, layout_length, Nat.sub_diag
          by (rewrite layout_length; lia).
      - by rewrite lookup_app_r, layout_length, Nat.sub_diag
          by (rewrite layout_length; lia). }
    apply layout_live in Hlive as (l & Hl & Hlen).
    exists l. split; [done|]. lia.
  - right. by exists (Z.to_nat nc).
Qed.

Lemma Resize_effect n v h v' h' :
  0 <= n < 2 ^ 64 -> vec_ok h v ->
  SimpleVector.Resize dflt moved_from n v h = Ok (v', h') ->
  effect h v h' v'.
Proof.
  intros Hn Hok Hrun. pose proof (vec_ok_fields _ _ Hok) as Hf.
  unfold SimpleVector.Resize in Hrun.
  destruct (Z.gtb_spec n (SimpleVector.capacity_ v)).
  - apply bind_Ok in Hrun as ([arr h1] & Hnew & Hrun). cbv beta iota in Hrun.
    apply bind_Ok in Hrun as ([r h2] & Hmove & Hrun). cbv beta iota in Hrun.
    apply bind_Ok in Hrun as (h3 & Hdel & Hrun).
    injection Hrun as <- <-.
    destruct v as [[pv] size cap], arr as [pa]; simpl in *.
    eapply (reallocate_effect _ _ _ n); [exact Hok| | |exact Hnew|exact Hmove|exact Hdel];
      lia.
  - destruct (Z.gtb_spec n (SimpleVector.size_ v)).
    + inv_ok. subst.
      apply effect_same; [|by eapply reset_loop_layout|done].
      eapply vec_ok_frame.
      * apply vec_ok_set_size; [exact Hok|lia].
      * intros b _. by erewrite reset_loop_layout.
    + inv_ok. subst.
      apply effect_same; [|done..]. apply vec_ok_set_size; [done|lia].
Qed.

Lemma Reserve_effect n v h v' h' :
  vec_ok h v ->
  SimpleVector.Reserve dflt moved_from n v h = Ok (v', h') ->
  effect h v h' v'.
Proof.
  intros Hok Hrun. pose proof (vec_ok_fields _ _ Hok) as Hf.
  unfold SimpleVector.Reserve in Hrun.
  destruct (Z.ltb_spec (SimpleVector.capacity_ v) n).
  - apply bind_Ok in Hrun as ([arr h1] & Hnew & Hrun). cbv beta iota in Hrun.
    apply bind_Ok in Hrun as ([r h2] & Hmove & Hrun). cbv beta iota in Hrun.
    apply bind_Ok in Hrun as (h3 & Hdel & Hrun).
    injection Hrun as <- <-.
    destruct v as [[pv] size cap], arr as [pa]; simpl in *.
    eapply (reallocate_effect _ _ _ size); [exact Hok| | |exact Hnew|exact Hmove|exact Hdel];
      lia.
  - inv_ok. subst. by apply effect_same.
Qed.

Lemma CheckCapacityAndResize_effect v h v' h' :
  vec_ok h v ->
  SimpleVector.CheckCapacityAndResize dflt moved_from v h = Ok (v', h') ->
  effect h v h' v'.
Proof.
  intros Hok Hrun. pose proof (vec_ok_fields _ _ Hok) as Hf.
  unfold SimpleVector.CheckCapacityAndResize in Hrun.
  destruct (Z.geb_spec (SimpleVector.size_ v) (SimpleVector.capacity_ v)).
  - eapply Resize_effect; [apply size_t_range|done..].
  - inv_ok. subst. rewrite size_t_id by lia.
    apply effect_same; [|done..]. apply vec_ok_set_size; [done|lia].
Qed.

Lemma PushBack_effect x v h v' h' :
  vec_ok h v ->
  SimpleVector.PushBack dflt moved_from x v h = Ok (v', h') ->
  effect h v h' v'.
Proof.
  intros Hok Hrun. unfold SimpleVector.PushBack in Hrun.
  apply bind_Ok in Hrun as ([v1 h1] & Hccr & Hrun). cbv beta iota in Hrun.
  apply bind_Ok in Hrun as (h2 & Hstore & Hrun). injection Hrun as <- <-.
  eapply effect_layout.
  - by eapply CheckCapacityAndResize_effect.
  - by eapply store_layout.
Qed.

Lemma PopBack_effect v h v' :
  vec_ok h v -> SimpleVector.PopBack v = Ok v' -> effect h v h v'.
Proof.
  intros Hok Hrun. pose proof (vec_ok_fields _ _ Hok) as Hf.
  unfold SimpleVector.PopBack, SimpleVector.IsEmpty in Hrun.
  inv_ok. subst. apply effect_same; [|done..].
  rewrite size_t_id by lia. apply vec_ok_set_size; [done|lia].
Qed.

Lemma Insert_effect pos x v h it v' h' :
  vec_ok h v ->
  SimpleVector.Insert dflt moved_from pos x v h = Ok (it, v', h') ->
  effect h v h' v'.
Proof.
  intros Hok Hrun. unfold SimpleVector.Insert in Hrun.
  apply bind_Ok in Hrun as (c1 & _ & Hrun).
  apply bind_Ok in Hrun as (c2 & _ & Hrun).
  apply bind_Ok in Hrun as (? & _ & Hrun).
  destruct (decide _).
  - apply bind_Ok in Hrun as ([v1 h1] & Hpush & Hrun). cbv beta iota in Hrun.
    injection Hrun as _ <- <-. by eapply PushBack_effect.
  - apply bind_Ok in Hrun as (d & _ & Hrun).
    apply bind_Ok in Hrun as ([v1 h1] & Hccr & Hrun). cbv beta iota in Hrun.
    apply bind_Ok in Hrun as ([it1 h2] & Hshift & Hrun). cbv beta iota in Hrun.
    apply bind_Ok in Hrun as (h3 & Hstore & Hrun). injection Hrun as _ <- <-.
    eapply effect_layout.
    + by eapply CheckCapacityAndResize_effect.
    + erewrite store_layout by done. by eapply std_copy_backward_layout.
Qed.

Lemma Insert_rv_effect pos x v h it v' h' :
  vec_ok h v ->
  SimpleVector.Insert_rv dflt moved_from pos x v h = Ok (it, v', h') ->
  effect h v h' v'.
Proof.
  intros Hok Hrun. unfold SimpleVector.Insert_rv in Hrun.
  destruct (decide _).
  - apply bind_Ok in Hrun as ([v1 h1] & Hpush & Hrun). cbv beta iota in Hrun.
    injection Hrun as _ <- <-. by eapply PushBack_effect.
  - apply bind_Ok in Hrun as (d & _ & Hrun).
    apply bind_Ok in Hrun as ([v1 h1] & Hccr & Hrun). cbv beta iota in Hrun.
    apply bind_Ok in Hrun as ([it1 h2] & Hshift & Hrun). cbv beta iota in Hrun.
    apply bind_Ok in Hrun as (h3 & Hstore & Hrun). injection Hrun as _ <- <-.
    eapply effect_layout.
    + by eapply CheckCapacityAndResize_effect.
    + erewrite store_layout by done. by eapply std_move_backward_layout.
Qed.

Lemma Erase_effect pos v h it v' h' :
  vec_ok h v ->
  SimpleVector.Erase moved_from pos v h = Ok (it, v', h') ->
  effect h v h' v'.
Proof.
  intros Hok Hrun. pose proof (vec_ok_fields _ _ Hok) as Hf.
  unfold SimpleVector.Erase in Hrun.
  apply bind_Ok in Hrun as (c1 & Hc1 & Hrun).
  apply bind_Ok in Hrun as (c2 & Hc2 & Hrun).
  apply bind_Ok in Hrun as ([] & Hassert & Hrun).
  destruct c2; [|discriminate Hassert].
  destruct c1; [|discriminate Hc2].
  unfold ptr_le, ptr_lt, SimpleVector.begin, SimpleVector.end_, ptr_add
    in Hc1, Hc2; simpl in *.
  repeat case_decide; try discriminate.
  injection Hc1 as Hc1. injection Hc2 as Hc2.
  assert (0 < SimpleVector.size_ v) by lia.
  apply bind_Ok in Hrun as (d & _ & Hrun).
  apply bind_Ok in Hrun as (c & _ & Hrun).
  apply bind_Ok in Hrun as (h1 & Hshift & Hrun). injection Hrun as _ <- <-.
  assert (Hlay : layout h1 = layout h).
  { destruct c; inv_ok; subst; [by eapply std_move_layout|done]. }
  rewrite size_t_id by lia.
  apply effect_same; [|done..].
  eapply vec_ok_frame.
  - apply vec_ok_set_size; [exact Hok|lia].
  - intros b _. by rewrite Hlay.
Qed.


(** *** Every call keeps the invariant of the program *)

Lemma vec_ok_default h : vec_ok h SimpleVector.default.
Proof. apply vec_ok_shape, shape_null. Qed.

(** The layout of the block of another vector after an [effect]. *)
Lemma effect_other h v h' v' w (b : nat) :
  effect h v h' v' -> vec_ok h w -> owned w = Some b -> owned v <> Some b ->
  layout h' !! b = layout h !! b.
Proof.
  intros [_ Hcases] Hw Hb Hne.
  pose proof (vec_ok_owned_live _ _ _ Hw Hb) as Hlive.
  destruct Hcases as [[-> _]|(n & _ & ->)]; [done|].
  destruct (owned v) as [bv|].
  - rewrite list_lookup_insert_ne by congruence.
    by rewrite lookup_app_l by (rewrite layout_length; lia).
  - by rewrite lookup_app_l by (rewrite layout_length; lia).
Qed.

(** The block of the vector after an [effect] is its old one or a new
    one. *)
Lemma effect_owned h v h' v' (b : nat) :
  effect h v h' v' -> owned v' = Some b ->
  owned v = Some b \/ b = length h.
Proof.
  intros [_ Hcases] Hb. unfold owned in *.
  destruct Hcases as [[_ Hi]|(n & Hi & _)]; rewrite Hi in Hb.
  - by left.
  - right. simpl in Hb. congruence.
Qed.

(** Replacing the vector at address [i], in a heap that keeps the arrays of
    the other vectors, by a valid vector that owns none of them. *)
Lemma prog_ok_replace s h (i : nat) v h' v' :
  prog_ok (s, h) -> s !! i = Some v -> vec_ok h' v' ->
  (forall (j : nat) w (b : nat),
     j <> i -> s !! j = Some w -> owned w = Some b ->
     layout h' !! b = layout h !! b /\ owned v' <> Some b) ->
  prog_ok (<[i := v']> s, h').
Proof.
  intros [Hall Hdis] Hv Hok' Hothers. simpl in *.
  pose proof (lookup_lt_Some _ _ _ Hv) as Hi.
  rewrite Forall_lookup in Hall.
  split; simpl.
  - apply Forall_lookup. intros j w Hw.
    destruct (decide (j = i)) as [->|Hne].
    + rewrite list_lookup_insert_eq in Hw by done. by injection Hw as <-.
    + rewrite list_lookup_insert_ne in Hw by done.
      eapply vec_ok_frame; [by eapply Hall|].
      intros b Hb. by destruct (Hothers j w b Hne Hw Hb).
  - intros j k vj vk b Hj Hk Hbj Hbk.
    destruct (decide (j = i)) as [->|Hji], (decide (k = i)) as [->|Hki];
      [done|..].
    + rewrite list_lookup_insert_eq in Hj by done. injection Hj as <-.
      rewrite list_lookup_insert_ne in Hk by done.
      by destruct (Hothers k vk b Hki Hk Hbk).
    + rewrite list_lookup_insert_eq in Hk by done. injection Hk as <-.
      rewrite list_lookup_insert_ne in Hj by done.
      by destruct (Hothers j vj b Hji Hj Hbj).
    + rewrite list_lookup_insert_ne in Hj, Hk by done.
      by eapply (Hdis j k vj vk b).
Qed.

(** Adding a valid vector that owns none of the arrays of the others. *)
Lemma prog_ok_append s h h' v' :
  prog_ok (s, h) -> vec_ok h' v' ->
  (forall (j : nat) w (b : nat),
     s !! j = Some w -> owned w = Some b ->
     layout h' !! b = layout h !! b /\ owned v' <> Some b) ->
  prog_ok (s ++ [v'], h').
Proof.
  intros [Hall Hdis] Hok' Hothers. simpl in *.
  assert (Hext : prog_ok (s ++ [SimpleVector.default], h)).
  { split; simpl.
    - apply Forall_app. split; [done|].
      apply Forall_singleton, vec_ok_default.
    - intros j k vj vk b Hj Hk Hbj Hbk.
      apply lookup_app_Some in Hj as [Hj|[_ Hj]];
        [|by apply list_lookup_singleton_Some in Hj as [_ <-]].
      apply lookup_app_Some in Hk as [Hk|[_ Hk]];
        [|by apply list_lookup_singleton_Some in Hk as [_ <-]].
      by eapply (Hdis j k vj vk b). }
  assert (Hres : prog_ok (<[length s := v']> (s ++ [SimpleVector.default]), h')).
  { eapply prog_ok_replace; [exact Hext| |exact Hok'|].
    - by apply list_lookup_middle.
    - intros j w b Hj Hw Hb.
      apply lookup_app_Some in Hw as [Hw|[_ Hw]];
        [by eapply Hothers|].
      by apply list_lookup_singleton_Some in Hw as [_ <-]. }
  replace (<[length s := v']> (s ++ [SimpleVector.default])) with (s ++ [v'])
    in Hres; [done|].
  by rewrite insert_app_r_alt, Nat.sub_diag by lia.
Qed.

Lemma prog_ok_method s h (i : nat) v h' v' :
  prog_ok (s, h) -> s !! i = Some v -> effect h v h' v' ->
  prog_ok (<[i := v']> s, h').
Proof.
  intros Hprog Hv Heff.
  eapply prog_ok_replace; [exact Hprog|exact Hv|by destruct Heff|].
  intros j w b Hne Hw Hb.
  destruct Hprog as [Hall Hdis]. rewrite Forall_lookup in Hall. simpl in *.
  pose proof (Hall _ _ Hw) as Hokw.
  assert (Hvb : owned v <> Some b).
  { intros Hvb. by specialize (Hdis i j v w b Hv Hw Hvb Hb). }
  split.
  - by eapply effect_other.
  - intros Hb'. destruct (effect_owned _ _ _ _ _ Heff Hb') as [Hold| ->];
      [done|].
    pose proof (vec_ok_owned_live _ _ _ Hokw Hb). lia.
Qed.

Lemma prog_ok_construct s h h' v' :
  prog_ok (s, h) -> effect h SimpleVector.default h' v' ->
  prog_ok (s ++ [v'], h').
Proof.
  intros Hprog Heff.
  eapply prog_ok_append; [exact Hprog|by destruct Heff|].
  intros j w b Hw Hb.
  destruct Hprog as [Hall Hdis]. rewrite Forall_lookup in Hall. simpl in *.
  pose proof (Hall _ _ Hw) as Hokw.
  split.
  - by eapply effect_other.
  - intros Hb'. destruct (effect_owned _ _ _ _ _ Heff Hb') as [Hold| ->];
      [done|].
    pose proof (vec_ok_owned_live _ _ _ Hokw Hb). lia.
Qed.

(** A new array and the vector that owns it. *)
Lemma fresh_effect cap size (a : ArrayPtr.t) h h1 h2 :
  ArrayPtr.sized dflt cap h = Ok (a, h1) -> layout h2 = layout h1 ->
  0 <= size <= cap ->
  effect h SimpleVector.default h2 (SimpleVector.Make a size cap).
Proof.
  intros Hnew Hlay Hs.
  apply sized_inv in Hnew as [(Hcap & -> & ->)|(Hcap & -> & ->)].
  - assert (cap = 0) as -> by lia. assert (size = 0) as -> by lia.
    apply effect_same; [apply vec_ok_default|done..].
  - assert (Hlay1 : layout (h ++ [Some (replicate (Z.to_nat cap) dflt)])
                    = layout h ++ [Some (Z.to_nat cap)]).
    { unfold layout. rewrite fmap_app. simpl. by rewrite length_replicate. }
    rewrite Hlay1 in Hlay. split.
    + assert (Hlive : layout h2 !! length h = Some (Some (Z.to_nat cap))).
      { rewrite Hlay.
        by rewrite lookup_app_r, layout_length, Nat.sub_diag
          by (rewrite layout_length; lia). }
      apply layout_live in Hlive as (l & Hl & Hlen).
      unfold vec_ok; simpl. split; [done|]. split; [lia|]. split; [done|].
      split; [lia|]. exists l. split; [done|lia].
    + right. by exists (Z.to_nat cap).
Qed.

Lemma sized_effect n h v' h' :
  SimpleVector.sized dflt (size_t n) h = Ok (v', h') ->
  effect h SimpleVector.default h' v'.
Proof.
  intros Hrun. pose proof (size_t_range n).
  unfold SimpleVector.sized in Hrun.
  apply bind_Ok in Hrun as ([a h1] & Hnew & Hrun). injection Hrun as <- <-.
  eapply fresh_effect; [exact Hnew|done|lia].
Qed.

Lemma filled_effect n x h v' h' :
  SimpleVector.filled dflt (size_t n) x h = Ok (v', h') ->
  effect h SimpleVector.default h' v'.
Proof.
  intros Hrun. pose proof (size_t_range n).
  unfold SimpleVector.filled in Hrun.
  apply bind_Ok in Hrun as ([a h1] & Hnew & Hrun). cbv beta iota zeta in Hrun.
  destruct (size_t n =? 0).
  - injection Hrun as <- <-. eapply fresh_effect; [exact Hnew|done|lia].
  - apply bind_Ok in Hrun as (h2 & Hfill & Hrun). injection Hrun as <- <-.
    eapply fresh_effect; [exact Hnew|by eapply std_fill_layout|lia].
Qed.

Lemma from_list_effect init h v' h' :
  SimpleVector.from_list dflt init h = Ok (v', h') ->
  effect h SimpleVector.default h' v'.
Proof.
  intros Hrun. unfold SimpleVector.from_list in Hrun.
  apply bind_Ok in Hrun as ([a h1] & Hnew & Hrun). cbv beta iota zeta in Hrun.
  apply bind_Ok in Hrun as ([q h2] & Hcopy & Hrun). injection Hrun as <- <-.
  eapply fresh_effect; [exact Hnew|by eapply copy_init_layout|lia].
Qed.

Lemma copy_construct_effect other h v' h' :
  vec_ok h other ->
  SimpleVector.copy_construct dflt other h = Ok (v', h') ->
  effect h SimpleVector.default h' v'.
Proof.
  intros Hok Hrun. pose proof (vec_ok_fields _ _ Hok).
  unfold SimpleVector.copy_construct, SimpleVector.GetSize,
    SimpleVector.GetCapacity in Hrun.
  apply bind_Ok in Hrun as ([a h1] & Hnew & Hrun). cbv beta iota zeta in Hrun.
  apply bind_Ok in Hrun as ([q h2] & Hcopy & Hrun). injection Hrun as <- <-.
  eapply fresh_effect; [exact Hnew|by eapply std_copy_layout|lia].
Qed.

Lemma reserved_effect r h v' h' :
  SimpleVector.reserved dflt moved_from r h = Ok (v', h') ->
  effect h SimpleVector.default h' v'.
Proof.
  intros Hrun. unfold SimpleVector.reserved in Hrun.
  eapply Reserve_effect; [apply vec_ok_default|exact Hrun].
Qed.

(** The layout after the destructor of a vector of the program ran. *)
Lemma destroy_layout s h (i : nat) a h1 :
  prog_ok (s, h) -> s !! i = Some a ->
  ArrayPtr.destroy (SimpleVector.items_ a) h = Ok h1 ->
  forall (j : nat) w (b : nat),
    j <> i -> s !! j = Some w -> owned w = Some b ->
    layout h1 !! b = layout h !! b.
Proof.
  intros [Hall Hdis] Ha Hdel j w b Hne Hw Hb. simpl in *.
  apply destroy_inv in Hdel as [[_ ->]|(ba & Hba & ->)]; [done|].
  unfold layout at 1. rewrite list_fmap_insert. fold (layout h).
  apply list_lookup_insert_ne. intros ->.
  by specialize (Hdis i j a w b Ha Hw Hba Hb).
Qed.

Lemma swap_prog_ok s h (i j : nat) a b :
  prog_ok (s, h) -> s !! i = Some a -> s !! j = Some b ->
  prog_ok (<[j := a]> (<[i := b]> s), h).
Proof.
  intros Hprog Ha Hb.
  destruct (decide (i = j)) as [->|Hne].
  { assert (a = b) as -> by congruence.
    by rewrite list_insert_insert_eq, list_insert_id. }
  pose proof Hprog as [Hall Hdis]. rewrite Forall_lookup in Hall. simpl in *.
  assert (H1 : prog_ok (<[i := SimpleVector.default]> s, h)).
  { eapply prog_ok_replace; [exact Hprog|exact Ha|apply vec_ok_default|].
    intros k w bw _ _ _. by split. }
  assert (H2 : prog_ok (<[j := a]> (<[i := SimpleVector.default]> s), h)).
  { eapply prog_ok_replace; [exact H1| |by eapply Hall|].
    - by rewrite list_lookup_insert_ne.
    - intros k w bw Hk Hw Hbw. split; [done|]. intros Habw.
      destruct (decide (k = i)) as [->|Hki].
      + rewrite list_lookup_insert_eq in Hw by (by eapply lookup_lt_Some).
        by injection Hw as <-.
      + rewrite list_lookup_insert_ne in Hw by done.
        by specialize (Hdis i k a w bw Ha Hw Habw Hbw). }
  assert (H3 : prog_ok (<[i := b]> (<[j := a]> (<[i := SimpleVector.default]> s)), h)).
  { eapply prog_ok_replace; [exact H2| |by eapply Hall|].
    - rewrite list_lookup_insert_ne by done.
      apply list_lookup_insert_eq. by eapply lookup_lt_Some.
    - intros k w bw Hk Hw Hbw. split; [done|]. intros Hbbw.
      destruct (decide (k = j)) as [->|Hkj].
      + rewrite list_lookup_insert_eq in Hw
          by (rewrite length_insert; by eapply lookup_lt_Some).
        injection Hw as <-.
        by specialize (Hdis i j a b bw Ha Hb Hbw Hbbw).
      + rewrite !list_lookup_insert_ne in Hw by done.
        by specialize (Hdis j k b w bw Hb Hw Hbbw Hbw). }
  replace (<[j := a]> (<[i := b]> s))
    with (<[i := b]> (<[j := a]> (<[i := SimpleVector.default]> s)));
    [done|].
  pose proof (lookup_lt_Some _ _ _ Ha). pose proof (lookup_lt_Some _ _ _ Hb).
  by_cells i j.
Qed.

Lemma move_prog_ok s h (this rhs : nat) a b h1 :
  this <> rhs ->
  prog_ok (s, h) -> s !! this = Some a -> s !! rhs = Some b ->
  ArrayPtr.destroy (SimpleVector.items_ a) h = Ok h1 ->
  prog_ok (<[rhs := SimpleVector.default]> (<[this := b]> s), h1).
Proof.
  intros Hne Hprog Ha Hb Hdel.
  pose proof Hprog as [Hall Hdis]. rewrite Forall_lookup in Hall. simpl in *.
  assert (H1 : prog_ok (<[rhs := SimpleVector.default]> s, h)).
  { eapply prog_ok_replace; [exact Hprog|exact Hb|apply vec_ok_default|].
    intros k w bw _ _ _. by split. }
  assert (H2 : prog_ok (<[this := b]> (<[rhs := SimpleVector.default]> s), h1)).
  { eapply prog_ok_replace; [exact H1|by rewrite list_lookup_insert_ne| |].
    - eapply vec_ok_frame; [by eapply Hall|].
      intros bb Hbb. by eapply (destroy_layout s h this a h1 Hprog Ha Hdel rhs b).
    - intros k w bw Hk Hw Hbw.
      destruct (decide (k = rhs)) as [->|Hkr].
      + rewrite list_lookup_insert_eq in Hw by (by eapply lookup_lt_Some).
        by injection Hw as <-.
      + rewrite list_lookup_insert_ne in Hw by done. split.
        * by eapply (destroy_layout s h this a h1 Hprog Ha Hdel k w).
        * intros Hbbw. by specialize (Hdis rhs k b w bw Hb Hw Hbbw Hbw). }
  replace (<[rhs := SimpleVector.default]> (<[this := b]> s))
    with (<[this := b]> (<[rhs := SimpleVector.default]> s)); [done|].
  by apply list_insert_insert_ne.
Qed.

Lemma copy_assign_prog_ok s h (this rhs : nat) a b tmp h1 h2 :
  this <> rhs ->
  prog_ok (s, h) -> s !! this = Some a -> s !! rhs = Some b ->
  SimpleVector.copy_construct dflt b h = Ok (tmp, h1) ->
  SimpleVector.destroy a h1 = Ok h2 ->
  prog_ok (<[this := tmp]> s, h2).
Proof.
  intros Hne Hprog Ha Hb Hcopy Hdel.
  pose proof Hprog as [Hall Hdis]. rewrite Forall_lookup in Hall. simpl in *.
  pose proof (copy_construct_effect b h tmp h1 (Hall _ _ Hb) Hcopy) as Heff.
  pose proof (prog_ok_construct s h h1 tmp Hprog Heff) as Hext.
  assert (Ha' : (s ++ [tmp]) !! this = Some a)
    by (by apply lookup_app_l_Some).
  unfold SimpleVector.destroy in Hdel.
  pose proof (destroy_layout _ _ _ _ _ Hext Ha' Hdel) as Hkeep.
  pose proof Hext as [Hall' Hdis']. rewrite Forall_lookup in Hall'.
  simpl in *.
  eapply (prog_ok_replace s h this a); [exact Hprog|exact Ha| |].
  - eapply vec_ok_frame.
    + eapply (Hall' (length s)). by apply list_lookup_middle.
    + intros bt Hbt. eapply (Hkeep (length s) tmp bt); [|by apply list_lookup_middle|done].
      apply lookup_lt_Some in Ha. lia.
  - intros k w bw Hk Hw Hbw.
    assert (Hw' : (s ++ [tmp]) !! k = Some w) by (by apply lookup_app_l_Some).
    split.
    + rewrite (Hkeep k w bw Hk Hw' Hbw).
      eapply effect_other; [exact Heff|by eapply Hall|done|done].
    + intros Htb.
      pose proof (Hdis' (length s) k tmp w bw
                    (list_lookup_middle s [] tmp _ eq_refl) Hw' Htb Hbw).
      apply lookup_lt_Some in Hw. lia.
Qed.

(** Every call that returns keeps the invariant of the program. *)
Lemma exec_prog_ok (c : SimpleVector.call) s h s' h' :
  prog_ok (s, h) ->
  SimpleVector.exec dflt moved_from c s h = Ok (s', h') ->
  prog_ok (s', h').
Proof.
  intros Hprog Hrun.
  pose proof Hprog as [Hall Hdis]. rewrite Forall_lookup in Hall. simpl in *.
  assert (Hmethod : forall this (m : SimpleVector.t -> heap ->
                                     result (SimpleVector.t * heap)),
            (forall v h0 v' h0',
               vec_ok h0 v -> m v h0 = Ok (v', h0') -> effect h0 v h0' v') ->
            SimpleVector.method this m s h = Ok (s', h') ->
            prog_ok (s', h')).
  { intros this m Hm Hcall. unfold SimpleVector.method in Hcall.
    destruct (s !! this) as [v|] eqn:Hv; [|done].
    apply bind_Ok in Hcall as ([v1 h1] & Hmv & Hcall).
    injection Hcall as <- <-.
    eapply prog_ok_method; [exact Hprog|exact Hv|].
    eapply Hm; [by eapply Hall|exact Hmv]. }
  assert (Hconstruct : forall (m : heap -> result (SimpleVector.t * heap)),
            (forall v' h0', m h = Ok (v', h0') ->
                            effect h SimpleVector.default h0' v') ->
            SimpleVector.construct m s h = Ok (s', h') ->
            prog_ok (s', h')).
  { intros m Hm Hcall. unfold SimpleVector.construct in Hcall.
    apply bind_Ok in Hcall as ([v1 h1] & Hmv & Hcall).
    injection Hcall as <- <-.
    eapply prog_ok_construct; [exact Hprog|by apply Hm]. }
  destruct c; unfold SimpleVector.exec in Hrun.
  - eapply Hconstruct; [|exact Hrun]. intros v' h0' [= <- <-].
    apply effect_same; [apply vec_ok_default|done..].
  - eapply Hconstruct; [|exact Hrun]. intros v' h0'. apply sized_effect.
  - eapply Hconstruct; [|exact Hrun]. intros v' h0'. apply filled_effect.
  - eapply Hconstruct; [|exact Hrun]. intros v' h0'. apply from_list_effect.
  - destruct (s !! other) as [v|] eqn:Hv; [|done].
    eapply Hconstruct; [|exact Hrun]. intros v' h0'.
    apply copy_construct_effect. by eapply Hall.
  - destruct (s !! other) as [v|] eqn:Hv; [|done].
    rewrite (move_construct_obj _ _ _ _ Hv) in Hrun. simpl in Hrun.
    injection Hrun as <- <-.
    eapply prog_ok_append; [| by eapply Hall |].
    + eapply prog_ok_replace; [exact Hprog|exact Hv|apply vec_ok_default|].
      intros k w bw _ _ _. by split.
    + intros k w bw Hw Hbw. split; [done|]. intros Hvb.
      destruct (decide (k = other)) as [->|Hko].
      * rewrite list_lookup_insert_eq in Hw by (by eapply lookup_lt_Some).
        by injection Hw as <-.
      * rewrite list_lookup_insert_ne in Hw by done.
        by specialize (Hdis other k v w bw Hv Hw Hvb Hbw).
  - eapply Hconstruct; [|exact Hrun]. intros v' h0'. apply reserved_effect.
  - eapply Hmethod; [|exact Hrun]. intros v h0 v' h0'. apply PushBack_effect.
  - eapply Hmethod; [|exact Hrun]. intros v h0 v' h0'. apply PushBack_effect.
  - eapply Hmethod; [|exact Hrun]. intros v h0 v' h0' Hok Hm.
    apply bind_Ok in Hm as (v1 & Hpop & Hm). injection Hm as <- <-.
    by eapply PopBack_effect.
  - eapply Hmethod; [|exact Hrun]. intros v h0 v' h0' Hok Hm.
    unfold SimpleVector.drop_iterator in Hm.
    apply bind_Ok in Hm as ([[it v1] h1] & Hins & Hm). injection Hm as <- <-.
    by eapply Insert_effect.
  - eapply Hmethod; [|exact Hrun]. intros v h0 v' h0' Hok Hm.
    unfold SimpleVector.drop_iterator in Hm.
    apply bind_Ok in Hm as ([[it v1] h1] & Hins & Hm). injection Hm as <- <-.
    by eapply Insert_rv_effect.
  - eapply Hmethod; [|exact Hrun]. intros v h0 v' h0' Hok Hm.
    unfold SimpleVector.drop_iterator in Hm.
    apply bind_Ok in Hm as ([[it v1] h1] & Hers & Hm). injection Hm as <- <-.
    by eapply Erase_effect.
  - eapply Hmethod; [|exact Hrun]. intros v h0 v' h0'.
    apply Resize_effect, size_t_range.
  - eapply Hmethod; [|exact Hrun]. intros v h0 v' h0'. apply Reserve_effect.
  - eapply Hmethod; [|exact Hrun]. intros v h0 v' h0' Hok [= <- <-].
    pose proof (vec_ok_fields _ _ Hok).
    apply effect_same; [|done..]. apply vec_ok_set_size; [done|lia].
  - destruct (s !! this) as [a|] eqn:Ha; [|done].
    destruct (s !! other) as [b|] eqn:Hb; [|done].
    rewrite (swap_objs _ _ _ _ _ Ha Hb) in Hrun. injection Hrun as <- <-.
    by apply swap_prog_ok.
  - destruct (s !! this) as [a|] eqn:Ha; [|done].
    destruct (s !! rhs) as [b|] eqn:Hb; [|done].
    destruct (decide (this = rhs)) as [->|Hne].
    + unfold SimpleVector.copy_assign in Hrun.
      rewrite decide_True in Hrun by done. by injection Hrun as <- <-.
    + rewrite (copy_assign_objs dflt _ _ _ _ _ _ Hne Ha Hb) in Hrun.
      apply bind_Ok in Hrun as ([tmp h1] & Hcopy & Hrun).
      cbv beta iota in Hrun.
      apply bind_Ok in Hrun as (h2 & Hdel & Hrun). injection Hrun as <- <-.
      by eapply copy_assign_prog_ok.
  - destruct (s !! this) as [a|] eqn:Ha; [|done].
    destruct (s !! rhs) as [b|] eqn:Hb; [|done].
    destruct (decide (this = rhs)) as [->|Hne].
    + unfold SimpleVector.move_assign in Hrun.
      rewrite decide_True in Hrun by done. by injection Hrun as <- <-.
    + rewrite (move_assign_objs _ _ _ _ _ _ Hne Ha Hb) in Hrun.
      apply bind_Ok in Hrun as (h1 & Hdel & Hrun). injection Hrun as <- <-.
      by eapply move_prog_ok.
Qed.

(** Every vector of every state a program reaches satisfies the
    representation invariant, and no two of them share an array: the
    properties proved of one valid vector hold of every vector a program
    builds. *)
Lemma reachable_prog_ok (st : list SimpleVector.t * heap) :
  reachable dflt moved_from st -> prog_ok st.
Proof.
  intros Hreach. unfold reachable in Hreach.
  eapply (rtc_ind_r (fun st0 => prog_ok st0)); [| |exact Hreach].
  - split; simpl; [by apply Forall_nil|]. intros i j vi vj b Hi. done.
  - intros [s1 h1] [s2 h2] _ [c Hc] IH. simpl in Hc.
    by eapply exec_prog_ok.
Qed.

End Ownership.

(** ** ArrayPtr: moves *)

Section ArrayPtrFacts.
Context {T : Type}.
Local Abbreviation heap := (list (option (list T))).
Implicit Types (h : heap) (s : list ArrayPtr.t).

(** Move assignment between two different owners: the destination deletes
    its array and takes the array of the source, which is left empty. *)
Lemma ArrayPtr_move_assign_distinct s h this other a b :
  this <> other -> s !! this = Some a -> s !! other = Some b ->
  ArrayPtr.move_assign (T:=T)
    (cell ArrayPtr.default this) (cell ArrayPtr.default other) s h
  = let! h1 := ArrayPtr.destroy a h in
    Ok (<[this := b]> (<[other := ArrayPtr.default]> s), h1).
Proof.
  intros Hne Ha Hb.
  pose proof (lookup_lt_Some _ _ _ Hb) as Hlb.
  unfold ArrayPtr.move_assign, ArrayPtr.destroy, std_exchange,
    ArrayPtr.raw_ptr_ref, field, cell; simpl.
  rewrite Ha, Hb; simpl. destruct a as [pa], b as [pb]; simpl.
  assert (Hdel : (if decide (pa = nullptr) then Ok h else delete_array pa h)
                 = delete_array pa h).
  { unfold delete_array. by destruct (decide (pa = nullptr)). }
  rewrite Hdel. by destruct (delete_array pa h) as [h1|e].
Qed.

(** Move assignment of an owner from itself: the array is deleted and the
    owner keeps its address. *)
Lemma ArrayPtr_move_assign_self s h this b l :
  s !! this = Some (ArrayPtr.Make (Ptr (Some b) 0)) ->
  h !! b = Some (Some l) ->
  ArrayPtr.move_assign (T:=T)
    (cell ArrayPtr.default this) (cell ArrayPtr.default this) s h
  = Ok (s, <[b := None]> h).
Proof.
  intros Ha Hb. pose proof (lookup_lt_Some _ _ _ Ha) as Hla.
  unfold ArrayPtr.move_assign, std_exchange, ArrayPtr.raw_ptr_ref, field,
    cell; simpl.
  rewrite Ha; simpl. rewrite ?decide_False by done.
  rewrite (delete_array_live _ _ _ Hb); simpl.
  by rewrite list_insert_insert_eq, list_insert_id.
Qed.

(** Move construction: the new owner takes the array and the source is left
    empty. *)
Lemma ArrayPtr_move_construct_spec s other b :
  s !! other = Some b ->
  ArrayPtr.move_construct (cell ArrayPtr.default other) s
  = (b, <[other := ArrayPtr.default]> s).
Proof.
  intros Hb. unfold ArrayPtr.move_construct, std_exchange,
    ArrayPtr.raw_ptr_ref, field, cell; simpl.
  rewrite Hb. by destruct b.
Qed.

End ArrayPtrFacts.

(** * The claims *)

Section Claims.
Context {T : Type}.
Variable dflt : T.
Variable moved_from : T -> T.
Local Abbreviation heap := (list (option (list T))).
Implicit Types (h : heap) (v : SimpleVector.t) (x : T).

(** C1. A [PushBack], of either overload, or an [Insert] before [end()], of
    either overload, on a vector whose size equals its capacity leaves the
    capacity [max(size + 1, capacity == 0 ? 1 : capacity * 2)], provided the
    allocation of that many elements succeeds.  Consequently [n >= 1]
    consecutive [PushBack] calls on an empty vector of capacity 0 leave the
    capacity the least power of two that is at least [n]: the capacities
    met are 1, 2, 4, 8, ... *)
Theorem C1_growth_policy :
  (forall h v x,
     vec_ok h v -> SimpleVector.size_ v = SimpleVector.capacity_ v ->
     grown (SimpleVector.size_ v) (SimpleVector.capacity_ v) <= max_array_len ->
     exists v' h',
       SimpleVector.PushBack dflt moved_from x v h = Ok (v', h') /\
       SimpleVector.PushBack_rv dflt moved_from x v h = Ok (v', h') /\
       SimpleVector.capacity_ v'
         = Z.max (SimpleVector.size_ v + 1)
             (if SimpleVector.capacity_ v =? 0 then 1
              else SimpleVector.capacity_ v * 2)) /\
  (forall h v x (i : nat),
     vec_ok h v -> SimpleVector.size_ v = SimpleVector.capacity_ v ->
     Z.of_nat i < SimpleVector.size_ v ->
     grown (SimpleVector.size_ v) (SimpleVector.capacity_ v) <= max_array_len ->
     (exists it v' h',
        SimpleVector.Insert dflt moved_from
          (ptr_add (SimpleVector.begin v) (Z.of_nat i)) x v h
          = Ok (it, v', h') /\
        SimpleVector.capacity_ v'
          = Z.max (SimpleVector.size_ v + 1)
              (if SimpleVector.capacity_ v =? 0 then 1
               else SimpleVector.capacity_ v * 2)) /\
     (exists it v' h',
        SimpleVector.Insert_rv dflt moved_from
          (ptr_add (SimpleVector.begin v) (Z.of_nat i)) x v h
          = Ok (it, v', h') /\
        SimpleVector.capacity_ v'
          = Z.max (SimpleVector.size_ v + 1)
              (if SimpleVector.capacity_ v =? 0 then 1
               else SimpleVector.capacity_ v * 2))) /\
  (forall h (xs : list T),
     xs <> [] ->
     2 ^ Z.log2_up (Z.of_nat (length xs)) <= max_array_len ->
     exists v' h',
       push_all dflt moved_from xs SimpleVector.default h = Ok (v', h') /\
       SimpleVector.size_ v' = Z.of_nat (length xs) /\
       SimpleVector.capacity_ v' = 2 ^ Z.log2_up (Z.of_nat (length xs))).
Proof.
  assert (Hfull : forall v,
            SimpleVector.size_ v = SimpleVector.capacity_ v ->
            next_capacity v
            = grown (SimpleVector.size_ v) (SimpleVector.capacity_ v)).
  { intros v Hv. unfold next_capacity.
    by destruct (Z.ltb_spec (SimpleVector.size_ v) (SimpleVector.capacity_ v));
      [lia|]. }
  split; [|split].
  - intros h v x Hok Hfl Hmax.
    destruct (PushBack_spec dflt moved_from h v x Hok)
      as (v' & h' & Hrun & _ & _ & Hc & _); [by rewrite Hfull|].
    exists v', h'. split; [done|]. split; [done|].
    by rewrite Hc, Hfull.
  - intros h v x i Hok Hfl Hi Hmax. split.
    + destruct (Insert_middle dflt moved_from h v x i Hok Hi)
        as (v' & h' & Hrun & _ & _ & Hc & _); [by rewrite Hfull|].
      eexists _, v', h'. split; [done|]. by rewrite Hc, Hfull.
    + destruct (Insert_rv_middle dflt moved_from h v x i Hok Hi)
        as (v' & h' & Hrun & _ & _ & Hc & _); [by rewrite Hfull|].
      eexists _, v', h'. split; [done|]. by rewrite Hc, Hfull.
  - intros h xs Hxs Hmax.
    assert (Hlen : Z.of_nat (length xs) <> 0) by (by destruct xs).
    assert (Hcop : capacity_of_pushes (0 + Z.of_nat (length xs))
                   = 2 ^ Z.log2_up (Z.of_nat (length xs))).
    { unfold capacity_of_pushes. rewrite Z.add_0_l.
      by destruct (Z.eqb_spec (Z.of_nat (length xs)) 0). }
    destruct (push_all_spec dflt moved_from xs SimpleVector.default h)
      as (v' & h' & Hrun & _ & Hs & Hc & _).
    + apply vec_ok_shape. apply shape_null.
    + done.
    + simpl. by rewrite Hcop.
    + exists v', h'. split; [done|]. simpl in Hs, Hc.
      rewrite Hs, Hc, Hcop. split; [lia|done].
Qed.


(** C2. In every state a program reaches through the constructors,
    [PushBack], [PopBack], [Insert], [Erase], [Resize], [Reserve], [Clear],
    [swap] and the copy and move assignments, every vector has
    [size_ <= capacity_]; and every such call that returns preserves it,
    for members that hold values of [size_t].  More is true: [capacity_] is
    the number of slots of the array the vector owns, and no two vectors own
    the same array ([prog_ok]), in every reachable state and across every
    call. *)
Theorem C2_size_le_capacity :
  (forall s, reachable dflt moved_from s -> Forall size_le_capacity (fst s)) /\
  (forall s s',
     step dflt moved_from s s' ->
     Forall fields_ok (fst s) -> Forall fields_ok (fst s')) /\
  (forall v, fields_ok v -> size_le_capacity v) /\
  (forall s, reachable dflt moved_from s -> prog_ok s) /\
  (forall s s', step dflt moved_from s s' -> prog_ok s -> prog_ok s').
Proof.
  assert (Hprog : forall s s',
            step dflt moved_from s s' -> prog_ok s -> prog_ok s').
  { intros [s h] [s' h'] [c Hc] Hs. simpl in *.
    by eapply (exec_prog_ok dflt moved_from c s h s' h'). }
  assert (Hstep : forall s s',
            step dflt moved_from s s' ->
            Forall fields_ok (fst s) -> Forall fields_ok (fst s')).
  { intros [s h] [s' h'] [c Hc] Hs. simpl in *.
    by eapply (exec_fields dflt moved_from c s h s' h'). }
  assert (Hle : forall v, fields_ok v -> size_le_capacity v).
  { intros v ((_ & Hv) & _). exact Hv. }
  split; [|split; [exact Hstep|split; [exact Hle|split; [|exact Hprog]]]];
    [|intros s; apply reachable_prog_ok].
  intros s Hreach.
  enough (Forall fields_ok (fst s)) as Hall
    by (eapply Forall_impl; [exact Hall|exact Hle]).
  unfold reachable in Hreach.
  eapply (rtc_ind_r (fun s0 => Forall fields_ok (fst s0))); [| |exact Hreach].
  - by apply Forall_nil.
  - intros s1 s2 _ Hs12 IH. by eapply Hstep.
Qed.

(** C3. [Resize(n)] by cases.  If [n > capacity]: the capacity becomes
    [max(n, max(capacity * 2, 1))], the elements are kept in order and
    followed by default values up to the new size [n] (provided the
    allocation succeeds).  If [size < n <= capacity]: the same sequence and
    size, and the vector is otherwise unchanged.  If [n <= size]: the size
    becomes [n], the first [n] elements and the rest of the vector are
    unchanged, and so is the heap. *)
Theorem C3_Resize_cases :
  (forall h v n,
     vec_ok h v -> SimpleVector.capacity_ v < n ->
     Z.max n (Z.max (SimpleVector.capacity_ v * 2) 1) <= max_array_len ->
     exists v' h',
       SimpleVector.Resize dflt moved_from n v h = Ok (v', h') /\
       SimpleVector.capacity_ v'
         = Z.max n (Z.max (SimpleVector.capacity_ v * 2) 1) /\
       SimpleVector.size_ v' = n /\
       elems h' v'
         = elems h v ++ replicate (Z.to_nat (n - SimpleVector.size_ v)) dflt) /\
  (forall h v n,
     vec_ok h v -> SimpleVector.size_ v < n <= SimpleVector.capacity_ v ->
     exists h',
       SimpleVector.Resize dflt moved_from n v h
         = Ok (SimpleVector.set_size n v, h') /\
       elems h' (SimpleVector.set_size n v)
         = elems h v ++ replicate (Z.to_nat (n - SimpleVector.size_ v)) dflt) /\
  (forall h v n,
     vec_ok h v -> 0 <= n <= SimpleVector.size_ v ->
     SimpleVector.Resize dflt moved_from n v h
       = Ok (SimpleVector.set_size n v, h) /\
     elems h (SimpleVector.set_size n v) = take (Z.to_nat n) (elems h v)).
Proof.
  split; [|split].
  - intros h v n Hok Hn Hmax.
    pose proof (vec_ok_fields _ _ Hok) as Hf.
    assert (Hnc : Z.max n (Z.max (SimpleVector.capacity_ v * 2) 1)
                  = Z.max n (if SimpleVector.capacity_ v =? 0 then 1
                             else SimpleVector.capacity_ v * 2)).
    { destruct (Z.eqb_spec (SimpleVector.capacity_ v) 0); lia. }
    rewrite Hnc in *.
    destruct (Resize_grow dflt moved_from h v n Hok Hn Hmax)
      as (v' & h' & Hrun & Hok' & Hs' & Hc' & Hbuf).
    exists v', h'. split; [done|]. split; [done|]. split; [done|].
    unfold elems at 1. rewrite Hbuf, Hs'.
    assert (Hlen : length (elems h v) = Z.to_nat (SimpleVector.size_ v))
      by (by apply length_elems).
    replace (Z.to_nat n)
      with (length (elems h v) + Z.to_nat (n - SimpleVector.size_ v))%nat
      by lia.
    rewrite take_app_add, take_replicate. do 2 f_equal. lia.
  - intros h v n Hok Hn.
    destruct (Resize_expose dflt moved_from h v n Hok Hn) as (h' & Hrun & _ & He).
    by exists h'.
  - intros h v n Hok Hn.
    by destruct (Resize_shrink dflt moved_from h v n Hok Hn) as (Hrun & _ & He).
Qed.

(** C4. [Insert] at [end()] is [PushBack] followed by [end() - 1], for each
    overload; when the [PushBack] returns, both leave the same vector and
    heap, the element sequence is the old one followed by [x], and the
    iterator returned is the address of the new last element, which
    holds [x]. *)
Theorem C4_Insert_at_end_is_PushBack :
  (forall h v x,
     0 <= SimpleVector.size_ v ->
     SimpleVector.Insert dflt moved_from (SimpleVector.end_ v) x v h
     = let! (v1, h1) := SimpleVector.PushBack dflt moved_from x v h in
       Ok (ptr_add (SimpleVector.end_ v1) (-1), v1, h1)) /\
  (forall h v x,
     SimpleVector.Insert_rv dflt moved_from (SimpleVector.end_ v) x v h
     = let! (v1, h1) := SimpleVector.PushBack_rv dflt moved_from x v h in
       Ok (ptr_add (SimpleVector.end_ v1) (-1), v1, h1)) /\
  (forall h v x,
     vec_ok h v -> next_capacity v <= max_array_len ->
     exists v' h',
       SimpleVector.PushBack dflt moved_from x v h = Ok (v', h') /\
       SimpleVector.PushBack_rv dflt moved_from x v h = Ok (v', h') /\
       SimpleVector.Insert dflt moved_from (SimpleVector.end_ v) x v h
         = Ok (ptr_add (SimpleVector.end_ v') (-1), v', h') /\
       SimpleVector.Insert_rv dflt moved_from (SimpleVector.end_ v) x v h
         = Ok (ptr_add (SimpleVector.end_ v') (-1), v', h') /\
       SimpleVector.size_ v' = SimpleVector.size_ v + 1 /\
       elems h' v' = elems h v ++ [x] /\
       ptr_add (SimpleVector.end_ v') (-1)
         = ptr_add (SimpleVector.begin v') (SimpleVector.size_ v' - 1) /\
       load (ptr_add (SimpleVector.end_ v') (-1)) h' = Ok x).
Proof.
  split; [|split].
  - intros h v x Hs. by apply Insert_end.
  - intros h v x. apply Insert_rv_end.
  - intros h v x Hok Hcap. pose proof (vec_ok_fields _ _ Hok) as Hf.
    destruct (PushBack_spec dflt moved_from h v x Hok Hcap)
      as (v' & h' & Hrun & Hok' & Hs' & Hc' & He' & _).
    exists v', h'. split; [done|]. split; [done|].
    rewrite Insert_end, Insert_rv_end by lia.
    change (SimpleVector.PushBack_rv dflt moved_from x v h)
      with (SimpleVector.PushBack dflt moved_from x v h).
    rewrite Hrun; simpl.
    split; [done|]. split; [done|]. split; [done|]. split; [done|].
    assert (Hit : ptr_add (SimpleVector.end_ v') (-1)
                  = ptr_add (SimpleVector.begin v')
                      (Z.of_nat (Z.to_nat (SimpleVector.size_ v)))).
    { unfold SimpleVector.end_, SimpleVector.begin, ptr_add; simpl.
      f_equal. lia. }
    split.
    + rewrite Hit. f_equal. lia.
    + rewrite Hit. apply load_elem; [done|].
      rewrite He'.
      rewrite lookup_app_r by (rewrite length_elems by done; lia).
      by rewrite length_elems, Nat.sub_diag by done.
Qed.


(** C5. [Erase] at the position of index [i] of a vector, [i < size]: the
    elements after it move one slot down in order, the elements before it
    and the capacity are unchanged, the size decreases by one, and the
    iterator returned is the address of slot [i], which now holds the
    element that followed the erased one, and which is [end()] exactly when
    the erased element was the last one. *)
Theorem C5_Erase :
  forall h v (i : nat),
    vec_ok h v -> Z.of_nat i < SimpleVector.size_ v ->
    exists it v' h',
      SimpleVector.Erase moved_from
        (ptr_add (SimpleVector.begin v) (Z.of_nat i)) v h = Ok (it, v', h') /\
      it = ptr_add (SimpleVector.begin v') (Z.of_nat i) /\
      SimpleVector.items_ v' = SimpleVector.items_ v /\
      SimpleVector.capacity_ v' = SimpleVector.capacity_ v /\
      SimpleVector.size_ v' = SimpleVector.size_ v - 1 /\
      elems h' v' = take i (elems h v) ++ drop (S i) (elems h v) /\
      (forall j : nat, (j < i)%nat -> elems h' v' !! j = elems h v !! j) /\
      (forall j : nat, (i <= j)%nat -> elems h' v' !! j = elems h v !! S j) /\
      (forall y, elems h v !! S i = Some y -> load it h' = Ok y) /\
      (it = SimpleVector.end_ v' <-> Z.of_nat (S i) = SimpleVector.size_ v).
Proof.
  intros h v i Hok Hi.
  destruct (Erase_spec moved_from h v i Hok Hi) as (h' & Hrun & Hok' & He).
  assert (Hlen : length (elems h v) = Z.to_nat (SimpleVector.size_ v))
    by (by apply length_elems).
  assert (Hbefore : forall j : nat, (j < i)%nat ->
            elems h' (SimpleVector.set_size (SimpleVector.size_ v - 1) v) !! j
            = elems h v !! j).
  { intros j Hj. rewrite He.
    rewrite lookup_app_l by (rewrite length_take; lia).
    by rewrite lookup_take_lt. }
  assert (Hafter : forall j : nat, (i <= j)%nat ->
            elems h' (SimpleVector.set_size (SimpleVector.size_ v - 1) v) !! j
            = elems h v !! S j).
  { intros j Hj. rewrite He.
    rewrite lookup_app_r by (rewrite length_take; lia).
    rewrite lookup_drop, length_take. f_equal. lia. }
  eexists _, _, h'. split; [exact Hrun|].
  split; [done|]. split; [done|]. split; [done|]. split; [done|].
  split; [done|]. split; [done|]. split; [done|]. split.
  - intros y Hy.
    apply (load_elem h' (SimpleVector.set_size (SimpleVector.size_ v - 1) v));
      [done|].
    by rewrite Hafter.
  - unfold SimpleVector.end_, SimpleVector.begin, ptr_add; simpl. split.
    + intros [= Heq]. lia.
    + intros Heq. f_equal. lia.
Qed.

(** C6 (amended). [At(i)] throws [std::out_of_range] exactly when
    [i >= size]; when [i < size] it returns the address of the element of
    index [i]; whatever it returns, it leaves the vector and the heap as
    they were.  No other call of the interface throws
    [std::out_of_range]: the only error a caller can catch from them is the
    [std::bad_alloc] of a failed allocation. *)
Theorem C6_At :
  (forall i v h,
     fst (SimpleVector.At i v h) = Err out_of_range
     <-> SimpleVector.size_ v <= i) /\
  (forall i v h,
     i < SimpleVector.size_ v ->
     fst (SimpleVector.At i v h) = Ok (ptr_add (SimpleVector.begin v) i)) /\
  (forall (j : nat) v h y,
     vec_ok h v -> elems h v !! j = Some y ->
     exists p, fst (SimpleVector.At (Z.of_nat j) v h) = Ok p /\
               load p h = Ok y) /\
  (forall i v h, snd (SimpleVector.At i v h) = (v, h)) /\
  (forall (c : SimpleVector.call) s h,
     SimpleVector.exec dflt moved_from c s h <> Err out_of_range) /\
  (forall (c : SimpleVector.call) s h e,
     SimpleVector.exec dflt moved_from c s h = Err e ->
     catchable e = true -> e = bad_alloc).
Proof.
  assert (Hin : forall i v h,
            i < SimpleVector.size_ v ->
            fst (SimpleVector.At i v h)
            = Ok (ptr_add (SimpleVector.begin v) i)).
  { intros i v h Hi. unfold SimpleVector.At.
    by destruct (Z.geb_spec i (SimpleVector.size_ v)); [lia|]. }
  split; [|split; [exact Hin|split; [|split; [|split]]]].
  - intros i v h. unfold SimpleVector.At.
    destruct (Z.geb_spec i (SimpleVector.size_ v)); simpl; split;
      (done || lia).
  - intros j v h y Hok Hy.
    assert (Hj : Z.of_nat j < SimpleVector.size_ v).
    { apply lookup_lt_Some in Hy. rewrite length_elems in Hy by done.
      pose proof (vec_ok_fields _ _ Hok). lia. }
    eexists. split; [by apply Hin|]. by apply load_elem.
  - intros i v h. unfold SimpleVector.At. by case_match.
  - intros c s h. apply exec_noor.
  - intros c s h e Hrun Hcatch.
    destruct e; try done.
    by destruct (exec_noor dflt moved_from c s h).
Qed.

(** C7. [Reserve(k)] changes nothing when [k <= capacity]; when
    [k > capacity] (and the allocation succeeds) the capacity becomes
    exactly [k], the size is unchanged and the elements are kept in
    order. *)
Theorem C7_Reserve :
  (forall h v k,
     k <= SimpleVector.capacity_ v ->
     SimpleVector.Reserve dflt moved_from k v h = Ok (v, h)) /\
  (forall h v k,
     vec_ok h v -> SimpleVector.capacity_ v < k <= max_array_len ->
     exists v' h',
       SimpleVector.Reserve dflt moved_from k v h = Ok (v', h') /\
       SimpleVector.capacity_ v' = k /\
       SimpleVector.size_ v' = SimpleVector.size_ v /\
       elems h' v' = elems h v).
Proof.
  split.
  - intros h v k Hk. by apply Reserve_noop.
  - intros h v k Hok Hk.
    destruct (Reserve_grow dflt moved_from h v k Hok Hk)
      as (v' & h' & Hrun & _ & Hs & Hc & He).
    by exists v', h'.
Qed.

(** C9. On a vector with room for one more element, [Insert] at a position
    of [[begin, end]], of either overload, followed by [Erase] at the
    iterator the [Insert] returned, gives back the element sequence and the
    size (and the buffer and the capacity). *)
Theorem C9_Insert_then_Erase :
  forall h v x (i : nat),
    vec_ok h v -> Z.of_nat i <= SimpleVector.size_ v ->
    SimpleVector.size_ v < SimpleVector.capacity_ v ->
    (exists it v1 h1 it2 v2 h2,
       SimpleVector.Insert dflt moved_from
         (ptr_add (SimpleVector.begin v) (Z.of_nat i)) x v h
         = Ok (it, v1, h1) /\
       SimpleVector.Erase moved_from it v1 h1 = Ok (it2, v2, h2) /\
       elems h2 v2 = elems h v /\
       SimpleVector.size_ v2 = SimpleVector.size_ v /\
       SimpleVector.capacity_ v2 = SimpleVector.capacity_ v /\
       SimpleVector.items_ v2 = SimpleVector.items_ v) /\
    (exists it v1 h1 it2 v2 h2,
       SimpleVector.Insert_rv dflt moved_from
         (ptr_add (SimpleVector.begin v) (Z.of_nat i)) x v h
         = Ok (it, v1, h1) /\
       SimpleVector.Erase moved_from it v1 h1 = Ok (it2, v2, h2) /\
       elems h2 v2 = elems h v /\
       SimpleVector.size_ v2 = SimpleVector.size_ v /\
       SimpleVector.capacity_ v2 = SimpleVector.capacity_ v /\
       SimpleVector.items_ v2 = SimpleVector.items_ v).
Proof.
  intros h v x i Hok Hi Hroom.
  pose proof (vec_ok_fields _ _ Hok) as Hf.
  assert (Hcap : next_capacity v = SimpleVector.capacity_ v).
  { unfold next_capacity.
    by destruct (Z.ltb_spec (SimpleVector.size_ v) (SimpleVector.capacity_ v));
      [|lia]. }
  assert (Hlen : (i <= length (elems h v))%nat)
    by (rewrite length_elems by done; lia).
  assert (Hback : forall v1 h1,
            vec_ok h1 v1 ->
            SimpleVector.size_ v1 = SimpleVector.size_ v + 1 ->
            SimpleVector.capacity_ v1 = next_capacity v ->
            elems h1 v1 = take i (elems h v) ++ x :: drop i (elems h v) ->
            SimpleVector.items_ v1 = SimpleVector.items_ v ->
            exists it2 v2 h2,
              SimpleVector.Erase moved_from
                (ptr_add (SimpleVector.begin v1) (Z.of_nat i)) v1 h1
                = Ok (it2, v2, h2) /\
              elems h2 v2 = elems h v /\
              SimpleVector.size_ v2 = SimpleVector.size_ v /\
              SimpleVector.capacity_ v2 = SimpleVector.capacity_ v /\
              SimpleVector.items_ v2 = SimpleVector.items_ v).
  { intros v1 h1 Hok1 Hs1 Hc1 He1 Hi1.
    destruct (Erase_spec moved_from h1 v1 i Hok1) as (h2 & Hrun & _ & He2);
      [lia|].
    eexists _, _, h2. split; [exact Hrun|].
    rewrite He2, He1, erase_inserted by done. simpl.
    split; [done|]. split; [lia|]. split; [by rewrite Hc1, Hcap|done]. }
  assert (Hmax : next_capacity v <= max_array_len)
    by (rewrite Hcap, max_array_len_val; lia).
  split.
  - destruct (Insert_spec dflt moved_from h v x i Hok Hi Hmax)
      as (v1 & h1 & Hrun & Hok1 & Hs1 & Hc1 & He1 & Hsame).
    destruct (Hback v1 h1 Hok1 Hs1 Hc1 He1 (Hsame Hroom))
      as (it2 & v2 & h2 & Hrun2 & Hres).
    by eexists _, v1, h1, it2, v2, h2.
  - destruct (Insert_rv_spec dflt moved_from h v x i Hok Hi Hmax)
      as (v1 & h1 & Hrun & Hok1 & Hs1 & Hc1 & He1 & Hsame).
    destruct (Hback v1 h1 Hok1 Hs1 Hc1 He1 (Hsame Hroom))
      as (it2 & v2 & h2 & Hrun2 & Hres).
    by eexists _, v1, h1, it2, v2, h2.
Qed.

(** C10. Copy assignment and move assignment of a vector to itself return
    at once: every vector of the program and the heap are as before, so the
    size, the capacity, the elements and the buffer of the vector are
    unchanged. *)
Theorem C10_self_assignment :
  forall (this : nat) (s : list SimpleVector.t) h,
    SimpleVector.copy_assign dflt this this s h = Ok (s, h) /\
    SimpleVector.move_assign this this s h = Ok (s, h) /\
    (is_Some (s !! this) ->
     SimpleVector.exec dflt moved_from
       (SimpleVector.call_copy_assign this this) s h = Ok (s, h) /\
     SimpleVector.exec dflt moved_from
       (SimpleVector.call_move_assign this this) s h = Ok (s, h)).
Proof.
  intros this s h.
  assert (Hcopy : SimpleVector.copy_assign dflt this this s h = Ok (s, h)).
  { unfold SimpleVector.copy_assign. by rewrite decide_True. }
  assert (Hmove : SimpleVector.move_assign this this s h = Ok (s, h)).
  { unfold SimpleVector.move_assign. by rewrite decide_True. }
  split; [done|]. split; [done|].
  intros [v Hv]. unfold SimpleVector.exec. by rewrite Hv.
Qed.

End Claims.

(** * The claims on examples *)

Lemma example_full_ok : vec_ok example_heap example_full.
Proof.
  unfold vec_ok, example_full, example_heap; simpl.
  rewrite max_array_len_val. repeat split; try lia.
  eexists. split; reflexivity.
Defined.

Lemma example_vector_ok : vec_ok example_heap example_vector.
Proof.
  unfold vec_ok, example_vector, example_heap; simpl.
  rewrite max_array_len_val. repeat split; try lia.
  eexists. split; reflexivity.
Defined.

Lemma example_state_reachable :
  reachable int_default int_moved_from example_state.
Proof.
  unfold reachable.
  eapply rtc_l; [exists SimpleVector.new_default; reflexivity|].
  eapply rtc_l; [exists (SimpleVector.call_PushBack 0 7); reflexivity|].
  apply rtc_refl.
Defined.

(** The example of the specification: [PushBack] of 1, 2, 3 on an empty
    vector, [Insert(begin() + 1, 99)], then [Erase(begin() + 1)]. *)
Example spec_example :
  exists v3 h3 it4 v4 h4 it5 v5 h5,
    push_all int_default int_moved_from [1; 2; 3] SimpleVector.default []
      = Ok (v3, h3) /\
    SimpleVector.size_ v3 = 3 /\ SimpleVector.capacity_ v3 = 4 /\
    SimpleVector.Insert int_default int_moved_from
      (ptr_add (SimpleVector.begin v3) 1) 99 v3 h3 = Ok (it4, v4, h4) /\
    elems h4 v4 = [1; 99; 2; 3] /\ SimpleVector.size_ v4 = 4 /\
    SimpleVector.Erase int_moved_from
      (ptr_add (SimpleVector.begin v4) 1) v4 h4 = Ok (it5, v5, h5) /\
    elems h5 v5 = [1; 2; 3] /\ SimpleVector.size_ v5 = 3.
Proof. by repeat eexists. Qed.

Lemma C1_witness :
  (exists v' h',
     SimpleVector.PushBack int_default int_moved_from 50
       example_full example_heap = Ok (v', h') /\
     SimpleVector.capacity_ v' = 8) /\
  (exists it v' h',
     SimpleVector.Insert int_default int_moved_from
       (ptr_add (SimpleVector.begin example_full) 1) 50
       example_full example_heap = Ok (it, v', h') /\
     SimpleVector.capacity_ v' = 8) /\
  (exists v' h',
     push_all int_default int_moved_from [1; 2; 3; 4; 5]
       SimpleVector.default [] = Ok (v', h') /\
     SimpleVector.capacity_ v' = 8).
Proof.
  destruct (C1_growth_policy int_default int_moved_from)
    as (Hpush & Hinsert & Hseq).
  split; [|split].
  - destruct (Hpush example_heap example_full 50 example_full_ok)
      as (v' & h' & Hrun & _ & Hc); [reflexivity|by vm_compute|].
    exists v', h'. split; [exact Hrun|exact Hc].
  - destruct (Hinsert example_heap example_full 50 1%nat example_full_ok)
      as [(it & v' & h' & Hrun & Hc) _];
      [reflexivity|simpl; lia|by vm_compute|].
    exists it, v', h'. split; [exact Hrun|exact Hc].
  - destruct (Hseq [] [1; 2; 3; 4; 5]) as (v' & h' & Hrun & _ & Hc);
      [done|by vm_compute|].
    exists v', h'. split; [exact Hrun|exact Hc].
Defined.

Lemma C2_witness : Forall size_le_capacity (fst example_state).
Proof.
  apply (proj1 (C2_size_le_capacity int_default int_moved_from)).
  exact example_state_reachable.
Defined.

Lemma C3_witness :
  (exists v' h',
     SimpleVector.Resize int_default int_moved_from 6
       example_vector example_heap = Ok (v', h') /\
     SimpleVector.capacity_ v' = 8 /\
     elems h' v' = [10; 20; 30; 0; 0; 0]) /\
  (exists h',
     SimpleVector.Resize int_default int_moved_from 4
       example_vector example_heap
       = Ok (SimpleVector.set_size 4 example_vector, h') /\
     elems h' (SimpleVector.set_size 4 example_vector) = [10; 20; 30; 0]) /\
  SimpleVector.Resize int_default int_moved_from 1
    example_vector example_heap
    = Ok (SimpleVector.set_size 1 example_vector, example_heap).
Proof.
  destruct (C3_Resize_cases int_default int_moved_from)
    as (Hgrow & Hexpose & Hshrink).
  split; [|split].
  - destruct (Hgrow example_heap example_vector 6 example_vector_ok)
      as (v' & h' & Hrun & Hc & _ & He); [simpl; lia|by vm_compute|].
    exists v', h'. split; [exact Hrun|]. split; [exact Hc|exact He].
  - destruct (Hexpose example_heap example_vector 4 example_vector_ok)
      as (h' & Hrun & He); [simpl; lia|].
    exists h'. split; [exact Hrun|exact He].
  - destruct (Hshrink example_heap example_vector 1 example_vector_ok)
      as (Hrun & _); [simpl; lia|].
    exact Hrun.
Defined.

Lemma C4_witness :
  exists v' h',
    SimpleVector.PushBack int_default int_moved_from 50
      example_vector example_heap = Ok (v', h') /\
    SimpleVector.Insert int_default int_moved_from
      (SimpleVector.end_ example_vector) 50 example_vector example_heap
      = Ok (ptr_add (SimpleVector.end_ v') (-1), v', h') /\
    elems h' v' = [10; 20; 30; 50].
Proof.
  destruct (C4_Insert_at_end_is_PushBack int_default int_moved_from)
    as (_ & _ & Hend).
  destruct (Hend example_heap example_vector 50 example_vector_ok)
    as (v' & h' & Hpush & _ & Hinsert & _ & _ & He & _); [by vm_compute|].
  exists v', h'. split; [exact Hpush|]. split; [exact Hinsert|exact He].
Defined.

Lemma C5_witness :
  exists it v' h',
    SimpleVector.Erase int_moved_from
      (ptr_add (SimpleVector.begin example_vector) 1)
      example_vector example_heap = Ok (it, v', h') /\
    elems h' v' = [10; 30].
Proof.
  destruct (C5_Erase int_moved_from example_heap example_vector 1%nat
              example_vector_ok)
    as (it & v' & h' & Hrun & _ & _ & _ & _ & He & _); [simpl; lia|].
  exists it, v', h'. split; [exact Hrun|exact He].
Defined.

Lemma C6_witness :
  exists p,
    fst (SimpleVector.At 1 example_vector example_heap) = Ok p /\
    load p example_heap = Ok 20.
Proof.
  destruct (C6_At int_default int_moved_from) as (_ & _ & Hload & _).
  exact (Hload 1%nat example_vector example_heap 20 example_vector_ok
           eq_refl).
Defined.

Lemma C7_witness :
  exists v' h',
    SimpleVector.Reserve int_default int_moved_from 5
      example_vector example_heap = Ok (v', h') /\
    SimpleVector.capacity_ v' = 5 /\
    elems h' v' = [10; 20; 30].
Proof.
  destruct (C7_Reserve int_default int_moved_from) as (_ & Hgrow).
  destruct (Hgrow example_heap example_vector 5 example_vector_ok)
    as (v' & h' & Hrun & Hc & _ & He); [by vm_compute|].
  exists v', h'. split; [exact Hrun|]. split; [exact Hc|exact He].
Defined.

Lemma C9_witness :
  exists it v1 h1 it2 v2 h2,
    SimpleVector.Insert int_default int_moved_from
      (ptr_add (SimpleVector.begin example_vector) 1) 99
      example_vector example_heap = Ok (it, v1, h1) /\
    SimpleVector.Erase int_moved_from it v1 h1 = Ok (it2, v2, h2) /\
    elems h2 v2 = [10; 20; 30].
Proof.
  destruct (C9_Insert_then_Erase int_default int_moved_from
              example_heap example_vector 99 1%nat example_vector_ok)
    as [(it & v1 & h1 & it2 & v2 & h2 & Hins & Hers & He & _) _];
    [simpl; lia|simpl; lia|].
  exists it, v1, h1, it2, v2, h2.
  split; [exact Hins|]. split; [exact Hers|exact He].
Defined.

Lemma C10_witness :
  SimpleVector.exec int_default int_moved_from
    (SimpleVector.call_copy_assign 0 0) (fst example_state)
    (snd example_state) = Ok example_state /\
  SimpleVector.exec int_default int_moved_from
    (SimpleVector.call_move_assign 0 0) (fst example_state)
    (snd example_state) = Ok example_state.
Proof.
  destruct (C10_self_assignment int_default int_moved_from 0%nat
              (fst example_state) (snd example_state)) as (_ & _ & Hexec).
  apply Hexec. eexists. reflexivity.
Defined.

(** C6, as the specification words it, fails: [Resize] to [SIZE_MAX]
    elements throws [std::bad_alloc], which a caller can catch. *)
Lemma C6_counterexample : ~ only_At_throws int_default int_moved_from.
Proof.
  intros Honly.
  specialize (Honly (SimpleVector.call_Resize 0 (2 ^ 64 - 1))
                [SimpleVector.default] [] bad_alloc eq_refl).
  discriminate Honly.
Qed.

(** C8 is violated by a move assignment of an owner from itself:
    [ArrayPtr<int> a(3); a = std::move(a);] deletes the array and leaves
    [a] with its address, so [a] is not empty, and its destructor deletes
    the array a second time. *)
Theorem C8_self_move_assign_dangles :
  ArrayPtr.move_assign
    (cell ArrayPtr.default 0) (cell ArrayPtr.default 0)
    example_owner example_owned
  = Ok (example_owner, [None]) /\
  ArrayPtr.to_bool (default ArrayPtr.default (example_owner !! 0%nat)) = true /\
  ArrayPtr.destroy (default ArrayPtr.default (example_owner !! 0%nat))
    ([None] : list (option (list Z)))
  = Err undefined_behavior.
Proof. repeat split. Qed.

(** * More of the code: constructors, assignment, comparison, ownership *)

(** ** What the filling and copying loops leave in the array *)

Section Construction.
Context {T : Type}.
Variable dflt : T.
Variable moved_from : T -> T.
Local Abbreviation heap := (list (option (list T))).
Implicit Types (h : heap) (l : list T) (v : SimpleVector.t) (x : T).

Local Arguments size_t : simpl never.
Local Arguments ptr_diff : simpl never.

(** [std::fill] of [n] slots from slot [k] on. *)
Lemma fill_loop_spec (b : nat) x (n : nat) : forall (k : nat) l h,
  h !! b = Some (Some l) -> (k + n <= length l)%nat ->
  exists l',
    SimpleVector.fill_loop n (Ptr (Some b) (Z.of_nat k)) x h
    = Ok (<[b := Some l']> h) /\
    length l' = length l /\
    take (k + n) l' = take k l ++ replicate n x /\
    drop (k + n) l' = drop (k + n) l.
Proof.
  induction n as [|n IH]; intros k l h Hb Hlen.
  - exists l. simpl. rewrite Nat.add_0_r, app_nil_r.
    by rewrite (heap_insert_id _ _ _ Hb).
  - simpl. rewrite (store_at _ _ l) by (done || lia). simpl.
    rewrite ptr_add_next.
    set (l1 := <[k := x]> l).
    destruct (IH (S k) l1 (<[b := Some l1]> h))
      as (l' & Hrun & Hl' & Htake & Hdrop).
    { by eapply heap_lookup_insert. }
    { subst l1. rewrite length_insert. lia. }
    exists l'. rewrite Hrun, list_insert_insert_eq.
    replace (S k + n)%nat with (k + S n)%nat in * by lia.
    split; [done|]. split.
    { rewrite Hl'. subst l1. by rewrite length_insert. }
    split.
    + rewrite Htake. subst l1.
      rewrite (take_S_r _ _ x) by (apply list_lookup_insert_eq; lia).
      rewrite take_insert_ge by lia.
      by rewrite <- app_assoc.
    + rewrite Hdrop. subst l1. by rewrite drop_insert_lt by lia.
Qed.

(** [std::copy] from an initializer list to the slots from slot [k] on. *)
Lemma copy_init_spec (b : nat) init : forall (k : nat) l h,
  h !! b = Some (Some l) -> (k + length init <= length l)%nat ->
  exists l',
    SimpleVector.copy_init init (Ptr (Some b) (Z.of_nat k)) h
    = Ok (Ptr (Some b) (Z.of_nat (k + length init)), <[b := Some l']> h) /\
    length l' = length l /\
    take (k + length init) l' = take k l ++ init /\
    drop (k + length init) l' = drop (k + length init) l.
Proof.
  induction init as [|x init IH]; intros k l h Hb Hlen.
  - exists l. simpl. rewrite Nat.add_0_r, app_nil_r.
    by rewrite (heap_insert_id _ _ _ Hb).
  - simpl in *. rewrite (store_at _ _ l) by (done || lia). simpl.
    rewrite ptr_add_next.
    set (l1 := <[k := x]> l).
    destruct (IH (S k) l1 (<[b := Some l1]> h))
      as (l' & Hrun & Hl' & Htake & Hdrop).
    { by eapply heap_lookup_insert. }
    { subst l1. rewrite length_insert. lia. }
    exists l'. rewrite Hrun, list_insert_insert_eq.
    replace (S k + length init)%nat with (k + S (length init))%nat in * by lia.
    split; [done|]. split.
    { rewrite Hl'. subst l1. by rewrite length_insert. }
    split.
    + rewrite Htake. subst l1.
      rewrite (take_S_r _ _ x) by (apply list_lookup_insert_eq; lia).
      rewrite take_insert_ge by lia.
      by rewrite <- app_assoc.
    + rewrite Hdrop. subst l1. by rewrite drop_insert_lt by lia.
Qed.

(** [std::copy] of [n] elements from slot [k] on of one array to the slots
    from slot [k] on of another: the source is only read. *)
Lemma copy_loop_across (bs bd : nat) (n : nat) : forall (k : nat) ls ld h,
  bs <> bd ->
  h !! bs = Some (Some ls) -> h !! bd = Some (Some ld) ->
  (k + n <= length ls)%nat -> (k + n <= length ld)%nat ->
  exists ld',
    SimpleVector.copy_loop n
      (Ptr (Some bs) (Z.of_nat k)) (Ptr (Some bd) (Z.of_nat k)) h
    = Ok (Ptr (Some bd) (Z.of_nat (k + n)), <[bd := Some ld']> h) /\
    length ld' = length ld /\
    take (k + n) ld' = take k ld ++ take n (drop k ls) /\
    drop (k + n) ld' = drop (k + n) ld.
Proof.
  induction n as [|n IH]; intros k ls ld h Hne Hs Hd Hls Hld.
  - exists ld. simpl. rewrite Nat.add_0_r, app_nil_r.
    by rewrite (heap_insert_id _ _ _ Hd).
  - destruct (lookup_lt_is_Some_2 ls k) as [x Hx]; [lia|].
    simpl. rewrite (load_at _ _ _ _ _ Hs Hx). simpl.
    rewrite (store_at _ _ ld) by (done || lia). simpl.
    rewrite !ptr_add_next.
    set (ld1 := <[k := x]> ld).
    destruct (IH (S k) ls ld1 (<[bd := Some ld1]> h))
      as (ld' & Hrun & Hld' & Htake & Hdrop); [done|..].
    { by rewrite list_lookup_insert_ne. }
    { by eapply heap_lookup_insert. }
    { lia. }
    { subst ld1. rewrite length_insert. lia. }
    exists ld'. rewrite Hrun, list_insert_insert_eq.
    replace (S k + n)%nat with (k + S n)%nat in * by lia.
    split; [done|].
    split; [by rewrite Hld'; subst ld1; rewrite length_insert|].
    split.
    + rewrite Htake. subst ld1.
      rewrite (take_S_r _ _ x) by (apply list_lookup_insert_eq; lia).
      rewrite take_insert_ge by lia.
      rewrite (drop_S ls x k) by done.
      by rewrite <- app_assoc.
    + rewrite Hdrop. subst ld1. by rewrite drop_insert_lt by lia.
Qed.

(** The allocation of an [ArrayPtr] of [n] elements. *)
Lemma ArrayPtr_sized_zero h : ArrayPtr.sized dflt 0 h = Ok (ArrayPtr.default, h).
Proof. done. Qed.

Lemma ArrayPtr_sized_pos n h :
  0 < n <= max_array_len ->
  ArrayPtr.sized dflt n h
  = Ok (ArrayPtr.Make (Ptr (Some (length h)) 0),
        h ++ [Some (replicate (Z.to_nat n) dflt)]).
Proof.
  intros Hn. unfold ArrayPtr.sized, new_array.
  destruct (Z.gtb_spec n 0); [|lia].
  by destruct (Z.leb_spec n max_array_len); [|lia].
Qed.

Lemma ArrayPtr_sized_big n h :
  max_array_len < n -> ArrayPtr.sized dflt n h = Err bad_alloc.
Proof.
  intros Hn. unfold ArrayPtr.sized, new_array.
  rewrite max_array_len_val in *.
  destruct (Z.gtb_spec n 0); [|lia].
  by destruct (Z.leb_spec n 9223372036854775807); [lia|].
Qed.

(** The blocks of a heap are where they were after an allocation. *)
Lemma old_block_lookup h (o : option (list T)) (b : nat) :
  (b < length h)%nat -> (h ++ [o]) !! b = h !! b.
Proof. intros Hb. by rewrite lookup_app_l. Qed.

(** A vector built on a fresh array [l] of which it uses [size] slots. *)
Lemma fresh_vector h h' l size :
  h' !! length h = Some (Some l) -> 0 <= size <= Z.of_nat (length l) ->
  0 < Z.of_nat (length l) <= max_array_len ->
  let v := SimpleVector.Make (ArrayPtr.Make (Ptr (Some (length h)) 0))
             size (Z.of_nat (length l)) in
  vec_ok h' v /\ elems h' v = take (Z.to_nat size) l.
Proof.
  intros Hb Hsize Hcap v. split.
  - by eapply vec_ok_block.
  - unfold elems, v. by rewrite (buffer_block _ _ _ _ _ Hb).
Qed.

(** X1.  [SimpleVector(size)] builds a vector of [size] value-initialised
    elements whose capacity is [size], in an array of its own: the arrays
    that exist are left as they are, and nothing is allocated for size 0.
    The constructor throws [std::bad_alloc] when [size] elements cannot be
    allocated. *)
Theorem X1_sized_constructor (n : Z) h :
  0 <= n ->
  (n <= max_array_len ->
   exists v h',
     SimpleVector.sized dflt n h = Ok (v, h') /\
     vec_ok h' v /\
     SimpleVector.size_ v = n /\ SimpleVector.capacity_ v = n /\
     elems h' v = replicate (Z.to_nat n) dflt /\
     (n = 0 -> h' = h) /\
     (forall b : nat, (b < length h)%nat -> h' !! b = h !! b)) /\
  (max_array_len < n -> SimpleVector.sized dflt n h = Err bad_alloc).
Proof.
  intros Hn. split.
  - intros Hmax. unfold SimpleVector.sized.
    destruct (decide (n = 0)) as [->|Hpos].
    + rewrite ArrayPtr_sized_zero. simpl.
      eexists _, h. split; [done|].
      split; [apply vec_ok_default|]. by repeat split.
    + rewrite ArrayPtr_sized_pos by lia. simpl.
      set (l := replicate (Z.to_nat n) dflt).
      assert (Hl : Z.of_nat (length l) = n)
        by (subst l; rewrite length_replicate; lia).
      destruct (fresh_vector h (h ++ [Some l]) l n) as [Hok Hel];
        [apply new_block_lookup|lia|lia|].
      rewrite Hl in Hok, Hel.
      eexists _, _. split; [done|]. split; [exact Hok|].
      split; [done|]. split; [done|]. split.
      * rewrite Hel. subst l. by rewrite take_replicate, Nat.min_id.
      * split; [done|]. intros b Hb. by apply old_block_lookup.
  - intros Hbig. unfold SimpleVector.sized.
    by rewrite ArrayPtr_sized_big.
Qed.

(** [std::fill] over the whole of a fresh array. *)
Lemma std_fill_fresh h l x (n : Z) :
  Z.of_nat (length l) = n ->
  SimpleVector.std_fill (Ptr (Some (length h)) 0)
    (ptr_add (Ptr (Some (length h)) 0) n) x (h ++ [Some l])
  = Ok (h ++ [Some (replicate (Z.to_nat n) x)]).
Proof.
  intros Hl.
  destruct (fill_loop_spec (length h) x (Z.to_nat n) 0 l (h ++ [Some l]))
    as (l' & Hrun & Hl' & Htake & _); [apply new_block_lookup|simpl; lia|].
  unfold SimpleVector.std_fill, ptr_add; simpl.
  rewrite ptr_diff_same; simpl.
  destruct (Z.ltb_spec (0 + n - 0) 0); [lia|].
  replace (0 + n - 0) with n by lia.
  change (Z.of_nat 0) with 0 in Hrun. rewrite Hrun. f_equal.
  rewrite take_0 in Htake. simpl in Htake.
  rewrite take_ge in Htake by lia. rewrite Htake.
  replace (length h) with (length h + 0)%nat at 1 by lia.
  by rewrite insert_app_r.
Qed.

(** X2.  [SimpleVector(size, value)] builds a vector of [size] copies of
    [value] whose capacity is [size], in an array of its own; it throws
    [std::bad_alloc] when [size] elements cannot be allocated. *)
Theorem X2_filled_constructor (n : Z) x h :
  0 <= n ->
  (n <= max_array_len ->
   exists v h',
     SimpleVector.filled dflt n x h = Ok (v, h') /\
     vec_ok h' v /\
     SimpleVector.size_ v = n /\ SimpleVector.capacity_ v = n /\
     elems h' v = replicate (Z.to_nat n) x /\
     (n = 0 -> h' = h) /\
     (forall b : nat, (b < length h)%nat -> h' !! b = h !! b)) /\
  (max_array_len < n -> SimpleVector.filled dflt n x h = Err bad_alloc).
Proof.
  intros Hn. split.
  - intros Hmax. unfold SimpleVector.filled.
    destruct (decide (n = 0)) as [->|Hpos].
    + rewrite ArrayPtr_sized_zero. simpl.
      eexists _, h. split; [done|].
      split; [apply vec_ok_default|]. by repeat split.
    + rewrite ArrayPtr_sized_pos by lia. simpl.
      destruct (Z.eqb_spec n 0) as [|_]; [lia|].
      unfold SimpleVector.begin, SimpleVector.end_, ArrayPtr.Get; simpl.
      rewrite std_fill_fresh by (rewrite length_replicate; lia). simpl.
      set (l := replicate (Z.to_nat n) x).
      assert (Hl : Z.of_nat (length l) = n)
        by (subst l; rewrite length_replicate; lia).
      destruct (fresh_vector h (h ++ [Some l]) l n) as [Hok Hel];
        [apply new_block_lookup|lia|lia|].
      rewrite Hl in Hok, Hel.
      eexists _, _. split; [done|]. split; [exact Hok|].
      split; [done|]. split; [done|]. split.
      * rewrite Hel. subst l. by rewrite take_replicate, Nat.min_id.
      * split; [done|]. intros b Hb. by apply old_block_lookup.
  - intros Hbig. unfold SimpleVector.filled.
    by rewrite ArrayPtr_sized_big.
Qed.

(** X3.  [SimpleVector(std::initializer_list)] builds a vector whose
    elements are those of the list, in the order of the list, and whose
    size and capacity are the length of the list. *)
Theorem X3_initializer_list_constructor (init : list T) h :
  Z.of_nat (length init) <= max_array_len ->
  exists v h',
    SimpleVector.from_list dflt init h = Ok (v, h') /\
    vec_ok h' v /\
    SimpleVector.size_ v = Z.of_nat (length init) /\
    SimpleVector.capacity_ v = Z.of_nat (length init) /\
    elems h' v = init /\
    (forall b : nat, (b < length h)%nat -> h' !! b = h !! b).
Proof.
  intros Hmax. unfold SimpleVector.from_list.
  destruct init as [|x0 init0] eqn:Hinit.
  - simpl. eexists _, h. split; [done|].
    split; [apply vec_ok_default|]. by repeat split.
  - rewrite <- Hinit in *.
    assert (Hpos : 0 < Z.of_nat (length init)) by (subst init; simpl; lia).
    rewrite ArrayPtr_sized_pos by lia. simpl.
    set (l0 := replicate (Z.to_nat (Z.of_nat (length init))) dflt).
    assert (Hl0 : length l0 = length init)
      by (subst l0; rewrite length_replicate; lia).
    destruct (copy_init_spec (length h) init 0 l0 (h ++ [Some l0]))
      as (l' & Hrun & Hl' & Htake & _);
      [apply new_block_lookup|simpl; lia|].
    unfold ArrayPtr.Get; simpl. change (Z.of_nat 0) with 0 in Hrun.
    rewrite Hrun. simpl.
    rewrite take_0 in Htake. simpl in Htake.
    rewrite take_ge in Htake by lia. subst l'.
    assert (Hh' : <[length h := Some init]> (h ++ [Some l0])
                  = h ++ [Some init]).
    { replace (length h) with (length h + 0)%nat at 1 by lia.
      by rewrite insert_app_r. }
    rewrite Hh'.
    destruct (fresh_vector h (h ++ [Some init]) init
                (Z.of_nat (length init))) as [Hok Hel];
      [apply new_block_lookup|lia|lia|].
    eexists _, _. split; [done|]. split; [exact Hok|].
    split; [done|]. split; [done|]. split.
    + rewrite Hel. by rewrite take_ge by lia.
    + intros b Hb. by apply old_block_lookup.
Qed.

End Construction.

(** ** Copies, moves and swaps *)

Section CopyMove.
Context {T : Type}.
Variable dflt : T.
Variable moved_from : T -> T.
Local Abbreviation heap := (list (option (list T))).
Implicit Types (h : heap) (l : list T) (s : list SimpleVector.t)
  (v a b : SimpleVector.t) (x : T).

Local Arguments size_t : simpl never.
Local Arguments ptr_diff : simpl never.
Local Arguments delete_array : simpl never.

(** [std::copy] of the first [n] elements of an array to the start of a
    fresh one. *)
Lemma std_copy_fresh (bs : nat) (n : nat) ls ld h :
  h !! bs = Some (Some ls) -> (n <= length ls)%nat -> (n <= length ld)%nat ->
  exists ld',
    SimpleVector.std_copy (Ptr (Some bs) 0)
      (ptr_add (Ptr (Some bs) 0) (Z.of_nat n))
      (Ptr (Some (length h)) 0) (h ++ [Some ld])
    = Ok (Ptr (Some (length h)) (Z.of_nat n), h ++ [Some ld']) /\
    length ld' = length ld /\ take n ld' = take n ls.
Proof.
  intros Hs Hls Hld.
  pose proof (lookup_lt_Some _ _ _ Hs) as Hlt.
  destruct (copy_loop_across bs (length h) n 0 ls ld (h ++ [Some ld]))
    as (ld' & Hrun & Hlen & Htake & _);
    [lia|by rewrite lookup_app_l|apply new_block_lookup|simpl; lia..|].
  exists ld'. split; [|by rewrite ?take_0, ?drop_0 in *].
  unfold SimpleVector.std_copy, ptr_add; simpl.
  rewrite ptr_diff_same; simpl.
  destruct (Z.ltb_spec (0 + Z.of_nat n - 0) 0); [lia|].
  replace (Z.to_nat (0 + Z.of_nat n - 0)) with n by lia.
  change (Z.of_nat 0) with 0 in Hrun. rewrite Hrun. simpl. do 2 f_equal.
  replace (length h) with (length h + 0)%nat at 1 by lia.
  by rewrite insert_app_r.
Qed.

(** The copy constructor, with the heap it leaves. *)
Lemma copy_construct_spec h other :
  vec_ok h other ->
  exists v h',
    SimpleVector.copy_construct dflt other h = Ok (v, h') /\
    vec_ok h' v /\
    SimpleVector.size_ v = SimpleVector.size_ other /\
    SimpleVector.capacity_ v = SimpleVector.capacity_ other /\
    elems h' v = elems h other /\
    (forall blk : nat, owned v = Some blk -> blk = length h) /\
    (h' = h \/ exists l, h' = h ++ [Some l]).
Proof.
  intros Hok. apply vec_ok_shape in Hok.
  destruct Hok as [|bs ls size Hs Hsize Hpos Hmax].
  - exists SimpleVector.default, h. split; [done|].
    split; [apply vec_ok_default|]. repeat split; try done. by left.
  - unfold SimpleVector.copy_construct, SimpleVector.GetCapacity,
      SimpleVector.GetSize, SimpleVector.begin, SimpleVector.end_,
      ArrayPtr.Get; simpl.
    rewrite ArrayPtr_sized_pos by lia. simpl.
    set (ld := replicate (Z.to_nat (Z.of_nat (length ls))) dflt).
    assert (Hld : length ld = length ls)
      by (subst ld; rewrite length_replicate; lia).
    destruct (std_copy_fresh bs size ls ld h) as (ld' & Hrun & Hlen & Htake);
      [done|lia|lia|].
    rewrite Hrun. simpl.
    destruct (fresh_vector h (h ++ [Some ld']) ld' (Z.of_nat size))
      as [Hv Hel]; [apply new_block_lookup|lia|lia|].
    rewrite Hlen, Hld in Hv, Hel.
    eexists _, _. split; [done|]. split; [exact Hv|].
    split; [done|]. split; [done|]. split.
    + rewrite Hel. unfold elems. rewrite (buffer_block _ _ _ _ _ Hs). simpl.
      by rewrite !Nat2Z.id.
    + split; [|right; by eexists].
      unfold owned; simpl. by intros blk [= <-].
Qed.


(** X5.  The move constructor gives the new vector the array, the size and
    the capacity of its source and leaves the source empty with capacity
    0; no element is copied or moved and nothing is allocated or deleted. *)
Theorem X5_move_constructor s h (other : nat) b :
  s !! other = Some b ->
  SimpleVector.exec dflt moved_from (SimpleVector.new_move other) s h
  = Ok (<[other := SimpleVector.default]> s ++ [b], h) /\
  (<[other := SimpleVector.default]> s ++ [b]) !! length s = Some b /\
  (<[other := SimpleVector.default]> s ++ [b]) !! other
  = Some SimpleVector.default /\
  elems h SimpleVector.default = [].
Proof.
  intros Hb. pose proof (lookup_lt_Some _ _ _ Hb) as Hlt.
  unfold SimpleVector.exec. rewrite Hb.
  rewrite (move_construct_obj _ _ _ _ Hb). simpl.
  split; [done|]. split.
  { rewrite lookup_app_r by (rewrite length_insert; lia).
    by rewrite length_insert, Nat.sub_diag. }
  split; [|done].
  rewrite lookup_app_l by (rewrite length_insert; lia).
  by rewrite list_lookup_insert_eq.
Qed.

(** The heap after the destructor of a vector of a program. *)
Lemma destroy_owned s h (i : nat) a :
  prog_ok (s, h) -> s !! i = Some a ->
  exists h',
    ArrayPtr.destroy (SimpleVector.items_ a) h = Ok h' /\
    length h' = length h /\
    (forall blk : nat, owned a = Some blk -> h' !! blk = Some None) /\
    (forall blk : nat, owned a <> Some blk -> h' !! blk = h !! blk).
Proof.
  intros [Hall _] Ha. rewrite Forall_lookup in Hall. simpl in Hall.
  pose proof (Hall _ _ Ha) as Hok. apply vec_ok_shape in Hok.
  destruct Hok as [|ba la size Hla Hsize Hpos Hmax].
  - exists h. by repeat split.
  - exists (<[ba := None]> h). unfold ArrayPtr.destroy; simpl.
    rewrite (delete_array_live _ _ _ Hla).
    split; [done|]. split; [by rewrite length_insert|].
    unfold owned; simpl. split.
    + intros blk [= <-]. by eapply heap_lookup_insert.
    + intros blk Hne. rewrite list_lookup_insert_ne; [done|congruence].
Qed.

(** X6.  Copy assignment from another vector gives the destination the
    elements, the size and the capacity of the source in an array of its
    own, deletes the array the destination had, and leaves the source as it
    is. *)
Theorem X6_copy_assignment s h (this rhs : nat) a b :
  prog_ok (s, h) -> this <> rhs ->
  s !! this = Some a -> s !! rhs = Some b ->
  exists v h',
    SimpleVector.copy_assign dflt this rhs s h = Ok (<[this := v]> s, h') /\
    <[this := v]> s !! rhs = Some b /\
    SimpleVector.size_ v = SimpleVector.size_ b /\
    SimpleVector.capacity_ v = SimpleVector.capacity_ b /\
    elems h' v = elems h b /\
    elems h' b = elems h b /\
    (forall blk : nat, owned v = Some blk -> owned b <> Some blk) /\
    (forall blk : nat, owned a = Some blk -> h' !! blk = Some None).
Proof.
  intros Hprog Hne Ha Hb.
  pose proof Hprog as [Hall Hdis]. rewrite Forall_lookup in Hall.
  simpl in Hall, Hdis.
  pose proof (Hall _ _ Ha) as Hoka. pose proof (Hall _ _ Hb) as Hokb.
  rewrite (copy_assign_objs dflt _ _ _ _ _ _ Hne Ha Hb).
  destruct (copy_construct_spec h b Hokb)
    as (v & h1 & Hrun & Hv & Hsize & Hcap & Hel & Hown & Hh1).
  rewrite Hrun. simpl.
  assert (Hold : forall blk : nat, (blk < length h)%nat ->
                                   h1 !! blk = h !! blk).
  { intros blk Hblk. destruct Hh1 as [->|[l ->]]; [done|].
    by apply old_block_lookup. }
  assert (Hprog1 : prog_ok (s, h1)).
  { split; simpl; [|exact Hdis]. apply Forall_lookup. intros k w Hw.
    eapply vec_ok_frame; [by eapply Hall|]. intros blk Hblk.
    rewrite !layout_lookup, Hold; [done|].
    eapply vec_ok_owned_live; [by eapply Hall|done]. }
  destruct (destroy_owned s h1 this a Hprog1 Ha)
    as (h2 & Hdel & Hlen & Hdead & Hkeep).
  unfold SimpleVector.destroy. rewrite Hdel. simpl.
  assert (Hva : forall blk : nat, owned v = Some blk -> owned a <> Some blk).
  { intros blk Hblk Hablk. apply Hown in Hblk.
    pose proof (vec_ok_owned_live _ _ _ Hoka Hablk). lia. }
  assert (Hba : forall blk : nat, owned b = Some blk -> owned a <> Some blk).
  { intros blk Hblk Hablk. apply Hne.
    by eapply (Hdis this rhs a b blk). }
  exists v, h2. split; [done|].
  split; [by rewrite list_lookup_insert_ne|].
  split; [done|]. split; [done|]. split.
  { rewrite <- Hel. unfold elems, buffer. fold (owned v).
    destruct (owned v) as [blk|] eqn:Hblk; [|done].
    by rewrite Hkeep by by apply Hva. }
  split.
  { unfold elems, buffer. fold (owned b).
    destruct (owned b) as [blk|] eqn:Hblk; [|done].
    rewrite Hkeep by by apply Hba. rewrite Hold; [done|].
    by eapply vec_ok_owned_live. }
  split; [|done].
  intros blk Hblk Hbblk. apply Hown in Hblk.
  pose proof (vec_ok_owned_live _ _ _ Hokb Hbblk). lia.
Qed.

(** X7.  Move assignment from another vector deletes the array of the
    destination, gives the destination the array, the size and the capacity
    of the source, and leaves the source empty with capacity 0; the
    elements are neither copied nor moved, and nothing is allocated. *)
Theorem X7_move_assignment s h (this rhs : nat) a b :
  prog_ok (s, h) -> this <> rhs ->
  s !! this = Some a -> s !! rhs = Some b ->
  exists h',
    SimpleVector.move_assign this rhs s h
    = Ok (<[rhs := SimpleVector.default]> (<[this := b]> s), h') /\
    <[rhs := SimpleVector.default]> (<[this := b]> s) !! this = Some b /\
    <[rhs := SimpleVector.default]> (<[this := b]> s) !! rhs
    = Some SimpleVector.default /\
    elems h' b = elems h b /\
    length h' = length h /\
    (forall blk : nat, owned a = Some blk -> h' !! blk = Some None) /\
    (forall blk : nat, owned a <> Some blk -> h' !! blk = h !! blk).
Proof.
  intros Hprog Hne Ha Hb.
  pose proof Hprog as [Hall Hdis]. simpl in Hdis.
  pose proof (lookup_lt_Some _ _ _ Ha) as Hla.
  pose proof (lookup_lt_Some _ _ _ Hb) as Hlb.
  rewrite (move_assign_objs _ _ _ _ _ _ Hne Ha Hb).
  destruct (destroy_owned s h this a Hprog Ha)
    as (h' & Hdel & Hlen & Hdead & Hkeep).
  rewrite Hdel. simpl. exists h'. split; [done|].
  split.
  { rewrite list_lookup_insert_ne by done.
    by rewrite list_lookup_insert_eq. }
  split; [by rewrite list_lookup_insert_eq by (by rewrite length_insert)|].
  split; [|done].
  unfold elems, buffer. fold (owned b).
  destruct (owned b) as [blk|] eqn:Hblk; [|done].
  rewrite Hkeep; [done|]. intros Hablk. apply Hne.
  by eapply (Hdis this rhs a b blk).
Qed.

(** X8.  [swap] exchanges the array, the size and the capacity of the two
    vectors and touches no other vector; no element is copied or moved.
    Swapping twice restores both vectors, and a vector swapped with itself
    is left as it is. *)
Theorem X8_swap s (i j : nat) a b :
  s !! i = Some a -> s !! j = Some b ->
  SimpleVector.swap (SimpleVector.obj i) (SimpleVector.obj j) s !! i = Some b /\
  SimpleVector.swap (SimpleVector.obj i) (SimpleVector.obj j) s !! j = Some a /\
  (forall k : nat, k <> i -> k <> j ->
     SimpleVector.swap (SimpleVector.obj i) (SimpleVector.obj j) s !! k
     = s !! k) /\
  SimpleVector.swap (SimpleVector.obj i) (SimpleVector.obj j)
    (SimpleVector.swap (SimpleVector.obj i) (SimpleVector.obj j) s) = s /\
  (i = j ->
   SimpleVector.swap (SimpleVector.obj i) (SimpleVector.obj j) s = s).
Proof.
  intros Ha Hb.
  pose proof (lookup_lt_Some _ _ _ Ha) as Hla.
  pose proof (lookup_lt_Some _ _ _ Hb) as Hlb.
  rewrite (swap_objs _ _ _ _ _ Ha Hb).
  assert (Hi : <[j := a]> (<[i := b]> s) !! i = Some b).
  { destruct (decide (i = j)) as [->|Hij].
    - rewrite list_lookup_insert_eq by (by rewrite length_insert).
      congruence.
    - rewrite list_lookup_insert_ne by done.
      by rewrite list_lookup_insert_eq. }
  assert (Hj : <[j := a]> (<[i := b]> s) !! j = Some a).
  { by rewrite list_lookup_insert_eq by (by rewrite length_insert). }
  split; [done|]. split; [done|]. split.
  { intros k Hki Hkj. by rewrite !list_lookup_insert_ne. }
  split.
  - rewrite (swap_objs _ _ _ _ _ Hi Hj).
    apply list_eq. intros k.
    destruct (decide (k = j)) as [->|Hkj].
    + rewrite list_lookup_insert_eq by (by rewrite !length_insert). done.
    + rewrite list_lookup_insert_ne by done.
      destruct (decide (k = i)) as [->|Hki].
      * rewrite list_lookup_insert_eq by (by rewrite !length_insert). done.
      * by rewrite !list_lookup_insert_ne.
  - intros ->. assert (a = b) as -> by congruence.
    rewrite list_insert_insert_eq. by apply list_insert_id.
Qed.

End CopyMove.

(** ** Methods of one vector: round trips and failures *)

Section MethodFacts.
Context {T : Type}.
Variable dflt : T.
Variable moved_from : T -> T.
Local Abbreviation heap := (list (option (list T))).
Implicit Types (h : heap) (l : list T) (v : SimpleVector.t) (x : T).

Local Arguments size_t : simpl never.
Local Arguments ptr_diff : simpl never.
Local Arguments ptr_le : simpl never.
Local Arguments ptr_lt : simpl never.
Local Arguments delete_array : simpl never.
Local Arguments SimpleVector.std_move : simpl never.
Local Arguments SimpleVector.std_move_backward : simpl never.
Local Arguments SimpleVector.std_copy_backward : simpl never.

(** A method that keeps the array of the vector allocates and deletes
    nothing. *)
Lemma effect_in_place h v h' v' :
  vec_ok h v -> effect h v h' v' ->
  SimpleVector.items_ v' = SimpleVector.items_ v ->
  layout h' = layout h.
Proof.
  intros Hok [_ [[Hlay _]|(n & Hitems & _)]] Hsame; [done|].
  rewrite Hsame in Hitems.
  assert (Hown : owned v = Some (length h)) by (unfold owned; by rewrite Hitems).
  pose proof (vec_ok_owned_live _ _ _ Hok Hown). lia.
Qed.

(** [PushBack] calls within the capacity keep the array. *)
Lemma push_all_within xs : forall v h,
  vec_ok h v ->
  SimpleVector.size_ v + Z.of_nat (length xs) <= SimpleVector.capacity_ v ->
  exists v' h',
    push_all dflt moved_from xs v h = Ok (v', h') /\
    vec_ok h' v' /\
    SimpleVector.items_ v' = SimpleVector.items_ v /\
    SimpleVector.capacity_ v' = SimpleVector.capacity_ v /\
    SimpleVector.size_ v' = SimpleVector.size_ v + Z.of_nat (length xs) /\
    elems h' v' = elems h v ++ xs /\
    layout h' = layout h.
Proof.
  induction xs as [|x xs IH]; intros v h Hok Hroom.
  - exists v, h. rewrite app_nil_r. split; [done|]. split; [done|].
    split; [done|]. split; [done|]. split; [simpl; lia|done].
  - simpl length in Hroom.
    pose proof (vec_ok_fields _ _ Hok) as Hf.
    assert (Hnext : next_capacity v = SimpleVector.capacity_ v).
    { unfold next_capacity.
      destruct (Z.ltb_spec (SimpleVector.size_ v) (SimpleVector.capacity_ v));
        [done|lia]. }
    destruct (PushBack_spec dflt moved_from h v x Hok)
      as (v1 & h1 & Hrun & Hok1 & Hs1 & Hc1 & He1 & Hi1).
    { rewrite Hnext, max_array_len_val. lia. }
    specialize (Hi1 ltac:(lia)).
    pose proof (PushBack_effect dflt moved_from _ _ _ _ _ Hok Hrun) as Heff.
    pose proof (effect_in_place _ _ _ _ Hok Heff Hi1) as Hlay1.
    destruct (IH v1 h1 Hok1) as (v' & h' & Hrun' & Hok' & Hi' & Hc' & Hs' & He' & Hlay').
    { rewrite Hs1, Hc1, Hnext. lia. }
    exists v', h'. simpl. rewrite Hrun. simpl. split; [done|].
    split; [done|]. split; [congruence|]. split; [congruence|].
    split; [rewrite Hs', Hs1; simpl length; lia|].
    split; [by rewrite He', He1, <- app_assoc|congruence].
Qed.

(** X9.  [PushBack] followed by [PopBack] restores the size and the
    elements of the vector; the capacity is the one [PushBack] left. *)
Theorem X9_PushBack_PopBack h v x :
  vec_ok h v -> next_capacity v <= max_array_len ->
  exists v1 h1 v2,
    SimpleVector.PushBack dflt moved_from x v h = Ok (v1, h1) /\
    SimpleVector.PopBack v1 = Ok v2 /\
    vec_ok h1 v2 /\
    SimpleVector.size_ v2 = SimpleVector.size_ v /\
    SimpleVector.capacity_ v2 = next_capacity v /\
    elems h1 v2 = elems h v.
Proof.
  intros Hok Hcap. pose proof (vec_ok_fields _ _ Hok) as Hf.
  destruct (PushBack_spec dflt moved_from h v x Hok Hcap)
    as (v1 & h1 & Hrun & Hok1 & Hs1 & Hc1 & He1 & _).
  pose proof (vec_ok_fields _ _ Hok1) as Hf1.
  exists v1, h1, (SimpleVector.set_size (SimpleVector.size_ v) v1).
  split; [done|]. split.
  { unfold SimpleVector.PopBack, SimpleVector.IsEmpty.
    destruct (Z.eqb_spec (SimpleVector.size_ v1) 0); [lia|]. simpl.
    rewrite Hs1. replace (SimpleVector.size_ v + 1 - 1) with (SimpleVector.size_ v) by lia.
    by rewrite size_t_small by lia. }
  split; [apply vec_ok_set_size; [done|lia]|].
  split; [done|]. split; [done|].
  assert (Hel : elems h1 (SimpleVector.set_size (SimpleVector.size_ v) v1)
                = take (Z.to_nat (SimpleVector.size_ v)) (elems h1 v1)).
  { unfold elems, buffer; simpl. rewrite take_take. f_equal. lia. }
  rewrite Hel, He1. apply take_app_length'. by rewrite length_elems.
Qed.

(** X10.  [PopBack] on an empty vector fails its assertion.  On a vector
    that is not empty it removes the last element and nothing else: the
    capacity, the array and the other elements are kept. *)
Theorem X10_PopBack h v :
  vec_ok h v ->
  (SimpleVector.size_ v = 0 ->
   SimpleVector.PopBack v = Err assertion_failed) /\
  (0 < SimpleVector.size_ v ->
   exists v' x,
     SimpleVector.PopBack v = Ok v' /\
     vec_ok h v' /\
     SimpleVector.size_ v' = SimpleVector.size_ v - 1 /\
     SimpleVector.capacity_ v' = SimpleVector.capacity_ v /\
     SimpleVector.items_ v' = SimpleVector.items_ v /\
     elems h v = elems h v' ++ [x]).
Proof.
  intros Hok. pose proof (vec_ok_fields _ _ Hok) as Hf. split.
  - intros Hs. unfold SimpleVector.PopBack, SimpleVector.IsEmpty.
    by rewrite Hs.
  - intros Hs.
    assert (Hlen : length (elems h v) = Z.to_nat (SimpleVector.size_ v))
      by by apply length_elems.
    destruct (lookup_lt_is_Some_2 (elems h v)
                (Z.to_nat (SimpleVector.size_ v - 1))) as [x Hx]; [lia|].
    exists (SimpleVector.set_size (SimpleVector.size_ v - 1) v), x.
    split.
    { unfold SimpleVector.PopBack, SimpleVector.IsEmpty.
      destruct (Z.eqb_spec (SimpleVector.size_ v) 0); [lia|]. simpl.
      by rewrite size_t_small by lia. }
    split; [apply vec_ok_set_size; [done|lia]|].
    split; [done|]. split; [done|]. split; [done|].
    assert (Hel : elems h (SimpleVector.set_size (SimpleVector.size_ v - 1) v)
                  = take (Z.to_nat (SimpleVector.size_ v - 1)) (elems h v)).
    { unfold elems, buffer; simpl. rewrite take_take. f_equal. lia. }
    rewrite Hel. rewrite <- (take_S_r _ _ _ Hx).
    rewrite take_ge; [done|lia].
Qed.

(** X11.  [Clear] empties the vector and keeps its array and capacity; as
    many [PushBack] calls as the capacity allows then refill the same
    array, and nothing is allocated or deleted. *)
Theorem X11_Clear_reuse h v (xs : list T) :
  vec_ok h v -> Z.of_nat (length xs) <= SimpleVector.capacity_ v ->
  vec_ok h (SimpleVector.Clear v) /\
  SimpleVector.size_ (SimpleVector.Clear v) = 0 /\
  SimpleVector.capacity_ (SimpleVector.Clear v) = SimpleVector.capacity_ v /\
  elems h (SimpleVector.Clear v) = [] /\
  exists v' h',
    push_all dflt moved_from xs (SimpleVector.Clear v) h = Ok (v', h') /\
    SimpleVector.items_ v' = SimpleVector.items_ v /\
    SimpleVector.capacity_ v' = SimpleVector.capacity_ v /\
    elems h' v' = xs /\
    layout h' = layout h.
Proof.
  intros Hok Hroom. pose proof (vec_ok_fields _ _ Hok) as Hf.
  assert (Hok0 : vec_ok h (SimpleVector.Clear v))
    by (apply vec_ok_set_size; [done|lia]).
  split; [done|]. split; [done|]. split; [done|]. split; [done|].
  destruct (push_all_within xs (SimpleVector.Clear v) h Hok0)
    as (v' & h' & Hrun & _ & Hi & Hc & _ & He & Hlay); [simpl; lia|].
  exists v', h'. by repeat split.
Qed.

(** X12.  After [Reserve(k)], [PushBack] calls that keep the size within
    the capacity reserved do not reallocate: the array is the one
    [Reserve] left, so iterators stay valid, and the elements are the old
    ones followed by the new ones. *)
Theorem X12_Reserve_then_PushBack h v (k : Z) (xs : list T) :
  vec_ok h v -> k <= max_array_len ->
  SimpleVector.size_ v + Z.of_nat (length xs)
    <= Z.max k (SimpleVector.capacity_ v) ->
  exists v1 h1 v2 h2,
    SimpleVector.Reserve dflt moved_from k v h = Ok (v1, h1) /\
    push_all dflt moved_from xs v1 h1 = Ok (v2, h2) /\
    SimpleVector.items_ v2 = SimpleVector.items_ v1 /\
    SimpleVector.capacity_ v2 = Z.max k (SimpleVector.capacity_ v) /\
    elems h2 v2 = elems h v ++ xs /\
    layout h2 = layout h1.
Proof.
  intros Hok Hk Hroom.
  assert (Hres : exists v1 h1,
            SimpleVector.Reserve dflt moved_from k v h = Ok (v1, h1) /\
            vec_ok h1 v1 /\
            SimpleVector.size_ v1 = SimpleVector.size_ v /\
            SimpleVector.capacity_ v1 = Z.max k (SimpleVector.capacity_ v) /\
            elems h1 v1 = elems h v).
  { destruct (Z_lt_le_dec (SimpleVector.capacity_ v) k) as [Hlt|Hle].
    - destruct (Reserve_grow dflt moved_from h v k Hok)
        as (v1 & h1 & Hrun & Hok1 & Hs1 & Hc1 & He1); [lia|].
      exists v1, h1. split; [done|]. split; [done|]. split; [done|].
      split; [lia|done].
    - exists v, h. rewrite Reserve_noop by done.
      split; [done|]. split; [done|]. split; [done|]. split; [lia|done]. }
  destruct Hres as (v1 & h1 & Hrun & Hok1 & Hs1 & Hc1 & He1).
  destruct (push_all_within xs v1 h1 Hok1)
    as (v2 & h2 & Hrun2 & _ & Hi & Hc & _ & He & Hlay); [lia|].
  exists v1, h1, v2, h2. split; [done|]. split; [done|]. split; [done|].
  split; [congruence|]. split; [congruence|done].
Qed.

(** X13.  [SimpleVector(Reserve(n))] builds an empty vector of capacity
    [n] and leaves the arrays that exist as they are; it throws
    [std::bad_alloc] when [n] elements cannot be allocated. *)
Theorem X13_Reserve_constructor (n : Z) h :
  0 <= n ->
  (n <= max_array_len ->
   exists v h',
     SimpleVector.reserved dflt moved_from (Reserve n) h = Ok (v, h') /\
     vec_ok h' v /\
     SimpleVector.size_ v = 0 /\ SimpleVector.capacity_ v = n /\
     elems h' v = [] /\
     (forall b : nat, (b < length h)%nat -> h' !! b = h !! b)) /\
  (max_array_len < n ->
   SimpleVector.reserved dflt moved_from (Reserve n) h = Err bad_alloc).
Proof.
  intros Hn.
  unfold SimpleVector.reserved, Reserve, ReserveProxyObj.GetCapacity,
    SimpleVector.Reserve; simpl.
  split.
  - intros Hmax. destruct (Z.ltb_spec 0 n) as [Hpos|Hzero].
    + rewrite ArrayPtr_sized_pos by lia. simpl.
      set (l := replicate (Z.to_nat n) dflt).
      assert (Hl : Z.of_nat (length l) = n)
        by (subst l; rewrite length_replicate; lia).
      destruct (fresh_vector h (h ++ [Some l]) l 0) as [Hok Hel];
        [apply new_block_lookup|lia|lia|].
      rewrite Hl in Hok.
      eexists _, _. split; [done|]. split; [exact Hok|].
      split; [done|]. split; [done|]. split; [done|].
      intros b Hb. by apply old_block_lookup.
    + assert (n = 0) as -> by lia.
      exists SimpleVector.default, h. split; [done|].
      split; [apply vec_ok_default|]. by repeat split.
  - intros Hbig. rewrite max_array_len_val in Hbig.
    destruct (Z.ltb_spec 0 n); [|lia].
    rewrite ArrayPtr_sized_big; [done|]. by rewrite max_array_len_val.
Qed.

(** X14.  [operator[]] with an index below the size gives the address of
    the element at that position, the address [At] gives; with any other
    index its assertion fails, where [At] throws [std::out_of_range]. *)
Theorem X14_subscript h v (i : Z) :
  vec_ok h v -> 0 <= i ->
  (i < SimpleVector.size_ v ->
   exists p x,
     SimpleVector.subscript i v = Ok p /\
     fst (SimpleVector.At i v h) = Ok p /\
     load p h = Ok x /\
     elems h v !! Z.to_nat i = Some x) /\
  (SimpleVector.size_ v <= i ->
   SimpleVector.subscript i v = Err assertion_failed /\
   fst (SimpleVector.At i v h) = Err out_of_range).
Proof.
  intros Hok Hi. unfold SimpleVector.subscript, SimpleVector.At. split.
  - intros Hlt.
    destruct (Z.ltb_spec i (SimpleVector.size_ v)); [|lia].
    destruct (Z.geb_spec i (SimpleVector.size_ v)); [lia|]. simpl.
    destruct (lookup_lt_is_Some_2 (elems h v) (Z.to_nat i)) as [x Hx].
    { rewrite length_elems by done. lia. }
    exists (ArrayPtr.index (SimpleVector.items_ v) i), x.
    split; [done|]. split; [done|]. split; [|done].
    pose proof (load_elem h v (Z.to_nat i) x Hok Hx) as Hload.
    by rewrite Z2Nat.id in Hload by done.
  - intros Hge.
    destruct (Z.ltb_spec i (SimpleVector.size_ v)); [lia|].
    by destruct (Z.geb_spec i (SimpleVector.size_ v)); [|lia].
Qed.

(** X15.  The iterators of a vector: [end() - begin()] is the size, the
    range is empty exactly when the vector is, and reading the position
    [begin() + j] for [j] below the size gives the [j]-th element. *)
Theorem X15_iterators h v :
  vec_ok h v ->
  ptr_diff (SimpleVector.end_ v) (SimpleVector.begin v)
  = Ok (SimpleVector.GetSize v) /\
  SimpleVector.cbegin v = SimpleVector.begin v /\
  SimpleVector.cend v = SimpleVector.end_ v /\
  (SimpleVector.IsEmpty v = true <-> SimpleVector.begin v = SimpleVector.end_ v) /\
  (forall (j : nat) x,
     elems h v !! j = Some x <->
     Z.of_nat j < SimpleVector.GetSize v /\
     load (ptr_add (SimpleVector.begin v) (Z.of_nat j)) h = Ok x).
Proof.
  intros Hok. pose proof (vec_ok_fields _ _ Hok) as Hf.
  pose proof (length_elems _ _ Hok) as Hlen.
  split.
  { destruct v as [[[bk o]] size cap].
    unfold SimpleVector.end_, SimpleVector.begin, ArrayPtr.Get, ptr_add,
      SimpleVector.GetSize; simpl.
    rewrite ptr_diff_same. f_equal. lia. }
  split; [done|]. split; [done|]. split.
  { destruct v as [[[bk o]] size cap].
    unfold SimpleVector.IsEmpty, SimpleVector.end_, SimpleVector.begin,
      ArrayPtr.Get, ptr_add; simpl.
    destruct (Z.eqb_spec size 0) as [->|Hne].
    - by rewrite Z.add_0_r.
    - split; [done|]. intros [= Heq]. lia. }
  intros j x. unfold SimpleVector.GetSize. split.
  - intros Hx. split; [|by apply load_elem].
    apply lookup_lt_Some in Hx. lia.
  - intros [Hj Hload].
    destruct (lookup_lt_is_Some_2 (elems h v) j) as [y Hy]; [lia|].
    rewrite (load_elem h v j y Hok Hy) in Hload. congruence.
Qed.

(** X25.  [Erase] fails its assertion exactly when the position is not
    that of an element: [end()] and any position before [begin()] or after
    [end()] are refused, also on an empty vector. *)
Theorem X25_Erase_assertion h v (z : Z) :
  vec_ok h v ->
  SimpleVector.Erase moved_from (ptr_add (SimpleVector.begin v) z) v h
  = Err assertion_failed
  <-> ~ (0 <= z < SimpleVector.size_ v).
Proof.
  intros Hok. split.
  - intros Hrun Hz.
    destruct (Erase_spec moved_from h v (Z.to_nat z) Hok) as (h' & Hrun' & _);
      [lia|].
    rewrite Z2Nat.id in Hrun' by lia. congruence.
  - intros Hz. destruct Hok as (_ & _ & Hoff & _).
    destruct v as [[[bk o]] size cap]. simpl in *. subst o.
    unfold SimpleVector.Erase, SimpleVector.begin, SimpleVector.end_,
      ArrayPtr.Get, ptr_add; simpl.
    rewrite ptr_le_same. simpl.
    destruct (Z.leb_spec 0 (0 + z)); [|done].
    rewrite ptr_lt_same. simpl.
    by destruct (Z.ltb_spec (0 + z) (0 + size)); [lia|].
Qed.

(** X26.  [Insert] of a copy at a position before [begin()] or after
    [end()] fails its assertion.  The overload that takes an rvalue has no
    such assertion: the same position makes it shift a range whose end
    precedes its start, which is undefined behaviour. *)
Theorem X26_Insert_out_of_range h v x (z : Z) :
  vec_ok h v -> next_capacity v <= max_array_len ->
  - 2 ^ 63 <= z < 2 ^ 63 -> ~ (0 <= z <= SimpleVector.size_ v) ->
  SimpleVector.Insert dflt moved_from
    (ptr_add (SimpleVector.begin v) z) x v h = Err assertion_failed /\
  SimpleVector.Insert_rv dflt moved_from
    (ptr_add (SimpleVector.begin v) z) x v h = Err undefined_behavior.
Proof.
  intros Hok Hcap Hrange Hz.
  pose proof (vec_ok_fields _ _ Hok) as Hf.
  destruct (CheckCapacityAndResize_spec dflt moved_from h v Hok Hcap)
    as (v1 & h1 & Hccr & Hok1 & Hs1 & _).
  pose proof Hok as (_ & _ & Hoff & _).
  pose proof Hok1 as (_ & _ & Hoff1 & _).
  destruct v as [[[bk o]] size cap]. simpl in *. subst o.
  split.
  - unfold SimpleVector.Insert, SimpleVector.cbegin, SimpleVector.cend,
      ArrayPtr.Get, ptr_add; simpl.
    rewrite ptr_le_same. simpl.
    destruct (Z.leb_spec 0 (0 + z)); [|done].
    rewrite ptr_le_same. simpl.
    by destruct (Z.leb_spec (0 + z) (0 + size)); [lia|].
  - assert (Hci : size < size_t z).
    { unfold size_t. destruct (Z_lt_le_dec z 0).
      - rewrite <- (Z.mod_unique_pos z (2 ^ 64) (-1) (z + 2 ^ 64)); lia.
      - rewrite Z.mod_small; lia. }
    unfold SimpleVector.Insert_rv, SimpleVector.cend, ArrayPtr.Get, ptr_add;
      simpl.
    rewrite decide_False by (intros [= Heq]; lia).
    rewrite ptr_diff_same. simpl. rewrite Hccr. simpl.
    destruct v1 as [[[bk1 o1]] size1 cap1]. simpl in *. subst o1 size1.
    unfold SimpleVector.std_move_backward, SimpleVector.end_, ArrayPtr.index,
      ArrayPtr.Get, ptr_add; simpl.
    rewrite ptr_diff_same. simpl.
    replace (0 + z - 0) with z by lia.
    by destruct (Z.ltb_spec (0 + (size + 1) + -1 - (0 + size_t z)) 0); [|lia].
Qed.

(** X27.  [Resize] to a larger size and back to the old size restores the
    elements: the second call only lowers the size. *)
Theorem X27_Resize_round_trip h v (n : Z) :
  vec_ok h v -> SimpleVector.size_ v <= n ->
  (n <= SimpleVector.capacity_ v \/
   Z.max n (if SimpleVector.capacity_ v =? 0 then 1
            else SimpleVector.capacity_ v * 2) <= max_array_len) ->
  exists v1 h1 v2,
    SimpleVector.Resize dflt moved_from n v h = Ok (v1, h1) /\
    SimpleVector.size_ v1 = n /\
    SimpleVector.Resize dflt moved_from (SimpleVector.size_ v) v1 h1
    = Ok (v2, h1) /\
    vec_ok h1 v2 /\
    SimpleVector.size_ v2 = SimpleVector.size_ v /\
    elems h1 v2 = elems h v.
Proof.
  intros Hok Hn Halloc. pose proof (vec_ok_fields _ _ Hok) as Hf.
  pose proof (length_elems _ _ Hok) as Hlen.
  assert (Hfirst : exists v1 h1,
            SimpleVector.Resize dflt moved_from n v h = Ok (v1, h1) /\
            vec_ok h1 v1 /\ SimpleVector.size_ v1 = n /\
            take (Z.to_nat (SimpleVector.size_ v)) (elems h1 v1) = elems h v).
  { destruct (Z_lt_le_dec (SimpleVector.capacity_ v) n) as [Hgrow|Hfit].
    - destruct (Resize_grow dflt moved_from h v n Hok Hgrow)
        as (v1 & h1 & Hrun & Hok1 & Hs1 & Hc1 & Hbuf).
      { destruct Halloc as [|Halloc]; [lia|exact Halloc]. }
      exists v1, h1. split; [done|]. split; [done|]. split; [done|].
      unfold elems at 1. rewrite take_take, Hbuf.
      replace (Z.to_nat (SimpleVector.size_ v) `min` Z.to_nat (SimpleVector.size_ v1))%nat
        with (Z.to_nat (SimpleVector.size_ v)) by lia.
      apply take_app_length'. done.
    - destruct (Z_lt_le_dec (SimpleVector.size_ v) n) as [Hexp|Hsame].
      + destruct (Resize_expose dflt moved_from h v n Hok)
          as (h1 & Hrun & Hok1 & He1); [lia|].
        exists (SimpleVector.set_size n v), h1.
        split; [done|]. split; [done|]. split; [done|].
        rewrite He1. apply take_app_length'. done.
      + assert (n = SimpleVector.size_ v) as -> by lia.
        destruct (Resize_shrink dflt moved_from h v (SimpleVector.size_ v) Hok)
          as (Hrun & Hok1 & He1); [lia|].
        exists (SimpleVector.set_size (SimpleVector.size_ v) v), h.
        split; [done|]. split; [done|]. split; [done|].
        rewrite He1, take_take, Nat.min_id.
        apply take_ge. lia. }
  destruct Hfirst as (v1 & h1 & Hrun & Hok1 & Hs1 & Htake).
  destruct (Resize_shrink dflt moved_from h1 v1 (SimpleVector.size_ v) Hok1)
    as (Hrun2 & Hok2 & He2); [lia|].
  exists v1, h1, (SimpleVector.set_size (SimpleVector.size_ v) v1).
  split; [done|]. split; [done|]. split; [done|]. split; [done|].
  split; [done|]. by rewrite He2.
Qed.

End MethodFacts.

(** ** Comparison of vectors *)

Section ComparisonFacts.
Context {T : Type}.
Variable eqb : T -> T -> bool.
Variable ltb : T -> T -> bool.
Local Abbreviation heap := (list (option (list T))).
Implicit Types (h : heap) (l : list T) (a b v : SimpleVector.t) (x y : T).

Local Arguments ptr_diff : simpl never.

Lemma ptr_add_add (p : ptr) (k : nat) :
  ptr_add (ptr_add p (Z.of_nat k)) 1 = ptr_add p (Z.of_nat (S k)).
Proof. destruct p. unfold ptr_add; simpl. f_equal. lia. Qed.

Lemma ptr_add_zero v :
  SimpleVector.begin v = ptr_add (SimpleVector.begin v) (Z.of_nat 0).
Proof.
  destruct v as [[[bk o]] size cap].
  unfold SimpleVector.begin, ArrayPtr.Get, ptr_add; simpl. f_equal. lia.
Qed.

(** The length of the range of a vector. *)
Lemma range_length h v :
  vec_ok h v ->
  ptr_diff (SimpleVector.end_ v) (SimpleVector.begin v)
  = Ok (Z.of_nat (length (elems h v))).
Proof.
  intros Hok. pose proof (vec_ok_fields _ _ Hok) as Hf.
  rewrite (length_elems _ _ Hok).
  destruct v as [[[bk o]] size cap].
  unfold SimpleVector.end_, SimpleVector.begin, ArrayPtr.Get, ptr_add; simpl in *.
  rewrite ptr_diff_same. f_equal. lia.
Qed.

(** The element [k] positions after [begin()]. *)
Lemma load_drop h v (k : nat) x l :
  vec_ok h v -> drop k (elems h v) = x :: l ->
  load (ptr_add (SimpleVector.begin v) (Z.of_nat k)) h = Ok x /\
  drop (S k) (elems h v) = l.
Proof.
  intros Hok Hdrop. split.
  - apply load_elem; [done|].
    by rewrite <- (Nat.add_0_r k), <- lookup_drop, Hdrop.
  - by rewrite <- (Nat.add_1_l k), Nat.add_comm, <- drop_drop, Hdrop.
Qed.

(** [std::equal] on what is left of two ranges of the same length. *)
Lemma equal_loop_elems h a b :
  vec_ok h a -> vec_ok h b ->
  forall (n k : nat),
    length (drop k (elems h a)) = n -> length (drop k (elems h b)) = n ->
    exists r,
      equal_loop eqb n (ptr_add (SimpleVector.begin a) (Z.of_nat k))
        (ptr_add (SimpleVector.begin b) (Z.of_nat k)) h = Ok r /\
      (r = true <->
       Forall2 (fun x y => eqb x y = true)
         (drop k (elems h a)) (drop k (elems h b))).
Proof.
  intros Ha Hb. induction n as [|n IH]; intros k Hla Hlb.
  - exists true. split; [done|].
    apply nil_length_inv in Hla, Hlb. rewrite Hla, Hlb.
    split; [by constructor|done].
  - destruct (drop k (elems h a)) as [|x la] eqn:Hda; [done|].
    destruct (drop k (elems h b)) as [|y lb] eqn:Hdb; [done|].
    destruct (load_drop _ _ _ _ _ Ha Hda) as [Hx Hda'].
    destruct (load_drop _ _ _ _ _ Hb Hdb) as [Hy Hdb'].
    simpl. rewrite Hx, Hy. simpl. rewrite !ptr_add_add.
    destruct (eqb x y) eqn:Hxy.
    + destruct (IH (S k)) as (r & Hrun & Hr).
      { rewrite Hda'. simpl in Hla. lia. }
      { rewrite Hdb'. simpl in Hlb. lia. }
      exists r. split; [done|]. rewrite Hr, Hda', Hdb'. split.
      * intros Hall. by constructor.
      * intros Hall. by inversion Hall.
    + exists false. split; [done|]. split; [done|].
      intros Hall. inversion Hall. congruence.
Qed.

(** [std::lexicographical_compare] on what is left of two ranges. *)
Lemma lexicographical_compare_loop_elems h a b :
  vec_ok h a -> vec_ok h b ->
  forall (n1 n2 k : nat),
    length (drop k (elems h a)) = n1 -> length (drop k (elems h b)) = n2 ->
    lexicographical_compare_loop ltb n1 n2
      (ptr_add (SimpleVector.begin a) (Z.of_nat k))
      (ptr_add (SimpleVector.begin b) (Z.of_nat k)) h
    = Ok (lex ltb (drop k (elems h a)) (drop k (elems h b))).
Proof.
  intros Ha Hb. induction n1 as [|n1 IH]; intros n2 k Hla Hlb.
  - apply nil_length_inv in Hla. rewrite Hla.
    destruct n2 as [|n2].
    + apply nil_length_inv in Hlb. by rewrite Hlb.
    + by destruct (drop k (elems h b)).
  - destruct (drop k (elems h a)) as [|x la] eqn:Hda; [done|].
    destruct n2 as [|n2].
    + apply nil_length_inv in Hlb. by rewrite Hlb.
    + destruct (drop k (elems h b)) as [|y lb] eqn:Hdb; [done|].
      destruct (load_drop _ _ _ _ _ Ha Hda) as [Hx Hda'].
      destruct (load_drop _ _ _ _ _ Hb Hdb) as [Hy Hdb'].
      simpl. rewrite Hx, Hy. simpl. rewrite !ptr_add_add.
      destruct (ltb x y); [done|]. destruct (ltb y x); [done|].
      rewrite (IH n2 (S k)).
      * by rewrite Hda', Hdb'.
      * rewrite Hda'. simpl in Hla. lia.
      * rewrite Hdb'. simpl in Hlb. lia.
Qed.

(** [operator<] is the lexicographic order of the element sequences. *)
Lemma operator_lt_lex h a b :
  vec_ok h a -> vec_ok h b ->
  operator_lt ltb a b h = Ok (lex ltb (elems h a) (elems h b)).
Proof.
  intros Ha Hb.
  unfold operator_lt, std_lexicographical_compare.
  rewrite (range_length _ _ Ha), (range_length _ _ Hb). simpl.
  destruct (Z.ltb_spec (Z.of_nat (length (elems h a))) 0); [lia|].
  destruct (Z.ltb_spec (Z.of_nat (length (elems h b))) 0); [lia|]. simpl.
  rewrite !Nat2Z.id.
  rewrite (ptr_add_zero a) at 1. rewrite (ptr_add_zero b) at 1.
  by rewrite (lexicographical_compare_loop_elems h a b Ha Hb _ _ 0%nat).
Qed.

(** [operator==] compares the element sequences. *)
Lemma operator_eq_elems h a b :
  vec_ok h a -> vec_ok h b ->
  exists r,
    operator_eq eqb a b h = Ok r /\
    (r = true <->
     Forall2 (fun x y => eqb x y = true) (elems h a) (elems h b)).
Proof.
  intros Ha Hb.
  unfold operator_eq, std_equal.
  rewrite (range_length _ _ Ha), (range_length _ _ Hb). simpl.
  destruct (Z.ltb_spec (Z.of_nat (length (elems h a))) 0); [lia|].
  destruct (Z.ltb_spec (Z.of_nat (length (elems h b))) 0); [lia|]. simpl.
  destruct (Z.eqb_spec (Z.of_nat (length (elems h a)))
              (Z.of_nat (length (elems h b)))) as [Heq|Hne].
  - rewrite Nat2Z.id.
    destruct (equal_loop_elems h a b Ha Hb (length (elems h a)) 0%nat)
      as (r & Hrun & Hr); [by rewrite drop_0|rewrite drop_0; lia|].
    rewrite !drop_0 in Hr.
    exists r. split; [|done].
    rewrite (ptr_add_zero a) at 1. by rewrite (ptr_add_zero b) at 1.
  - exists false. split; [done|]. split; [done|].
    intros Hall. apply Forall2_length in Hall. lia.
Qed.

(** X16.  [operator==] on two vectors returns whether they have the same
    number of elements and equal elements at every position; the capacity
    and the address of the array play no part.  [operator!=] returns the
    negation.  With an element type whose [==] is equality, two vectors
    compare equal exactly when their element sequences are the same. *)
Theorem X16_operator_eq h a b :
  vec_ok h a -> vec_ok h b ->
  exists r,
    operator_eq eqb a b h = Ok r /\
    operator_ne eqb a b h = Ok (negb r) /\
    (r = true <->
     Forall2 (fun x y => eqb x y = true) (elems h a) (elems h b)) /\
    ((forall x y, eqb x y = true <-> x = y) ->
     (r = true <-> elems h a = elems h b)).
Proof.
  intros Ha Hb.
  destruct (operator_eq_elems h a b Ha Hb) as (r & Hrun & Hr).
  exists r. split; [done|]. split.
  { unfold operator_ne. by rewrite Hrun. }
  split; [done|]. intros Heqb. rewrite Hr. split.
  - intros Hall. apply list_eq_Forall2.
    eapply Forall2_impl; [exact Hall|]. intros x y. by apply Heqb.
  - intros ->. apply Forall2_same_length_lookup_2; [done|].
    intros i x y Hx Hy. apply Heqb. congruence.
Qed.

(** X17.  [operator<] on two vectors is the lexicographic order of their
    element sequences: the first position at which the elements differ
    decides, and a vector that is a proper prefix of the other is less.
    [a > b] is [b < a], [a <= b] is the negation of [b < a] and [a >= b]
    the negation of [a < b]; none of them fails on valid vectors. *)
Theorem X17_operator_lt h a b :
  vec_ok h a -> vec_ok h b ->
  operator_lt ltb a b h = Ok (lex ltb (elems h a) (elems h b)) /\
  operator_gt ltb a b h = Ok (lex ltb (elems h b) (elems h a)) /\
  operator_le ltb a b h = Ok (negb (lex ltb (elems h b) (elems h a))) /\
  operator_ge ltb a b h = Ok (negb (lex ltb (elems h a) (elems h b))) /\
  (forall l, l <> [] -> elems h b = elems h a ++ l ->
             (forall x, ltb x x = false) ->
             lex ltb (elems h a) (elems h b) = true).
Proof.
  intros Ha Hb.
  unfold operator_gt, operator_le, operator_ge.
  rewrite (operator_lt_lex h a b Ha Hb), (operator_lt_lex h b a Hb Ha).
  split; [done|]. split; [done|]. split; [done|]. split; [done|].
  intros l Hl -> Hirr.
  induction (elems h a) as [|x la IH]; simpl.
  - by destruct l.
  - by rewrite Hirr.
Qed.

(** The lexicographic order is asymmetric when the order of the elements
    is. *)
Lemma lex_asymmetric l1 : forall l2,
  (forall x y, ltb x y = true -> ltb y x = false) ->
  lex ltb l1 l2 = true -> lex ltb l2 l1 = false.
Proof.
  induction l1 as [|x l1 IH]; intros [|y l2] Hasym; simpl; try done.
  destruct (ltb x y) eqn:Hxy.
  - by rewrite (Hasym _ _ Hxy).
  - destruct (ltb y x) eqn:Hyx; [done|]. by apply IH.
Qed.

(** Two sequences of which neither is less than the other have equivalent
    elements at every position. *)
Lemma lex_equivalent l1 : forall l2,
  (forall x y, eqb x y = true <-> ltb x y = false /\ ltb y x = false) ->
  Forall2 (fun x y => eqb x y = true) l1 l2
  <-> lex ltb l1 l2 = false /\ lex ltb l2 l1 = false.
Proof.
  induction l1 as [|x l1 IH]; intros [|y l2] Heqb; simpl.
  - split; [done|by constructor].
  - split; [intros Hall; inversion Hall|by intros [? _]].
  - split; [intros Hall; inversion Hall|by intros [_ ?]].
  - split.
    + intros Hall. inversion Hall as [|? ? ? ? Hxy Hrest]; subst.
      apply Heqb in Hxy as [-> ->]. by apply IH.
    + intros [H1 H2].
      destruct (ltb x y) eqn:Hxy; [done|].
      destruct (ltb y x) eqn:Hyx; [done|].
      constructor; [by apply Heqb|]. by apply IH.
Qed.

(** X18.  For an element type whose [<] is asymmetric and whose [==] holds
    exactly of the elements of which neither is less than the other, the
    comparison operators of vectors are consistent: exactly one of
    [a < b], [a == b] and [a > b] holds. *)
Theorem X18_comparison_trichotomy h a b :
  (forall x y, ltb x y = true -> ltb y x = false) ->
  (forall x y, eqb x y = true <-> ltb x y = false /\ ltb y x = false) ->
  vec_ok h a -> vec_ok h b ->
  exists r_lt r_eq r_gt : bool,
    operator_lt ltb a b h = Ok r_lt /\
    operator_eq eqb a b h = Ok r_eq /\
    operator_gt ltb a b h = Ok r_gt /\
    r_eq = negb r_lt && negb r_gt /\
    r_lt && r_gt = false.
Proof.
  intros Hasym Heqb Ha Hb.
  destruct (operator_eq_elems h a b Ha Hb) as (r & Hrun & Hr).
  exists (lex ltb (elems h a) (elems h b)), r,
    (lex ltb (elems h b) (elems h a)).
  split; [by apply operator_lt_lex|]. split; [done|].
  split; [by apply operator_lt_lex|].
  rewrite (lex_equivalent _ _ Heqb) in Hr.
  pose proof (lex_asymmetric (elems h a) (elems h b) Hasym) as Hab.
  destruct (lex ltb (elems h a) (elems h b)),
    (lex ltb (elems h b) (elems h a)), r; simpl; try done.
  - by specialize (Hab eq_refl).
  - by specialize (Hab eq_refl).
  - destruct Hr as [Hr _]. by destruct (Hr eq_refl).
  - destruct Hr as [Hr _]. by destruct (Hr eq_refl).
  - destruct Hr as [_ Hr]. by specialize (Hr (conj eq_refl eq_refl)).
Qed.

End ComparisonFacts.

(** ** ArrayPtr: ownership of the array *)

Section ArrayPtrOwnership.
Context {T : Type}.
Local Abbreviation heap := (list (option (list T))).
Implicit Types (h : heap) (s : list ArrayPtr.t) (a b : ArrayPtr.t).

Local Arguments delete_array : simpl never.

Lemma delete_array_null h : delete_array nullptr h = Ok h.
Proof. unfold delete_array. by rewrite decide_True. Qed.

Lemma delete_array_dead (blk : nat) h :
  h !! blk = Some None ->
  delete_array (Ptr (Some blk) 0) h = Err undefined_behavior.
Proof.
  intros Hb. unfold delete_array. rewrite decide_False by done. simpl.
  by rewrite Hb.
Qed.

(** X19.  [Release] hands the address of the array to the caller and
    leaves the owner empty: the destructor of the owner then deletes
    nothing, and an [ArrayPtr] built from the address released deletes the
    array in its destructor.  An owner that has not released its array
    deletes it, once: deleting it again is undefined behaviour. *)
Theorem X19_ArrayPtr_Release a h (blk : nat) (l : list T) :
  ArrayPtr.raw_ptr_ a = Ptr (Some blk) 0 -> h !! blk = Some (Some l) ->
  fst (ArrayPtr.Release a) = ArrayPtr.Get a /\
  ArrayPtr.to_bool a = true /\
  ArrayPtr.to_bool (snd (ArrayPtr.Release a)) = false /\
  ArrayPtr.destroy (snd (ArrayPtr.Release a)) h = Ok h /\
  ArrayPtr.destroy (ArrayPtr.from_raw (fst (ArrayPtr.Release a))) h
  = Ok (<[blk := None]> h) /\
  ArrayPtr.destroy a h = Ok (<[blk := None]> h) /\
  ArrayPtr.destroy a (<[blk := None]> h) = Err undefined_behavior.
Proof.
  intros Hraw Hlive. destruct a as [p]. simpl in Hraw. subst p.
  unfold ArrayPtr.Release, ArrayPtr.Get, ArrayPtr.to_bool, ArrayPtr.destroy,
    ArrayPtr.from_raw; simpl.
  rewrite delete_array_null, (delete_array_live _ _ _ Hlive).
  rewrite delete_array_dead by (by eapply heap_lookup_insert).
  by repeat split.
Qed.

(** X20.  [ArrayPtr::swap] exchanges the addresses the two owners hold and
    deletes nothing; swapping twice restores both owners, and an owner
    swapped with itself is left as it is. *)
Theorem X20_ArrayPtr_swap s (i j : nat) a b :
  s !! i = Some a -> s !! j = Some b ->
  ArrayPtr.swap (cell ArrayPtr.default i) (cell ArrayPtr.default j) s
  = <[j := a]> (<[i := b]> s) /\
  ArrayPtr.swap (cell ArrayPtr.default i) (cell ArrayPtr.default j)
    (ArrayPtr.swap (cell ArrayPtr.default i) (cell ArrayPtr.default j) s)
  = s /\
  (i = j ->
   ArrayPtr.swap (cell ArrayPtr.default i) (cell ArrayPtr.default j) s = s).
Proof.
  intros Ha Hb.
  pose proof (lookup_lt_Some _ _ _ Ha) as Hla.
  pose proof (lookup_lt_Some _ _ _ Hb) as Hlb.
  assert (Hswap : forall s0 a0 b0,
            s0 !! i = Some a0 -> s0 !! j = Some b0 ->
            ArrayPtr.swap (cell ArrayPtr.default i) (cell ArrayPtr.default j) s0
            = <[j := a0]> (<[i := b0]> s0)).
  { intros s0 [pa] [pb] Ha0 Hb0.
    unfold ArrayPtr.swap, std_swap, ArrayPtr.raw_ptr_ref, field, cell; simpl.
    by rewrite Ha0, Hb0. }
  assert (Hi : <[j := a]> (<[i := b]> s) !! i = Some b).
  { destruct (decide (i = j)) as [->|Hij].
    - rewrite list_lookup_insert_eq by (by rewrite length_insert).
      congruence.
    - rewrite list_lookup_insert_ne by done.
      by rewrite list_lookup_insert_eq. }
  assert (Hj : <[j := a]> (<[i := b]> s) !! j = Some a).
  { by rewrite list_lookup_insert_eq by (by rewrite length_insert). }
  rewrite (Hswap s a b Ha Hb). split; [done|]. split.
  - rewrite (Hswap _ b a Hi Hj).
    apply list_eq. intros k.
    destruct (decide (k = j)) as [->|Hkj].
    + rewrite list_lookup_insert_eq by (by rewrite !length_insert). done.
    + rewrite list_lookup_insert_ne by done.
      destruct (decide (k = i)) as [->|Hki].
      * rewrite list_lookup_insert_eq by (by rewrite !length_insert). done.
      * by rewrite !list_lookup_insert_ne.
  - intros ->. assert (a = b) as -> by congruence.
    rewrite list_insert_insert_eq. by apply list_insert_id.
Qed.

(** X21.  Move assignment to an [ArrayPtr] from another one deletes the
    array of the destination, gives the destination the address the source
    held and leaves the source empty; the array of the source is not
    touched. *)
Theorem X21_ArrayPtr_move_assign s h (this other : nat) a b :
  this <> other -> s !! this = Some a -> s !! other = Some b ->
  (<[this := b]> (<[other := ArrayPtr.default]> s)) !! this = Some b /\
  (<[this := b]> (<[other := ArrayPtr.default]> s)) !! other
  = Some ArrayPtr.default /\
  (ArrayPtr.raw_ptr_ a = nullptr ->
   ArrayPtr.move_assign (T:=T)
     (cell ArrayPtr.default this) (cell ArrayPtr.default other) s h
   = Ok (<[this := b]> (<[other := ArrayPtr.default]> s), h)) /\
  (forall (blk : nat) (l : list T),
     ArrayPtr.raw_ptr_ a = Ptr (Some blk) 0 -> h !! blk = Some (Some l) ->
     ArrayPtr.move_assign (T:=T)
       (cell ArrayPtr.default this) (cell ArrayPtr.default other) s h
     = Ok (<[this := b]> (<[other := ArrayPtr.default]> s),
           <[blk := None]> h)).
Proof.
  intros Hne Ha Hb.
  pose proof (lookup_lt_Some _ _ _ Ha) as Hla.
  pose proof (lookup_lt_Some _ _ _ Hb) as Hlb.
  rewrite (ArrayPtr_move_assign_distinct s h this other a b Hne Ha Hb).
  split; [by rewrite list_lookup_insert_eq by (by rewrite length_insert)|].
  split.
  { rewrite list_lookup_insert_ne by done.
    by rewrite list_lookup_insert_eq. }
  destruct a as [pa]. unfold ArrayPtr.destroy; simpl. split.
  - intros ->. by rewrite delete_array_null.
  - intros blk l -> Hlive. by rewrite (delete_array_live _ _ _ Hlive).
Qed.

(** X22.  Move construction of an [ArrayPtr] gives the new owner the
    address the source held and leaves the source empty, so that the array
    has one owner; the other owners are not touched, and the destructor of
    the source deletes nothing. *)
Theorem X22_ArrayPtr_move_construct s h (other : nat) b :
  s !! other = Some b ->
  fst (ArrayPtr.move_construct (cell ArrayPtr.default other) s) = b /\
  snd (ArrayPtr.move_construct (cell ArrayPtr.default other) s) !! other
  = Some ArrayPtr.default /\
  (forall k : nat, k <> other ->
     snd (ArrayPtr.move_construct (cell ArrayPtr.default other) s) !! k
     = s !! k) /\
  ArrayPtr.destroy (T:=T)
    (rd (cell ArrayPtr.default other)
       (snd (ArrayPtr.move_construct (cell ArrayPtr.default other) s))) h
  = Ok h.
Proof.
  intros Hb. pose proof (lookup_lt_Some _ _ _ Hb) as Hlb.
  rewrite (ArrayPtr_move_construct_spec s other b Hb). simpl.
  rewrite list_lookup_insert_eq by done. simpl.
  split; [done|]. split; [done|]. split.
  - intros k Hk. by rewrite list_lookup_insert_ne.
  - unfold ArrayPtr.destroy; simpl. apply delete_array_null.
Qed.

End ArrayPtrOwnership.

(** ** A call leaves the other vectors alone *)

Section Frame.
Context {T : Type}.
Variable dflt : T.
Variable moved_from : T -> T.
Local Abbreviation heap := (list (option (list T))).
Implicit Types (h : heap) (s : list SimpleVector.t) (v w : SimpleVector.t)
  (p q d : ptr).

Local Arguments size_t : simpl never.

(** An assignment through a pointer changes the array it points into and no
    other. *)
Lemma store_kept p x h h' :
  store p x h = Ok h' ->
  forall b : nat, blk p <> Some b -> h' !! b = h !! b.
Proof.
  unfold store. intros Hrun b Hne.
  destruct (blk p) as [bp|]; [|done].
  destruct (h !! bp) as [[l|]|] eqn:Hb; try done.
  destruct (_ && _); [|done]. injection Hrun as <-.
  rewrite list_lookup_insert_ne; [done|congruence].
Qed.

Lemma fill_loop_kept n : forall p x h h',
  SimpleVector.fill_loop n p x h = Ok h' ->
  forall b : nat, blk p <> Some b -> h' !! b = h !! b.
Proof.
  induction n as [|n IH]; intros p x h h' Hrun b Hne; simpl in Hrun; inv_ok.
  - by subst.
  - erewrite IH by done. by eapply store_kept.
Qed.

Lemma reset_loop_kept n : forall p h h',
  SimpleVector.reset_loop dflt n p h = Ok h' ->
  forall b : nat, blk p <> Some b -> h' !! b = h !! b.
Proof.
  induction n as [|n IH]; intros p h h' Hrun b Hne; simpl in Hrun; inv_ok.
  - by subst.
  - erewrite IH by done. by eapply store_kept.
Qed.

Lemma copy_init_kept init : forall p h q h',
  SimpleVector.copy_init init p h = Ok (q, h') ->
  forall b : nat, blk p <> Some b -> h' !! b = h !! b.
Proof.
  induction init as [|x init IH]; intros p h q h' Hrun b Hne;
    simpl in Hrun; inv_ok.
  - by subst.
  - erewrite IH by done. by eapply store_kept.
Qed.

(** A copy reads its source: only the array of the destination changes. *)
Lemma copy_loop_kept n : forall p d h q h',
  SimpleVector.copy_loop n p d h = Ok (q, h') ->
  forall b : nat, blk d <> Some b -> h' !! b = h !! b.
Proof.
  induction n as [|n IH]; intros p d h q h' Hrun b Hne; simpl in Hrun; inv_ok.
  - by subst.
  - erewrite IH by done. by eapply store_kept.
Qed.

Lemma move_loop_kept n : forall p d h q h',
  SimpleVector.move_loop moved_from n p d h = Ok (q, h') ->
  forall b : nat, blk p <> Some b -> blk d <> Some b -> h' !! b = h !! b.
Proof.
  induction n as [|n IH]; intros p d h q h' Hrun b Hp Hd; simpl in Hrun;
    inv_ok.
  - by subst.
  - erewrite IH by done. erewrite store_kept by done. by eapply store_kept.
Qed.

Lemma copy_backward_loop_kept n : forall p d h q h',
  SimpleVector.copy_backward_loop n p d h = Ok (q, h') ->
  blk q = blk d /\
  forall b : nat, blk d <> Some b -> h' !! b = h !! b.
Proof.
  induction n as [|n IH]; intros p d h q h' Hrun; simpl in Hrun; inv_ok.
  - by subst.
  - match goal with H : SimpleVector.copy_backward_loop _ _ _ _ = _ |- _ =>
      apply IH in H as [Hq Hkept] end.
    split; [done|]. intros b Hne.
    rewrite Hkept by done. by eapply store_kept.
Qed.

Lemma move_backward_loop_kept n : forall p d h q h',
  SimpleVector.move_backward_loop moved_from n p d h = Ok (q, h') ->
  blk q = blk d /\
  forall b : nat, blk p <> Some b -> blk d <> Some b -> h' !! b = h !! b.
Proof.
  induction n as [|n IH]; intros p d h q h' Hrun; simpl in Hrun; inv_ok.
  - by subst.
  - match goal with
    | H : SimpleVector.move_backward_loop _ _ _ _ _ = _ |- _ =>
        apply IH in H as [Hq Hkept] end.
    split; [done|]. intros b Hp Hd.
    rewrite Hkept by done. erewrite store_kept by done. by eapply store_kept.
Qed.

Lemma ptr_diff_blk p q z : ptr_diff p q = Ok z -> blk p = blk q.
Proof. unfold ptr_diff. by case_decide. Qed.

Lemma std_fill_kept p q x h h' :
  SimpleVector.std_fill p q x h = Ok h' ->
  forall b : nat, blk p <> Some b -> h' !! b = h !! b.
Proof.
  unfold SimpleVector.std_fill. intros Hrun. inv_ok.
  by eapply fill_loop_kept.
Qed.

Lemma std_copy_kept p q d h r h' :
  SimpleVector.std_copy p q d h = Ok (r, h') ->
  forall b : nat, blk d <> Some b -> h' !! b = h !! b.
Proof.
  unfold SimpleVector.std_copy. intros Hrun. inv_ok.
  by eapply copy_loop_kept.
Qed.

Lemma std_move_kept p q d h r h' :
  SimpleVector.std_move moved_from p q d h = Ok (r, h') ->
  forall b : nat, blk p <> Some b -> blk d <> Some b -> h' !! b = h !! b.
Proof.
  unfold SimpleVector.std_move. intros Hrun. inv_ok.
  by eapply move_loop_kept.
Qed.

Lemma std_copy_backward_kept p q d h r h' :
  SimpleVector.std_copy_backward p q d h = Ok (r, h') ->
  blk r = blk d /\
  forall b : nat, blk d <> Some b -> h' !! b = h !! b.
Proof.
  unfold SimpleVector.std_copy_backward. intros Hrun. inv_ok.
  by eapply copy_backward_loop_kept.
Qed.

Lemma std_move_backward_kept p q d h r h' :
  SimpleVector.std_move_backward moved_from p q d h = Ok (r, h') ->
  blk r = blk d /\
  forall b : nat, blk q <> Some b -> blk d <> Some b -> h' !! b = h !! b.
Proof.
  unfold SimpleVector.std_move_backward. intros Hrun. inv_ok.
  by eapply move_backward_loop_kept.
Qed.

(** An allocation leaves the arrays that exist as they are, and the array
    it returns is a new one. *)
Lemma sized_kept n h (a : ArrayPtr.t) h1 :
  ArrayPtr.sized dflt n h = Ok (a, h1) ->
  (forall b : nat, (b < length h)%nat -> h1 !! b = h !! b) /\
  (forall b : nat, (b < length h)%nat ->
                   blk (ArrayPtr.raw_ptr_ a) <> Some b).
Proof.
  intros Hrun. apply sized_inv in Hrun as [(_ & -> & ->)|(_ & -> & ->)].
  - by split.
  - split.
    + intros b Hb. by apply old_block_lookup.
    + simpl. intros b Hb [= <-]. lia.
Qed.

Lemma destroy_kept (a : ArrayPtr.t) h h' :
  ArrayPtr.destroy a h = Ok h' ->
  forall b : nat, blk (ArrayPtr.raw_ptr_ a) <> Some b -> h' !! b = h !! b.
Proof.
  intros Hrun b Hne.
  apply destroy_inv in Hrun as [[_ ->]|(ba & Hba & ->)]; [done|].
  rewrite list_lookup_insert_ne; [done|congruence].
Qed.

(** The reallocation of [Resize] and [Reserve]. *)
Lemma reallocate_kept h v nc (arr : ArrayPtr.t) h1 r h2 h3 :
  ArrayPtr.sized dflt nc h = Ok (arr, h1) ->
  SimpleVector.std_move moved_from (SimpleVector.begin v)
    (SimpleVector.end_ v) (ArrayPtr.Get arr) h1 = Ok (r, h2) ->
  ArrayPtr.destroy (SimpleVector.items_ v) h2 = Ok h3 ->
  others_kept h v h3.
Proof.
  intros Hnew Hmove Hdel b Hb Hne.
  apply sized_kept in Hnew as [Hold Hfresh].
  rewrite (destroy_kept _ _ _ Hdel) by done.
  rewrite (std_move_kept _ _ _ _ _ _ Hmove); [by apply Hold|done|].
  by apply Hfresh.
Qed.

Lemma Resize_kept n v h v' h' :
  SimpleVector.Resize dflt moved_from n v h = Ok (v', h') ->
  others_kept h v h'.
Proof.
  intros Hrun. unfold SimpleVector.Resize in Hrun.
  destruct (n >? SimpleVector.capacity_ v).
  - apply bind_Ok in Hrun as ([arr h1] & Hnew & Hrun). cbv beta iota in Hrun.
    apply bind_Ok in Hrun as ([r h2] & Hmove & Hrun). cbv beta iota in Hrun.
    apply bind_Ok in Hrun as (h3 & Hdel & Hrun).
    injection Hrun as <- <-.
    destruct v as [[pv] size cap], arr as [pa]; simpl in *.
    by eapply (reallocate_kept _
                 (SimpleVector.Make (ArrayPtr.Make pv) size cap)).
  - destruct (n >? SimpleVector.size_ v).
    + inv_ok. subst. intros b Hb Hne. by eapply reset_loop_kept.
    + inv_ok. by subst.
Qed.

Lemma Reserve_kept n v h v' h' :
  SimpleVector.Reserve dflt moved_from n v h = Ok (v', h') ->
  others_kept h v h'.
Proof.
  intros Hrun. unfold SimpleVector.Reserve in Hrun.
  destruct (SimpleVector.capacity_ v <? n).
  - apply bind_Ok in Hrun as ([arr h1] & Hnew & Hrun). cbv beta iota in Hrun.
    apply bind_Ok in Hrun as ([r h2] & Hmove & Hrun). cbv beta iota in Hrun.
    apply bind_Ok in Hrun as (h3 & Hdel & Hrun).
    injection Hrun as <- <-.
    destruct v as [[pv] size cap], arr as [pa]; simpl in *.
    by eapply (reallocate_kept _
                 (SimpleVector.Make (ArrayPtr.Make pv) size cap)).
  - inv_ok. by subst.
Qed.

Lemma CheckCapacityAndResize_kept v h v' h' :
  SimpleVector.CheckCapacityAndResize dflt moved_from v h = Ok (v', h') ->
  others_kept h v h'.
Proof.
  intros Hrun. unfold SimpleVector.CheckCapacityAndResize in Hrun.
  destruct (SimpleVector.size_ v >=? SimpleVector.capacity_ v).
  - by eapply Resize_kept.
  - inv_ok. by subst.
Qed.

(** After [CheckCapacityAndResize] the array of the vector is its old one
    or a new one. *)
Lemma grown_owner v h v1 h1 (b : nat) :
  vec_ok h v ->
  SimpleVector.CheckCapacityAndResize dflt moved_from v h = Ok (v1, h1) ->
  (b < length h)%nat -> owned v <> Some b -> owned v1 <> Some b.
Proof.
  intros Hok Hccr Hb Hne Hown.
  pose proof (CheckCapacityAndResize_effect dflt moved_from _ _ _ _ Hok Hccr)
    as Heff.
  destruct (effect_owned _ _ _ _ _ Heff Hown) as [Hsame | ->]; [done|lia].
Qed.

Lemma PushBack_kept x v h v' h' :
  vec_ok h v ->
  SimpleVector.PushBack dflt moved_from x v h = Ok (v', h') ->
  others_kept h v h'.
Proof.
  intros Hok Hrun b Hb Hne. unfold SimpleVector.PushBack in Hrun.
  apply bind_Ok in Hrun as ([v1 h1] & Hccr & Hrun). cbv beta iota in Hrun.
  apply bind_Ok in Hrun as (h2 & Hstore & Hrun). injection Hrun as <- <-.
  rewrite (store_kept _ _ _ _ Hstore).
  - by eapply CheckCapacityAndResize_kept.
  - by eapply grown_owner.
Qed.

Lemma Insert_kept pos x v h it v' h' :
  vec_ok h v ->
  SimpleVector.Insert dflt moved_from pos x v h = Ok (it, v', h') ->
  others_kept h v h'.
Proof.
  intros Hok Hrun b Hb Hne. unfold SimpleVector.Insert in Hrun.
  apply bind_Ok in Hrun as (c1 & _ & Hrun).
  apply bind_Ok in Hrun as (c2 & _ & Hrun).
  apply bind_Ok in Hrun as (? & _ & Hrun).
  destruct (decide _).
  - apply bind_Ok in Hrun as ([v1 h1] & Hpush & Hrun). cbv beta iota in Hrun.
    injection Hrun as _ <- <-. by eapply PushBack_kept.
  - apply bind_Ok in Hrun as (d0 & _ & Hrun).
    apply bind_Ok in Hrun as ([v1 h1] & Hccr & Hrun). cbv beta iota in Hrun.
    apply bind_Ok in Hrun as ([it1 h2] & Hshift & Hrun). cbv beta iota in Hrun.
    apply bind_Ok in Hrun as (h3 & Hstore & Hrun). injection Hrun as _ <- <-.
    pose proof (grown_owner _ _ _ _ b Hok Hccr Hb Hne) as Hne1.
    apply std_copy_backward_kept in Hshift as [Hit Hkept].
    rewrite (store_kept _ _ _ _ Hstore) by (simpl; by rewrite Hit).
    rewrite Hkept by done. by eapply CheckCapacityAndResize_kept.
Qed.

Lemma Insert_rv_kept pos x v h it v' h' :
  vec_ok h v ->
  SimpleVector.Insert_rv dflt moved_from pos x v h = Ok (it, v', h') ->
  others_kept h v h'.
Proof.
  intros Hok Hrun b Hb Hne. unfold SimpleVector.Insert_rv in Hrun.
  destruct (decide _).
  - apply bind_Ok in Hrun as ([v1 h1] & Hpush & Hrun). cbv beta iota in Hrun.
    injection Hrun as _ <- <-. by eapply PushBack_kept.
  - apply bind_Ok in Hrun as (d0 & _ & Hrun).
    apply bind_Ok in Hrun as ([v1 h1] & Hccr & Hrun). cbv beta iota in Hrun.
    apply bind_Ok in Hrun as ([it1 h2] & Hshift & Hrun). cbv beta iota in Hrun.
    apply bind_Ok in Hrun as (h3 & Hstore & Hrun). injection Hrun as _ <- <-.
    pose proof (grown_owner _ _ _ _ b Hok Hccr Hb Hne) as Hne1.
    apply std_move_backward_kept in Hshift as [Hit Hkept].
    rewrite (store_kept _ _ _ _ Hstore) by (simpl; by rewrite Hit).
    rewrite Hkept by done. by eapply CheckCapacityAndResize_kept.
Qed.

Lemma Erase_kept pos v h it v' h' :
  SimpleVector.Erase moved_from pos v h = Ok (it, v', h') ->
  others_kept h v h'.
Proof.
  intros Hrun b Hb Hne. unfold SimpleVector.Erase in Hrun.
  apply bind_Ok in Hrun as (c1 & _ & Hrun).
  apply bind_Ok in Hrun as (c2 & _ & Hrun).
  apply bind_Ok in Hrun as (? & _ & Hrun).
  apply bind_Ok in Hrun as (d0 & _ & Hrun).
  apply bind_Ok in Hrun as (c & _ & Hrun).
  apply bind_Ok in Hrun as (h1 & Hshift & Hrun). injection Hrun as _ <- <-.
  destruct c; inv_ok; subst; [|done].
  by eapply std_move_kept.
Qed.

(** The constructors write to the array they allocate. *)
Lemma sized_constructor_kept n h v' h' :
  SimpleVector.sized dflt n h = Ok (v', h') ->
  others_kept h SimpleVector.default h'.
Proof.
  intros Hrun b Hb _. unfold SimpleVector.sized in Hrun.
  apply bind_Ok in Hrun as ([a h1] & Hnew & Hrun). injection Hrun as <- <-.
  by apply (sized_kept _ _ _ _ Hnew).
Qed.

Lemma filled_kept n x h v' h' :
  SimpleVector.filled dflt n x h = Ok (v', h') ->
  others_kept h SimpleVector.default h'.
Proof.
  intros Hrun b Hb _. unfold SimpleVector.filled in Hrun.
  apply bind_Ok in Hrun as ([a h1] & Hnew & Hrun). cbv beta iota in Hrun.
  apply sized_kept in Hnew as [Hold Hfresh].
  destruct (n =? 0).
  - injection Hrun as <- <-. by apply Hold.
  - apply bind_Ok in Hrun as (h2 & Hfill & Hrun). injection Hrun as <- <-.
    rewrite (std_fill_kept _ _ _ _ _ Hfill); [by apply Hold|].
    by apply Hfresh.
Qed.

Lemma from_list_kept init h v' h' :
  SimpleVector.from_list dflt init h = Ok (v', h') ->
  others_kept h SimpleVector.default h'.
Proof.
  intros Hrun b Hb _. unfold SimpleVector.from_list in Hrun.
  apply bind_Ok in Hrun as ([a h1] & Hnew & Hrun). cbv beta iota in Hrun.
  apply bind_Ok in Hrun as ([r h2] & Hcopy & Hrun). injection Hrun as <- <-.
  apply sized_kept in Hnew as [Hold Hfresh].
  rewrite (copy_init_kept _ _ _ _ _ Hcopy); [by apply Hold|].
  by apply Hfresh.
Qed.

Lemma copy_construct_kept other h v' h' :
  SimpleVector.copy_construct dflt other h = Ok (v', h') ->
  others_kept h SimpleVector.default h'.
Proof.
  intros Hrun b Hb _. unfold SimpleVector.copy_construct in Hrun.
  apply bind_Ok in Hrun as ([a h1] & Hnew & Hrun). cbv beta iota in Hrun.
  apply bind_Ok in Hrun as ([r h2] & Hcopy & Hrun). injection Hrun as <- <-.
  apply sized_kept in Hnew as [Hold Hfresh].
  rewrite (std_copy_kept _ _ _ _ _ _ Hcopy); [by apply Hold|].
  by apply Hfresh.
Qed.

(** The buffer of a vector whose array is left alone. *)
Lemma buffer_kept h h' w :
  (forall b : nat, owned w = Some b -> h' !! b = h !! b) ->
  buffer h' w = buffer h w.
Proof.
  intros Hkept. unfold buffer. fold (owned w).
  destruct (owned w) as [b|]; [|done]. by rewrite Hkept.
Qed.

(** X23.  A call of the interface changes the vectors it may modify and
    no other: every other vector of the program keeps its members and the
    contents of its array.  The source of a copy construction or of a
    copy assignment is among the vectors that are kept. *)
Theorem X23_other_vectors_kept (c : SimpleVector.call) s h s' h' (j : nat) w :
  prog_ok (s, h) ->
  SimpleVector.exec dflt moved_from c s h = Ok (s', h') ->
  s !! j = Some w -> ~ In j (modifies c) ->
  s' !! j = Some w /\ buffer h' w = buffer h w /\ elems h' w = elems h w.
Proof.
  intros Hprog Hrun Hw Hj.
  cut (s' !! j = Some w /\ buffer h' w = buffer h w).
  { intros [? Hbuf]. split; [done|]. split; [done|].
    unfold elems. by rewrite Hbuf. }
  pose proof Hprog as [Hall Hdis]. rewrite Forall_lookup in Hall. simpl in *.
  pose proof (lookup_lt_Some _ _ _ Hw) as Hjlt.
  assert (Hwlive : forall b : nat, owned w = Some b -> (b < length h)%nat).
  { intros b. eapply vec_ok_owned_live. by eapply Hall. }
  assert (Hmethod : forall this (m : SimpleVector.t -> heap ->
                                     result (SimpleVector.t * heap)),
            (forall v h0 v' h0',
               vec_ok h0 v -> m v h0 = Ok (v', h0') -> others_kept h0 v h0') ->
            SimpleVector.method this m s h = Ok (s', h') ->
            ~ In j [this] ->
            s' !! j = Some w /\ buffer h' w = buffer h w).
  { intros this m Hm Hcall Hjthis. unfold SimpleVector.method in Hcall.
    assert (j <> this) as Hne by (intros ->; apply Hjthis; by left).
    destruct (s !! this) as [v|] eqn:Hv; [|done].
    apply bind_Ok in Hcall as ([v1 h1] & Hmv & Hcall).
    injection Hcall as <- <-.
    split; [by rewrite list_lookup_insert_ne|].
    apply buffer_kept. intros b Hb.
    eapply Hm; [by eapply Hall|exact Hmv|by apply Hwlive|].
    intros Hvb. apply Hne. by eapply (Hdis j this w v b). }
  assert (Hconstruct : forall (m : heap -> result (SimpleVector.t * heap)),
            (forall v' h0', m h = Ok (v', h0') ->
                            others_kept h SimpleVector.default h0') ->
            SimpleVector.construct m s h = Ok (s', h') ->
            s' !! j = Some w /\ buffer h' w = buffer h w).
  { intros m Hm Hcall. unfold SimpleVector.construct in Hcall.
    apply bind_Ok in Hcall as ([v1 h1] & Hmv & Hcall).
    injection Hcall as <- <-.
    split; [by rewrite lookup_app_l|].
    apply buffer_kept. intros b Hb.
    eapply Hm; [exact Hmv|by apply Hwlive|done]. }
  destruct c; unfold SimpleVector.exec in Hrun; simpl in Hj.
  - eapply Hconstruct; [|exact Hrun]. by intros v' h0' [= <- <-] b Hb _.
  - eapply Hconstruct; [|exact Hrun]. intros v' h0'.
    apply sized_constructor_kept.
  - eapply Hconstruct; [|exact Hrun]. intros v' h0'. apply filled_kept.
  - eapply Hconstruct; [|exact Hrun]. intros v' h0'. apply from_list_kept.
  - destruct (s !! other) as [v|] eqn:Hv; [|done].
    eapply Hconstruct; [|exact Hrun]. intros v' h0'.
    apply copy_construct_kept.
  - destruct (s !! other) as [v|] eqn:Hv; [|done].
    rewrite (move_construct_obj _ _ _ _ Hv) in Hrun. simpl in Hrun.
    injection Hrun as <- <-.
    assert (j <> other) as Hne by (intros ->; apply Hj; by left).
    split; [|done].
    rewrite lookup_app_l by (by rewrite length_insert).
    by rewrite list_lookup_insert_ne.
  - eapply Hconstruct; [|exact Hrun]. intros v' h0' Hres.
    by eapply Reserve_kept.
  - eapply Hmethod; [|exact Hrun|exact Hj]. intros v h0 v' h0'.
    apply PushBack_kept.
  - eapply Hmethod; [|exact Hrun|exact Hj]. intros v h0 v' h0'.
    apply PushBack_kept.
  - eapply Hmethod; [|exact Hrun|exact Hj]. intros v h0 v' h0' Hok Hm.
    apply bind_Ok in Hm as (v1 & Hpop & Hm). injection Hm as <- <-.
    by intros b Hb _.
  - eapply Hmethod; [|exact Hrun|exact Hj]. intros v h0 v' h0' Hok Hm.
    unfold SimpleVector.drop_iterator in Hm.
    apply bind_Ok in Hm as ([[it v1] h1] & Hins & Hm). injection Hm as <- <-.
    by eapply Insert_kept.
  - eapply Hmethod; [|exact Hrun|exact Hj]. intros v h0 v' h0' Hok Hm.
    unfold SimpleVector.drop_iterator in Hm.
    apply bind_Ok in Hm as ([[it v1] h1] & Hins & Hm). injection Hm as <- <-.
    by eapply Insert_rv_kept.
  - eapply Hmethod; [|exact Hrun|exact Hj]. intros v h0 v' h0' Hok Hm.
    unfold SimpleVector.drop_iterator in Hm.
    apply bind_Ok in Hm as ([[it v1] h1] & Hers & Hm). injection Hm as <- <-.
    by eapply Erase_kept.
  - eapply Hmethod; [|exact Hrun|exact Hj]. intros v h0 v' h0' _.
    apply Resize_kept.
  - eapply Hmethod; [|exact Hrun|exact Hj]. intros v h0 v' h0' _.
    apply Reserve_kept.
  - eapply Hmethod; [|exact Hrun|exact Hj].
    by intros v h0 v' h0' Hok [= <- <-] b Hb _.
  - destruct (s !! this) as [a|] eqn:Ha; [|done].
    destruct (s !! other) as [b|] eqn:Hb; [|done].
    rewrite (swap_objs _ _ _ _ _ Ha Hb) in Hrun. injection Hrun as <- <-.
    assert (j <> this) as Hne1 by (intros ->; apply Hj; by left).
    assert (j <> other) as Hne2 by (intros ->; apply Hj; right; by left).
    split; [|done]. by rewrite !list_lookup_insert_ne.
  - destruct (s !! this) as [a|] eqn:Ha; [|done].
    destruct (s !! rhs) as [b|] eqn:Hb; [|done].
    assert (j <> this) as Hne1 by (intros ->; apply Hj; by left).
    destruct (decide (this = rhs)) as [->|Hne].
    + unfold SimpleVector.copy_assign in Hrun.
      rewrite decide_True in Hrun by done. by injection Hrun as <- <-.
    + rewrite (copy_assign_objs dflt _ _ _ _ _ _ Hne Ha Hb) in Hrun.
      apply bind_Ok in Hrun as ([tmp h1] & Hcopy & Hrun).
      cbv beta iota in Hrun.
      apply bind_Ok in Hrun as (h2 & Hdel & Hrun). injection Hrun as <- <-.
      split; [by rewrite list_lookup_insert_ne|].
      apply buffer_kept. intros bw Hbw.
      unfold SimpleVector.destroy in Hdel.
      rewrite (destroy_kept _ _ _ Hdel).
      * eapply copy_construct_kept; [exact Hcopy|by apply Hwlive|done].
      * intros Hab. apply Hne1. by eapply (Hdis j this w a bw).
  - destruct (s !! this) as [a|] eqn:Ha; [|done].
    destruct (s !! rhs) as [b|] eqn:Hb; [|done].
    assert (j <> this) as Hne1 by (intros ->; apply Hj; by left).
    assert (j <> rhs) as Hne2 by (intros ->; apply Hj; right; by left).
    destruct (decide (this = rhs)) as [->|Hne].
    + unfold SimpleVector.move_assign in Hrun.
      rewrite decide_True in Hrun by done. by injection Hrun as <- <-.
    + rewrite (move_assign_objs _ _ _ _ _ _ Hne Ha Hb) in Hrun.
      apply bind_Ok in Hrun as (h1 & Hdel & Hrun). injection Hrun as <- <-.
      split; [by rewrite !list_lookup_insert_ne|].
      apply buffer_kept. intros bw Hbw.
      rewrite (destroy_kept _ _ _ Hdel); [done|].
      intros Hab. apply Hne1. by eapply (Hdis j this w a bw).
Qed.

End Frame.

(** ** No array is leaked *)

Section Leaks.
Context {T : Type}.
Variable dflt : T.
Variable moved_from : T -> T.
Local Abbreviation heap := (list (option (list T))).
Implicit Types (h : heap) (s : list SimpleVector.t) (v w : SimpleVector.t).

Local Arguments size_t : simpl never.

(** The arrays that are allocated after a deletion. *)
Lemma layout_delete h (ba b n : nat) :
  layout (<[ba := None]> h) !! b = Some (Some n) ->
  b <> ba /\ layout h !! b = Some (Some n).
Proof.
  unfold layout at 1. rewrite list_fmap_insert. fold (layout h). simpl.
  intros Hlive. apply list_lookup_insert_Some in Hlive.
  destruct Hlive as [(_ & [=] & _)|[Hne Hlive]]. by split.
Qed.

(** The arrays that are allocated after an allocation. *)
Lemma layout_new (lay : list (option nat)) (n b m : nat) :
  (lay ++ [Some n]) !! b = Some (Some m) ->
  b = length lay \/ lay !! b = Some (Some m).
Proof.
  intros Hlive. apply lookup_app_Some in Hlive as [Hold|[Hge Hnew]].
  - by right.
  - left. apply lookup_lt_Some in Hnew. simpl in Hnew. lia.
Qed.

(** A method of one vector leaks no array. *)
Lemma no_leak_method s h (i : nat) v h' v' :
  no_leak (s, h) -> s !! i = Some v -> vec_ok h v -> effect h v h' v' ->
  no_leak (<[i := v']> s, h').
Proof.
  intros Hleak Hv Hok [_ Heff] b m Hlive. simpl in *.
  pose proof (lookup_lt_Some _ _ _ Hv) as Hilt.
  assert (Hkeep : layout h !! b = Some (Some m) -> owned v <> Some b ->
                  exists (k : nat) w, <[i := v']> s !! k = Some w /\
                                      owned w = Some b).
  { intros Hold Hne. destruct (Hleak b m Hold) as (k & w & Hk & Hown).
    simpl in Hk. exists k, w. split; [|done].
    rewrite list_lookup_insert_ne; [done|]. intros ->. congruence. }
  destruct Heff as [[Hlay Hitems]|(n & Hitems & Hlay)].
  - rewrite Hlay in Hlive.
    destruct (decide (owned v = Some b)) as [Hown|Hne]; [|by apply Hkeep].
    exists i, v'. split; [by rewrite list_lookup_insert_eq|].
    unfold owned in *. by rewrite Hitems.
  - destruct (decide (b = length h)) as [->|Hnew].
    { exists i, v'. split; [by rewrite list_lookup_insert_eq|].
      unfold owned. by rewrite Hitems. }
    rewrite Hlay in Hlive.
    destruct (owned v) as [bv|] eqn:Hbv.
    + apply list_lookup_insert_Some in Hlive.
      destruct Hlive as [(_ & [=] & _)|[Hne Hlive]].
      apply layout_new in Hlive as [Heq|Hold].
      { rewrite layout_length in Heq. done. }
      apply Hkeep; [done|congruence].
    + apply layout_new in Hlive as [Heq|Hold].
      { rewrite layout_length in Heq. done. }
      by apply Hkeep.
Qed.

(** A constructor leaks no array. *)
Lemma no_leak_construct s h h' v' :
  no_leak (s, h) -> effect h SimpleVector.default h' v' ->
  no_leak (s ++ [v'], h').
Proof.
  intros Hleak [_ Heff] b m Hlive. simpl in *.
  assert (Hkeep : layout h !! b = Some (Some m) ->
                  exists (k : nat) w, (s ++ [v']) !! k = Some w /\
                                      owned w = Some b).
  { intros Hold. destruct (Hleak b m Hold) as (k & w & Hk & Hown).
    simpl in Hk. exists k, w. split; [|done].
    rewrite lookup_app_l; [done|]. by eapply lookup_lt_Some. }
  assert (Hlast : (s ++ [v']) !! length s = Some v').
  { by rewrite lookup_app_r, Nat.sub_diag by lia. }
  destruct Heff as [[Hlay Hitems]|(n & Hitems & Hlay)].
  - rewrite Hlay in Hlive. by apply Hkeep.
  - simpl in Hlay. rewrite Hlay in Hlive.
    apply layout_new in Hlive as [Heq|Hold]; [|by apply Hkeep].
    rewrite layout_length in Heq. subst b.
    exists (length s), v'. split; [done|].
    unfold owned. by rewrite Hitems.
Qed.

(** What is allocated after the destructor of a vector. *)
Lemma destroy_live (a : SimpleVector.t) h h1 (b n : nat) :
  ArrayPtr.destroy (SimpleVector.items_ a) h = Ok h1 ->
  layout h1 !! b = Some (Some n) ->
  layout h !! b = Some (Some n) /\ owned a <> Some b.
Proof.
  intros Hdel Hlive.
  apply destroy_inv in Hdel as [[Hnull ->]|(ba & Hba & ->)].
  - split; [done|]. unfold owned. by rewrite Hnull.
  - apply layout_delete in Hlive as [Hne Hlive]. split; [done|].
    unfold owned. rewrite Hba. congruence.
Qed.

(** Every call that returns leaks no array. *)
Lemma exec_no_leak (c : SimpleVector.call) s h s' h' :
  prog_ok (s, h) -> no_leak (s, h) ->
  SimpleVector.exec dflt moved_from c s h = Ok (s', h') ->
  no_leak (s', h').
Proof.
  intros Hprog Hleak Hrun.
  pose proof Hprog as [Hall Hdis]. rewrite Forall_lookup in Hall. simpl in *.
  assert (Hmethod : forall this (m : SimpleVector.t -> heap ->
                                     result (SimpleVector.t * heap)),
            (forall v h0 v' h0',
               vec_ok h0 v -> m v h0 = Ok (v', h0') -> effect h0 v h0' v') ->
            SimpleVector.method this m s h = Ok (s', h') ->
            no_leak (s', h')).
  { intros this m Hm Hcall. unfold SimpleVector.method in Hcall.
    destruct (s !! this) as [v|] eqn:Hv; [|done].
    apply bind_Ok in Hcall as ([v1 h1] & Hmv & Hcall).
    injection Hcall as <- <-.
    eapply no_leak_method; [exact Hleak|exact Hv|by eapply Hall|].
    eapply Hm; [by eapply Hall|exact Hmv]. }
  assert (Hconstruct : forall (m : heap -> result (SimpleVector.t * heap)),
            (forall v' h0', m h = Ok (v', h0') ->
                            effect h SimpleVector.default h0' v') ->
            SimpleVector.construct m s h = Ok (s', h') ->
            no_leak (s', h')).
  { intros m Hm Hcall. unfold SimpleVector.construct in Hcall.
    apply bind_Ok in Hcall as ([v1 h1] & Hmv & Hcall).
    injection Hcall as <- <-.
    eapply no_leak_construct; [exact Hleak|by apply Hm]. }
  destruct c; unfold SimpleVector.exec in Hrun.
  - eapply Hconstruct; [|exact Hrun]. intros v' h0' [= <- <-].
    apply effect_same; [apply vec_ok_default|done..].
  - eapply Hconstruct; [|exact Hrun]. intros v' h0'. apply sized_effect.
  - eapply Hconstruct; [|exact Hrun]. intros v' h0'. apply filled_effect.
  - eapply Hconstruct; [|exact Hrun]. intros v' h0'. apply from_list_effect.
  - destruct (s !! other) as [v|] eqn:Hv; [|done].
    eapply Hconstruct; [|exact Hrun]. intros v' h0'.
    apply copy_construct_effect. by eapply Hall.
  - destruct (s !! other) as [v|] eqn:Hv; [|done].
    rewrite (move_construct_obj _ _ _ _ Hv) in Hrun. simpl in Hrun.
    injection Hrun as <- <-.
    pose proof (lookup_lt_Some _ _ _ Hv) as Holt.
    intros b m Hlive. simpl in *.
    destruct (Hleak b m Hlive) as (k & w & Hk & Hown). simpl in Hk.
    destruct (decide (k = other)) as [->|Hne].
    + exists (length s), v. split; [|congruence].
      rewrite lookup_app_r by (by rewrite length_insert).
      by rewrite length_insert, Nat.sub_diag.
    + exists k, w. split; [|done].
      rewrite lookup_app_l
        by (rewrite length_insert; by eapply lookup_lt_Some).
      by rewrite list_lookup_insert_ne.
  - eapply Hconstruct; [|exact Hrun]. intros v' h0'. apply reserved_effect.
  - eapply Hmethod; [|exact Hrun]. intros v h0 v' h0'. apply PushBack_effect.
  - eapply Hmethod; [|exact Hrun]. intros v h0 v' h0'. apply PushBack_effect.
  - eapply Hmethod; [|exact Hrun]. intros v h0 v' h0' Hok Hm.
    apply bind_Ok in Hm as (v1 & Hpop & Hm). injection Hm as <- <-.
    by eapply PopBack_effect.
  - eapply Hmethod; [|exact Hrun]. intros v h0 v' h0' Hok Hm.
    unfold SimpleVector.drop_iterator in Hm.
    apply bind_Ok in Hm as ([[it v1] h1] & Hins & Hm). injection Hm as <- <-.
    by eapply Insert_effect.
  - eapply Hmethod; [|exact Hrun]. intros v h0 v' h0' Hok Hm.
    unfold SimpleVector.drop_iterator in Hm.
    apply bind_Ok in Hm as ([[it v1] h1] & Hins & Hm). injection Hm as <- <-.
    by eapply Insert_rv_effect.
  - eapply Hmethod; [|exact Hrun]. intros v h0 v' h0' Hok Hm.
    unfold SimpleVector.drop_iterator in Hm.
    apply bind_Ok in Hm as ([[it v1] h1] & Hers & Hm). injection Hm as <- <-.
    by eapply Erase_effect.
  - eapply Hmethod; [|exact Hrun]. intros v h0 v' h0'.
    apply Resize_effect, size_t_range.
  - eapply Hmethod; [|exact Hrun]. intros v h0 v' h0'. apply Reserve_effect.
  - eapply Hmethod; [|exact Hrun]. intros v h0 v' h0' Hok [= <- <-].
    pose proof (vec_ok_fields _ _ Hok).
    apply effect_same; [|done..]. apply vec_ok_set_size; [done|lia].
  - destruct (s !! this) as [a|] eqn:Ha; [|done].
    destruct (s !! other) as [b|] eqn:Hb; [|done].
    rewrite (swap_objs _ _ _ _ _ Ha Hb) in Hrun. injection Hrun as <- <-.
    pose proof (lookup_lt_Some _ _ _ Ha) as Hla.
    pose proof (lookup_lt_Some _ _ _ Hb) as Hlb.
    intros b0 m Hlive. simpl in *.
    destruct (Hleak b0 m Hlive) as (k & w & Hk & Hown). simpl in Hk.
    destruct (decide (k = this)) as [->|Hkt].
    + exists other, a. split; [|congruence].
      by rewrite list_lookup_insert_eq by (by rewrite length_insert).
    + destruct (decide (k = other)) as [->|Hko].
      * exists this, b. split; [|congruence].
        rewrite list_lookup_insert_ne by done.
        by rewrite list_lookup_insert_eq.
      * exists k, w. split; [|done]. by rewrite !list_lookup_insert_ne.
  - destruct (s !! this) as [a|] eqn:Ha; [|done].
    destruct (s !! rhs) as [b|] eqn:Hb; [|done].
    destruct (decide (this = rhs)) as [->|Hne].
    + unfold SimpleVector.copy_assign in Hrun.
      rewrite decide_True in Hrun by done. by injection Hrun as <- <-.
    + rewrite (copy_assign_objs dflt _ _ _ _ _ _ Hne Ha Hb) in Hrun.
      apply bind_Ok in Hrun as ([tmp h1] & Hcopy & Hrun).
      cbv beta iota in Hrun.
      apply bind_Ok in Hrun as (h2 & Hdel & Hrun). injection Hrun as <- <-.
      pose proof (lookup_lt_Some _ _ _ Ha) as Hla.
      assert (Hleak1 : no_leak (s ++ [tmp], h1)).
      { eapply no_leak_construct; [exact Hleak|].
        eapply copy_construct_effect; [by eapply Hall|exact Hcopy]. }
      intros b0 m Hlive. simpl in *.
      unfold SimpleVector.destroy in Hdel.
      destruct (destroy_live _ _ _ _ _ Hdel Hlive) as [Hlive1 Hnota].
      destruct (Hleak1 b0 m Hlive1) as (k & w & Hk & Hown). simpl in Hk.
      apply lookup_app_Some in Hk as [Hk|[Hge Hk]].
      * exists k, w. split; [|done].
        rewrite list_lookup_insert_ne; [done|]. intros ->. congruence.
      * apply list_lookup_singleton_Some in Hk as [_ <-].
        exists this, tmp. split; [|done]. by rewrite list_lookup_insert_eq.
  - destruct (s !! this) as [a|] eqn:Ha; [|done].
    destruct (s !! rhs) as [b|] eqn:Hb; [|done].
    destruct (decide (this = rhs)) as [->|Hne].
    + unfold SimpleVector.move_assign in Hrun.
      rewrite decide_True in Hrun by done. by injection Hrun as <- <-.
    + rewrite (move_assign_objs _ _ _ _ _ _ Hne Ha Hb) in Hrun.
      apply bind_Ok in Hrun as (h1 & Hdel & Hrun). injection Hrun as <- <-.
      pose proof (lookup_lt_Some _ _ _ Ha) as Hla.
      pose proof (lookup_lt_Some _ _ _ Hb) as Hlb.
      intros b0 m Hlive. simpl in *.
      destruct (destroy_live _ _ _ _ _ Hdel Hlive) as [Hlive0 Hnota].
      destruct (Hleak b0 m Hlive0) as (k & w & Hk & Hown). simpl in Hk.
      destruct (decide (k = rhs)) as [->|Hkr].
      * exists this, b. split; [|congruence].
        rewrite list_lookup_insert_ne by done.
        by rewrite list_lookup_insert_eq.
      * exists k, w. split; [|done].
        rewrite list_lookup_insert_ne by done.
        rewrite list_lookup_insert_ne; [done|]. intros ->. congruence.
Qed.

Lemma reachable_no_leak (st : list SimpleVector.t * heap) :
  reachable dflt moved_from st -> no_leak st.
Proof.
  intros Hreach.
  cut (prog_ok st /\ no_leak st); [by intros [_ ?]|].
  unfold reachable in Hreach.
  eapply (rtc_ind_r (fun st0 => prog_ok st0 /\ no_leak st0));
    [| |exact Hreach].
  - split.
    + split; simpl; [by apply Forall_nil|]. intros i j vi vj b Hi. done.
    + intros b n Hlive. simpl in Hlive. done.
  - intros [s1 h1] [s2 h2] _ [c Hc] [IH1 IH2]. simpl in Hc. split.
    + by eapply exec_prog_ok.
    + by eapply exec_no_leak.
Qed.

(** X24.  In every state a program reaches, an array that has been
    allocated and not deleted is the array of exactly one vector, and it
    has as many elements as the capacity of that vector: growth, assignment
    and moves delete the array they replace, and no two vectors come to
    share one. *)
Theorem X24_no_leak (st : list SimpleVector.t * heap) :
  reachable dflt moved_from st ->
  no_leak st /\
  forall (b n : nat),
    layout (snd st) !! b = Some (Some n) ->
    exists (i : nat) v,
      fst st !! i = Some v /\ owned v = Some b /\
      SimpleVector.capacity_ v = Z.of_nat n /\
      forall (j : nat) w,
        fst st !! j = Some w -> owned w = Some b -> j = i.
Proof.
  intros Hreach.
  pose proof (reachable_no_leak st Hreach) as Hleak.
  pose proof (reachable_prog_ok dflt moved_from st Hreach) as [Hall Hdis].
  rewrite Forall_lookup in Hall.
  split; [done|]. intros b n Hlive.
  destruct (Hleak b n Hlive) as (i & v & Hv & Hown).
  exists i, v. split; [done|]. split; [done|]. split.
  - pose proof (Hall _ _ Hv) as (_ & _ & _ & Hblk).
    unfold owned in Hown. rewrite Hown in Hblk.
    destruct Hblk as (_ & l & Hl & Hlen).
    apply layout_live in Hlive as (l' & Hl' & Hlen').
    rewrite Hl in Hl'. injection Hl' as <-. lia.
  - intros j w Hw Hwown. by eapply (Hdis j i w v b).
Qed.

End Leaks.

(** * More of the code on examples *)

Lemma example_pair_ok : prog_ok example_pair.
Proof.
  split.
  - unfold example_pair; simpl.
    repeat apply Forall_cons_2; [| |apply Forall_nil_2].
    + unfold vec_ok; simpl. rewrite max_array_len_val.
      repeat split; try lia. eexists. split; reflexivity.
    + unfold vec_ok; simpl. rewrite max_array_len_val.
      repeat split; try lia. eexists. split; reflexivity.
  - unfold example_pair; simpl. intros i j vi vj b Hi Hj Hbi Hbj.
    destruct i as [|[|i]]; simpl in Hi; [| |by rewrite lookup_nil in Hi];
      destruct j as [|[|j]]; simpl in Hj; try (by rewrite lookup_nil in Hj);
      injection Hi as <-; injection Hj as <-;
      unfold owned in Hbi, Hbj; simpl in Hbi, Hbj; congruence.
Defined.

Lemma X1_witness :
  exists v h',
    SimpleVector.sized int_default 3 [] = Ok (v, h') /\
    elems h' v = [0; 0; 0].
Proof.
  destruct (X1_sized_constructor int_default 3 []) as [Hok _]; [lia|].
  destruct Hok as (v & h' & Hrun & _ & _ & _ & Hel & _); [by vm_compute|].
  exists v, h'. split; [exact Hrun|exact Hel].
Defined.

Lemma X2_witness :
  exists v h',
    SimpleVector.filled int_default 2 7 [] = Ok (v, h') /\
    elems h' v = [7; 7].
Proof.
  destruct (X2_filled_constructor int_default 2 7 []) as [Hok _]; [lia|].
  destruct Hok as (v & h' & Hrun & _ & _ & _ & Hel & _); [by vm_compute|].
  exists v, h'. split; [exact Hrun|exact Hel].
Defined.

Lemma X3_witness :
  exists v h',
    SimpleVector.from_list int_default [1; 2; 3] [] = Ok (v, h') /\
    elems h' v = [1; 2; 3] /\ SimpleVector.capacity_ v = 3.
Proof.
  destruct (X3_initializer_list_constructor int_default [1; 2; 3] [])
    as (v & h' & Hrun & _ & _ & Hcap & Hel & _); [by vm_compute|].
  exists v, h'. split; [exact Hrun|]. split; [exact Hel|exact Hcap].
Defined.


Lemma X5_witness :
  exists s',
    SimpleVector.exec int_default int_moved_from (SimpleVector.new_move 0)
      (fst example_pair) (snd example_pair) = Ok (s', snd example_pair) /\
    s' !! 2%nat
    = Some (SimpleVector.Make (ArrayPtr.Make (Ptr (Some 0%nat) 0)) 2 2) /\
    s' !! 0%nat = Some SimpleVector.default.
Proof.
  destruct (X5_move_constructor int_default int_moved_from
              (fst example_pair) (snd example_pair) 0
              (SimpleVector.Make (ArrayPtr.Make (Ptr (Some 0%nat) 0)) 2 2))
    as (Hrun & Hnew & Hold & _); [reflexivity|].
  eexists. split; [exact Hrun|]. split; [exact Hnew|exact Hold].
Defined.

Lemma X6_witness :
  exists v h',
    SimpleVector.copy_assign int_default 0 1
      (fst example_pair) (snd example_pair)
    = Ok (<[0%nat := v]> (fst example_pair), h') /\
    elems h' v = [7] /\ SimpleVector.capacity_ v = 3.
Proof.
  destruct (X6_copy_assignment int_default
              (fst example_pair) (snd example_pair) 0 1
              (SimpleVector.Make (ArrayPtr.Make (Ptr (Some 0%nat) 0)) 2 2)
              (SimpleVector.Make (ArrayPtr.Make (Ptr (Some 1%nat) 0)) 1 3)
              example_pair_ok)
    as (v & h' & Hrun & _ & _ & Hcap & Hel & _);
    [lia|reflexivity|reflexivity|].
  exists v, h'. split; [exact Hrun|]. split; [exact Hel|exact Hcap].
Defined.

Lemma X7_witness :
  exists h',
    SimpleVector.move_assign 0 1 (fst example_pair) (snd example_pair)
    = Ok ([SimpleVector.Make (ArrayPtr.Make (Ptr (Some 1%nat) 0)) 1 3;
           SimpleVector.default], h') /\
    elems h' (SimpleVector.Make (ArrayPtr.Make (Ptr (Some 1%nat) 0)) 1 3)
    = [7] /\
    h' !! 0%nat = Some None.
Proof.
  destruct (X7_move_assignment
              (fst example_pair) (snd example_pair) 0 1
              (SimpleVector.Make (ArrayPtr.Make (Ptr (Some 0%nat) 0)) 2 2)
              (SimpleVector.Make (ArrayPtr.Make (Ptr (Some 1%nat) 0)) 1 3)
              example_pair_ok)
    as (h' & Hrun & _ & _ & Hel & _ & Hdead & _);
    [lia|reflexivity|reflexivity|].
  exists h'. split; [exact Hrun|]. split; [exact Hel|].
  apply Hdead. reflexivity.
Defined.

Lemma X8_witness :
  SimpleVector.swap (SimpleVector.obj 0) (SimpleVector.obj 1)
    (SimpleVector.swap (SimpleVector.obj 0) (SimpleVector.obj 1)
       (fst example_pair))
  = fst example_pair.
Proof.
  destruct (X8_swap (fst example_pair) 0 1
              (SimpleVector.Make (ArrayPtr.Make (Ptr (Some 0%nat) 0)) 2 2)
              (SimpleVector.Make (ArrayPtr.Make (Ptr (Some 1%nat) 0)) 1 3))
    as (_ & _ & _ & Htwice & _); [reflexivity|reflexivity|].
  exact Htwice.
Defined.

Lemma X9_witness :
  exists v1 h1 v2,
    SimpleVector.PushBack int_default int_moved_from 50
      example_vector example_heap = Ok (v1, h1) /\
    SimpleVector.PopBack v1 = Ok v2 /\
    elems h1 v2 = [10; 20; 30].
Proof.
  destruct (X9_PushBack_PopBack int_default int_moved_from
              example_heap example_vector 50 example_vector_ok)
    as (v1 & h1 & v2 & Hpush & Hpop & _ & _ & _ & Hel); [by vm_compute|].
  exists v1, h1, v2. split; [exact Hpush|]. split; [exact Hpop|exact Hel].
Defined.

Lemma X10_witness :
  exists v' x,
    SimpleVector.PopBack example_vector = Ok v' /\
    SimpleVector.size_ v' = 2 /\
    [10; 20; 30] = elems example_heap v' ++ [x].
Proof.
  destruct (X10_PopBack example_heap example_vector example_vector_ok)
    as [_ Hpop].
  destruct Hpop as (v' & x & Hrun & _ & Hsize & _ & _ & Hel); [reflexivity|].
  exists v', x. split; [exact Hrun|]. split; [exact Hsize|exact Hel].
Defined.

Lemma X11_witness :
  exists v' h',
    push_all int_default int_moved_from [1; 2]
      (SimpleVector.Clear example_vector) example_heap = Ok (v', h') /\
    SimpleVector.items_ v' = SimpleVector.items_ example_vector /\
    elems h' v' = [1; 2].
Proof.
  destruct (X11_Clear_reuse int_default int_moved_from
              example_heap example_vector [1; 2] example_vector_ok)
    as (_ & _ & _ & _ & v' & h' & Hrun & Hitems & _ & Hel & _);
    [simpl; lia|].
  exists v', h'. split; [exact Hrun|]. split; [exact Hitems|exact Hel].
Defined.

Lemma X12_witness :
  exists v1 h1 v2 h2,
    SimpleVector.Reserve int_default int_moved_from 8
      example_vector example_heap = Ok (v1, h1) /\
    push_all int_default int_moved_from [5; 6] v1 h1 = Ok (v2, h2) /\
    SimpleVector.items_ v2 = SimpleVector.items_ v1 /\
    SimpleVector.capacity_ v2 = 8 /\
    elems h2 v2 = [10; 20; 30; 5; 6].
Proof.
  destruct (X12_Reserve_then_PushBack int_default int_moved_from
              example_heap example_vector 8 [5; 6] example_vector_ok)
    as (v1 & h1 & v2 & h2 & Hres & Hpush & Hitems & Hcap & Hel & _);
    [by vm_compute|simpl; lia|].
  exists v1, h1, v2, h2. split; [exact Hres|]. split; [exact Hpush|].
  split; [exact Hitems|]. split; [exact Hcap|exact Hel].
Defined.

Lemma X13_witness :
  exists v h',
    SimpleVector.reserved int_default int_moved_from (Reserve 5) []
    = Ok (v, h') /\
    SimpleVector.size_ v = 0 /\ SimpleVector.capacity_ v = 5.
Proof.
  destruct (X13_Reserve_constructor int_default int_moved_from 5 [])
    as [Hok _]; [lia|].
  destruct Hok as (v & h' & Hrun & _ & Hsize & Hcap & _); [by vm_compute|].
  exists v, h'. split; [exact Hrun|]. split; [exact Hsize|exact Hcap].
Defined.

Lemma X14_witness :
  (exists p,
     SimpleVector.subscript 1 example_vector = Ok p /\
     load p example_heap = Ok 20) /\
  SimpleVector.subscript 3 example_vector = Err assertion_failed.
Proof.
  split.
  - destruct (X14_subscript example_heap example_vector 1 example_vector_ok)
      as [Hin _]; [lia|].
    destruct Hin as (p & x & Hrun & _ & Hload & Hx); [reflexivity|].
    vm_compute in Hx. injection Hx as <-.
    exists p. split; [exact Hrun|exact Hload].
  - destruct (X14_subscript example_heap example_vector 3 example_vector_ok)
      as [_ Hout]; [lia|].
    destruct Hout as [Hrun _]; [simpl; lia|]. exact Hrun.
Defined.

Lemma X15_witness :
  ptr_diff (SimpleVector.end_ example_vector)
    (SimpleVector.begin example_vector) = Ok 3.
Proof.
  exact (proj1 (X15_iterators example_heap example_vector example_vector_ok)).
Defined.

Lemma X16_witness :
  exists r,
    operator_eq Z.eqb example_vector example_full example_heap = Ok r /\
    operator_ne Z.eqb example_vector example_full example_heap
    = Ok (negb r) /\
    (r = true <->
     Forall2 (fun x y => (x =? y) = true) [10; 20; 30] [10; 20; 30; 40]).
Proof.
  destruct (X16_operator_eq Z.eqb example_heap example_vector example_full
              example_vector_ok example_full_ok)
    as (r & Hrun & Hne & Hr & _).
  exists r. split; [exact Hrun|]. split; [exact Hne|exact Hr].
Defined.

Lemma X17_witness :
  operator_lt Z.ltb example_vector example_full example_heap = Ok true /\
  operator_ge Z.ltb example_vector example_full example_heap = Ok false.
Proof.
  destruct (X17_operator_lt Z.ltb example_heap example_vector example_full
              example_vector_ok example_full_ok)
    as (Hlt & _ & _ & Hge & _).
  split; [exact Hlt|exact Hge].
Defined.

Lemma X18_witness :
  exists r_lt r_eq r_gt : bool,
    operator_lt Z.ltb example_vector example_full example_heap = Ok r_lt /\
    operator_eq Z.eqb example_vector example_full example_heap = Ok r_eq /\
    operator_gt Z.ltb example_vector example_full example_heap = Ok r_gt /\
    r_eq = negb r_lt && negb r_gt /\
    r_lt && r_gt = false.
Proof.
  apply (X18_comparison_trichotomy Z.eqb Z.ltb example_heap
           example_vector example_full).
  - intros x y Hxy. apply Z.ltb_lt in Hxy. apply Z.ltb_ge. lia.
  - intros x y. rewrite Z.eqb_eq, !Z.ltb_ge. lia.
  - exact example_vector_ok.
  - exact example_full_ok.
Defined.

Lemma X19_witness :
  ArrayPtr.destroy
    (snd (ArrayPtr.Release (ArrayPtr.Make (Ptr (Some 0%nat) 0))))
    example_owned = Ok example_owned /\
  ArrayPtr.destroy
    (ArrayPtr.from_raw
       (fst (ArrayPtr.Release (ArrayPtr.Make (Ptr (Some 0%nat) 0)))))
    example_owned = Ok [None].
Proof.
  destruct (X19_ArrayPtr_Release (ArrayPtr.Make (Ptr (Some 0%nat) 0))
              example_owned 0 [1; 2; 3])
    as (_ & _ & _ & Hkeep & Hdel & _); [reflexivity|reflexivity|].
  split; [exact Hkeep|exact Hdel].
Defined.

Lemma X20_witness :
  ArrayPtr.swap (cell ArrayPtr.default 0) (cell ArrayPtr.default 1)
    example_owners
  = [ArrayPtr.Make (Ptr (Some 1%nat) 0); ArrayPtr.Make (Ptr (Some 0%nat) 0)].
Proof.
  destruct (X20_ArrayPtr_swap example_owners 0 1
              (ArrayPtr.Make (Ptr (Some 0%nat) 0))
              (ArrayPtr.Make (Ptr (Some 1%nat) 0)))
    as (Hswap & _); [reflexivity|reflexivity|].
  exact Hswap.
Defined.

Lemma X21_witness :
  ArrayPtr.move_assign
    (cell ArrayPtr.default 0) (cell ArrayPtr.default 1)
    example_owners (snd example_pair)
  = Ok ([ArrayPtr.Make (Ptr (Some 1%nat) 0); ArrayPtr.default],
        [None; Some [7; 8; 9]]).
Proof.
  destruct (X21_ArrayPtr_move_assign example_owners (snd example_pair) 0 1
              (ArrayPtr.Make (Ptr (Some 0%nat) 0))
              (ArrayPtr.Make (Ptr (Some 1%nat) 0)))
    as (_ & _ & _ & Hlive); [lia|reflexivity|reflexivity|].
  exact (Hlive 0%nat [1; 2] eq_refl eq_refl).
Defined.

Lemma X22_witness :
  fst (ArrayPtr.move_construct (cell ArrayPtr.default 0) example_owners)
  = ArrayPtr.Make (Ptr (Some 0%nat) 0) /\
  snd (ArrayPtr.move_construct (cell ArrayPtr.default 0) example_owners)
    !! 0%nat = Some ArrayPtr.default.
Proof.
  destruct (X22_ArrayPtr_move_construct example_owners (snd example_pair) 0
              (ArrayPtr.Make (Ptr (Some 0%nat) 0)))
    as (Hnew & Hold & _); [reflexivity|].
  split; [exact Hnew|exact Hold].
Defined.

Lemma X23_witness :
  exists s' h',
    SimpleVector.exec int_default int_moved_from
      (SimpleVector.call_PushBack 0 5)
      (fst example_pair) (snd example_pair) = Ok (s', h') /\
    s' !! 1%nat
    = Some (SimpleVector.Make (ArrayPtr.Make (Ptr (Some 1%nat) 0)) 1 3) /\
    elems h' (SimpleVector.Make (ArrayPtr.Make (Ptr (Some 1%nat) 0)) 1 3)
    = [7].
Proof.
  assert (Hrun : exists s' h',
            SimpleVector.exec int_default int_moved_from
              (SimpleVector.call_PushBack 0 5)
              (fst example_pair) (snd example_pair) = Ok (s', h'))
    by (eexists _, _; reflexivity).
  destruct Hrun as (s' & h' & Hrun).
  destruct (X23_other_vectors_kept int_default int_moved_from
              (SimpleVector.call_PushBack 0 5)
              (fst example_pair) (snd example_pair) s' h' 1
              (SimpleVector.Make (ArrayPtr.Make (Ptr (Some 1%nat) 0)) 1 3)
              example_pair_ok Hrun)
    as (Hsame & _ & Hel); [reflexivity|simpl; lia|].
  exists s', h'. split; [exact Hrun|]. split; [exact Hsame|exact Hel].
Defined.

Lemma X24_witness : no_leak example_state.
Proof.
  exact (proj1 (X24_no_leak int_default int_moved_from example_state
                  example_state_reachable)).
Defined.

Lemma X25_witness :
  SimpleVector.Erase int_moved_from
    (ptr_add (SimpleVector.begin example_vector) 3)
    example_vector example_heap = Err assertion_failed.
Proof.
  apply (X25_Erase_assertion int_moved_from example_heap example_vector 3
           example_vector_ok).
  simpl. lia.
Defined.

Lemma X26_witness :
  SimpleVector.Insert int_default int_moved_from
    (ptr_add (SimpleVector.begin example_vector) 4) 50
    example_vector example_heap = Err assertion_failed /\
  SimpleVector.Insert_rv int_default int_moved_from
    (ptr_add (SimpleVector.begin example_vector) 4) 50
    example_vector example_heap = Err undefined_behavior.
Proof.
  apply (X26_Insert_out_of_range int_default int_moved_from
           example_heap example_vector 50 4 example_vector_ok).
  - by vm_compute.
  - lia.
  - simpl. lia.
Defined.

Lemma X27_witness :
  exists v1 h1 v2,
    SimpleVector.Resize int_default int_moved_from 4
      example_vector example_heap = Ok (v1, h1) /\
    SimpleVector.Resize int_default int_moved_from 3 v1 h1 = Ok (v2, h1) /\
    elems h1 v2 = [10; 20; 30].
Proof.
  destruct (X27_Resize_round_trip int_default int_moved_from
              example_heap example_vector 4 example_vector_ok)
    as (v1 & h1 & v2 & Hgrow & _ & Hback & _ & _ & Hel);
    [simpl; lia|left; simpl; lia|].
  exists v1, h1, v2. split; [exact Hgrow|]. split; [exact Hback|exact Hel].
Defined.
